(** * VisitManager: the per-user bounded visit history of recent_visits.h

    A shallow embedding of the C implementation (the part of the sources
    that starts with [#include "recent_visits.h"]): the record types, the
    helpers [find_user], [create_user], [create_visit], the codec
    [serialize_manager] / [deserialize_manager] and the entry points
    [VisitManagerCreate], [VisitManagerAddVisit],
    [VisitManagerGetRecentVisits], [VisitManagerDelete] and
    [VisitManagerClear], followed by the properties established about
    them. [VisitManagerFree] only releases memory.

    Conventions of the embedding (LP64, little endian):
    - [size_t] and [uint32_t] values are [Z] with the wrap-around written
      out where the code computes with them; [time_t] and [long] are [Z];
    - a [char*] is the list of bytes of the buffer it points to; its length
      as a C string is [strlen], which is undefined without a terminator;
    - a [Visit*] held in a record's array is a [slot]: the numeric value of
      the pointer together with the structure it points to;
    - the program runs in a [World]: the results of the coming allocations,
      the coming clock readings, the files, the content of the memory
      words outside the live part of the arrays, and the C library's
      [qsort];
    - a C function becomes a function in the monad [M], which threads the
      world and has an outcome [Undefined] for undefined behaviour: strlen
      on a buffer without terminator, an access to [visits[0]] of an empty
      record, a store or a load outside the block of an array, the release
      of an entry of [users] that was never written;
    - releasing memory ([free]) leaves no trace in the embedding. *)

From Stdlib Require Import ZArith Lia.
From Stdlib.Strings Require Import Byte.
From stdpp Require Import fin list strings.

Open Scope Z_scope.

(** ** Machine integers and bytes *)

Definition wrap64 (x : Z) : Z := x mod 2 ^ 64.

Definition byte_of_Z (x : Z) : byte :=
  match Byte.of_N (Z.to_N (x mod 256)) with
  | Some b => b
  | None => x00
  end.

Definition Z_of_byte (b : byte) : Z := Z.of_N (Byte.to_N b).

(** The [n] bytes of [x] in memory order (least significant first); a
    negative [x] comes out in two's complement. *)
Fixpoint le_bytes (n : nat) (x : Z) : list byte :=
  match n with
  | O => []
  | S n' => byte_of_Z x :: le_bytes n' (x / 256)
  end.

Fixpoint le_value (bs : list byte) : Z :=
  match bs with
  | [] => 0
  | b :: bs' => Z_of_byte b + 256 * le_value bs'
  end.

(** A 64-bit pattern read back as a signed [long]. *)
Definition signed64 (x : Z) : Z := if x <? 2 ^ 63 then x else x - 2 ^ 64.

(** ** C strings *)

(** Number of bytes before the first terminator, [None] when the buffer
    holds none (the scan of the C function then leaves the buffer). *)
Fixpoint strlen (buf : list byte) : option nat :=
  match buf with
  | [] => None
  | b :: buf' => if Byte.eqb b x00 then Some O else S <$> strlen buf'
  end.

(** ** The data model (recent_visits.h and the two internal structures) *)

Record timespec := { tv_sec : Z; tv_nsec : Z }.

Record Visit := {
  visit_id : Z;          (* uint32_t *)
  url : list byte;       (* char*: the buffer *)
  text : list byte;      (* char*: the buffer *)
  time : timespec
}.

(** One element of a [Visit**] array. *)
Record slot := { ptr : Z; visit : Visit }.

Record UserVisits := {
  user_id : Z;           (* uint32_t *)
  visits_at : Z;         (* the value of the field [visits] *)
  visits : list slot;    (* visits[0 .. visit_count) *)
  capacity : Z
}.

Definition visit_count (u : UserVisits) : Z := Z.of_nat (length (visits u)).

Record VisitManager := {
  users_at : Z;          (* the value of the field [users] *)
  users : list UserVisits;   (* users[0 .. user_count) *)
  user_capacity : Z;
  max_visits : Z;
  path : string
}.

Definition user_count (m : VisitManager) : Z := Z.of_nat (length (users m)).

(** Number of array elements that fit the block obtained for [n] of them:
    the request is [n] times the size of a pointer, computed in [size_t]. *)
Definition block_slots (n : Z) : Z := wrap64 (n * 8) / 8.

(** ** The C library's qsort *)

(** qsort is the library's, not the program's. The C standard fixes what
    it may do with the array: it calls the comparison function with the
    addresses of two elements of the array, it may reorder the elements
    between the calls, it does not alter them, and where there are no
    elements it calls nothing. Which comparisons it makes and how it
    reorders is the library's choice: for an array of [n] elements a
    decision tree, whose branches are the answers of the comparison
    function. *)
Inductive sorter (n : nat) : Type :=
| Return
| Exchange (i j : fin n) (rest : sorter n)
| Compare (i j : fin n) (rest : Z -> sorter n).
Arguments Return {n}.
Arguments Exchange {n} i j rest.
Arguments Compare {n} i j rest.

(** ** The world and the monad of C functions *)

Record World := {
  heap : list Z;                      (* results of the coming malloc, realloc
                                         and strdup calls; 0 is NULL *)
  clock : list timespec;              (* results of the coming timespec_get calls *)
  disk : string -> option (list byte); (* the files that can be opened for reading *)
  locked : string -> bool;            (* fopen(path, "wb") fails *)
  junk : Z -> Z;                      (* the word at an address outside the
                                         live part of the arrays: memory that
                                         is uninitialised, stale or foreign *)
  libc_qsort : forall n : nat, sorter n (* what qsort does with n elements *)
}.

Inductive outcome (A : Type) : Type :=
| Done (a : A) (w : World)
| Undefined.
Arguments Done {A} a w.
Arguments Undefined {A}.

Definition M (A : Type) : Type := World -> outcome A.

Definition ret {A} (a : A) : M A := fun w => Done a w.

Definition bind {A B} (c : M A) (k : A -> M B) : M B :=
  fun w => match c w with
           | Done a w' => k a w'
           | Undefined => Undefined
           end.

Definition undefined {A} : M A := fun _ => Undefined.

Notation "x <- c ;; k" := (bind c (fun x => k))
  (at level 100, c at next level, right associativity).

Definition set_heap (w : World) (h : list Z) : World :=
  {| heap := h; clock := clock w; disk := disk w; locked := locked w; junk := junk w;
     libc_qsort := libc_qsort w |}.

(** malloc, realloc and strdup all obtain their block here. The size is
    the request as the code computes it; the world alone decides the
    result, and an exhausted list means no memory. *)
Definition malloc (size : Z) : M Z :=
  fun w => match heap w with
           | [] => Done 0 w
           | p :: rest => Done p (set_heap w rest)
           end.

(** strdup: a copy of the string with its terminator, [None] for NULL. *)
Definition strdup (s : list byte) : M (option (list byte)) :=
  match strlen s with
  | None => undefined
  | Some n =>
      p <- malloc (Z.of_nat n + 1) ;;
      ret (if p =? 0 then None else Some (take (S n) s))
  end.

(** timespec_get(&t, TIME_UTC); an exhausted clock reads as the epoch. *)
Definition timespec_get : M timespec :=
  fun w => match clock w with
           | [] => Done {| tv_sec := 0; tv_nsec := 0 |} w
           | t :: rest =>
               Done t {| heap := heap w; clock := rest; disk := disk w;
                         locked := locked w; junk := junk w;
                         libc_qsort := libc_qsort w |}
           end.

(** fopen(path, "rb") followed by reading: the bytes of the file. *)
Definition fopen_rb (p : string) : M (option (list byte)) :=
  fun w => Done (disk w p) w.

(** fopen(path, "wb"), the writes and fclose: the file is replaced, unless
    it cannot be opened. *)
Definition write_file (p : string) (content : list byte) : M unit :=
  fun w => if locked w p then Done tt w
           else Done tt {| heap := heap w; clock := clock w;
                           disk := fun q => if String.eqb q p then Some content else disk w q;
                           locked := locked w; junk := junk w;
                           libc_qsort := libc_qsort w |}.

(** A read of a word the program has not written. *)
Definition read_junk (addr : Z) : M Z := fun w => Done (junk w addr) w.

(** ** Helpers *)

(** find_user: the first record with that id; the index stands for the
    returned pointer into [manager->users]. *)
Definition find_user (manager : VisitManager) (uid : Z) : option (nat * UserVisits) :=
  list_find (fun u => user_id u = uid) (users manager).

(** create_user: two allocations, the structure (32 bytes) and the array. *)
Definition create_user (uid : Z) (initial_capacity : Z) : M (option UserVisits) :=
  user <- malloc 32 ;;
  if user =? 0 then ret None
  else
    arr <- malloc (wrap64 (initial_capacity * 8)) ;;
    if arr =? 0 then ret None
    else ret (Some {| user_id := uid; visits_at := arr; visits := [];
                      capacity := initial_capacity |}).

(** create_visit: the structure (40 bytes), the two copies, the time. *)
Definition create_visit (vid : Z) (url_arg text_arg : list byte) : M (option slot) :=
  p <- malloc 40 ;;
  if p =? 0 then ret None
  else
    u <- strdup url_arg ;;
    match u with
    | None => ret None
    | Some ubuf =>
        t <- strdup text_arg ;;
        match t with
        | None => ret None
        | Some tbuf =>
            now <- timespec_get ;;
            ret (Some {| ptr := p;
                         visit := {| visit_id := vid; url := ubuf; text := tbuf;
                                     time := now |} |})
        end
    end.

(** ** The codec *)

(** A [struct timespec] as fwrite lays it out: [tv_sec], then [tv_nsec]. *)
Definition timespec_bytes (t : timespec) : list byte :=
  le_bytes 8 (tv_sec t) ++ le_bytes 8 (tv_nsec t).

(** A length-prefixed block of bytes, as two fwrite calls lay it out. *)
Definition block_image (buf : list byte) : list byte :=
  le_bytes 8 (Z.of_nat (length buf)) ++ buf.

(** The file image of one visit whose two strings are stored as the given
    byte blocks. *)
Definition visit_image (v : Visit) : list byte :=
  le_bytes 4 (visit_id v) ++ block_image (url v) ++ block_image (text v)
  ++ timespec_bytes (time v).

(** One user: the id, the visit count, the visits. *)
Definition user_image (uid : Z) (vs : list Visit) : list byte :=
  le_bytes 4 uid ++ le_bytes 8 (Z.of_nat (length vs)) ++ concat (visit_image <$> vs).

(** The file: the capacity bound, the user count, the users. *)
Definition file_image (stored_max : Z) (us : list (Z * list Visit)) : list byte :=
  le_bytes 8 stored_max ++ le_bytes 8 (Z.of_nat (length us))
  ++ concat ((fun u => user_image u.1 u.2) <$> us).

(** What serialize_manager writes of a string: strlen + 1 bytes of it. *)
Definition written (buf : list byte) : option (list byte) :=
  n ← strlen buf; Some (take (S n) buf).

Definition written_visit (v : Visit) : option Visit :=
  u ← written (url v); t ← written (text v);
  Some {| visit_id := visit_id v; url := u; text := t; time := time v |}.

Definition written_user (u : UserVisits) : option (Z * list Visit) :=
  vs ← mapM (fun s => written_visit (visit s)) (visits u);
  Some (user_id u, vs).

(** All that serialize_manager writes, in the order of its fwrite calls;
    [None] when one of the strings has no terminator. *)
Definition manager_bytes (manager : VisitManager) : option (list byte) :=
  us ← mapM written_user (users manager);
  Some (file_image (max_visits manager) us).

(** serialize_manager: nothing happens when the file cannot be opened; a
    string without terminator makes strlen run out of its buffer. *)
Definition serialize_manager (manager : VisitManager) : M unit :=
  fun w =>
    if locked w (path manager) then Done tt w
    else match manager_bytes manager with
         | None => Undefined
         | Some bs => write_file (path manager) bs w
         end.

(** fread of [n] bytes from the stream [f]: the bytes and the rest of the
    stream, [None] for a short read. *)
Definition fread (n : Z) (f : list byte) : option (list byte * list byte) :=
  if n <=? Z.of_nat (length f)
  then Some (take (Z.to_nat n) f, drop (Z.to_nat n) f)
  else None.

(** The body of the loop over the visits of one user, up to the decision
    to keep the visit: [None] stands for [goto cleanup]. *)
Definition read_visit (f : list byte) : M (option (slot * list byte)) :=
  p <- malloc 40 ;;
  if p =? 0 then ret None
  else
    match fread 4 f with
    | None => ret None
    | Some (b_id, f1) =>
        match fread 8 f1 with
        | None => ret None
        | Some (b_ulen, f2) =>
            ubuf <- malloc (le_value b_ulen) ;;
            if ubuf =? 0 then ret None
            else
              match fread (le_value b_ulen) f2 with
              | None => ret None
              | Some (b_url, f3) =>
                  match fread 8 f3 with
                  | None => ret None
                  | Some (b_tlen, f4) =>
                      tbuf <- malloc (le_value b_tlen) ;;
                      if tbuf =? 0 then ret None
                      else
                        match fread (le_value b_tlen) f4 with
                        | None => ret None
                        | Some (b_text, f5) =>
                            match fread 16 f5 with
                            | None => ret None
                            | Some (b_time, f6) =>
                                ret (Some
                                  ({| ptr := p;
                                      visit :=
                                        {| visit_id := le_value b_id;
                                           url := b_url; text := b_text;
                                           time :=
                                             {| tv_sec := signed64 (le_value (take 8 b_time));
                                                tv_nsec := signed64 (le_value (drop 8 b_time)) |}
                                        |} |}, f6))
                            end
                        end
                  end
              end
        end
    end.

(** The loop [for (j = 0; j < visit_count; j++)], [n] iterations left. A
    visit is kept while [j < max_visits]; the store into [user->visits[j]]
    must fall inside the block. *)
Fixpoint read_visits (n : nat) (j : Z) (max : Z) (user : UserVisits) (f : list byte)
  : M (option (UserVisits * list byte)) :=
  match n with
  | O => ret (Some (user, f))
  | S n' =>
      r <- read_visit f ;;
      match r with
      | None => ret None
      | Some (s, f') =>
          if j <? max then
            if j <? block_slots (capacity user) then
              read_visits n' (j + 1) max
                {| user_id := user_id user; visits_at := visits_at user;
                   visits := visits user ++ [s]; capacity := capacity user |} f'
            else undefined
          else read_visits n' (j + 1) max user f'
      end
  end.

(** The label [cleanup]: the loop runs over all [total] entries of the
    users array. The first [assigned] hold records and are released; the
    others were never written, and a non-null word found there is handed
    to free_user_visits. *)
Fixpoint cleanup_from (n : nat) (i : Z) (arr : Z) : M unit :=
  match n with
  | O => ret tt
  | S n' =>
      x <- read_junk (arr + 8 * i) ;;
      if x =? 0 then cleanup_from n' (i + 1) arr else undefined
  end.

Definition cleanup (manager : VisitManager) (total : Z) : M (option VisitManager) :=
  _ <- cleanup_from (Z.to_nat (total - user_count manager)) (user_count manager)
         (users_at manager) ;;
  ret None.

(** The loop [for (i = 0; i < manager->user_count; i++)], [n] iterations
    left; [users manager] holds the records assigned so far and [total] is
    the count read from the file. *)
Fixpoint read_users (n : nat) (total : Z) (manager : VisitManager) (f : list byte)
  : M (option VisitManager) :=
  match n with
  | O => ret (Some manager)
  | S n' =>
      match fread 4 f with
      | None => cleanup manager total
      | Some (b_uid, f1) =>
          match fread 8 f1 with
          | None => cleanup manager total
          | Some (b_count, f2) =>
              let count := le_value b_count in
              u <- create_user (le_value b_uid) (if 0 <? count then count else 10) ;;
              match u with
              | None => cleanup manager total
              | Some user =>
                  if user_count manager <? block_slots (user_capacity manager) then
                    r <- read_visits (Z.to_nat count) 0 (max_visits manager) user f2 ;;
                    match r with
                    | None =>
                        cleanup {| users_at := users_at manager;
                                   users := users manager ++ [user];
                                   user_capacity := user_capacity manager;
                                   max_visits := max_visits manager;
                                   path := path manager |} total
                    | Some (user', f3) =>
                        read_users n' total
                          {| users_at := users_at manager;
                             users := users manager ++ [user'];
                             user_capacity := user_capacity manager;
                             max_visits := max_visits manager;
                             path := path manager |} f3
                    end
                  else undefined
              end
          end
      end
  end.

Definition deserialize_manager (p : string) (max : Z) : M (option VisitManager) :=
  file <- fopen_rb p ;;
  match file with
  | None => ret None
  | Some f =>
      manager <- malloc 40 ;;
      if manager =? 0 then ret None
      else
        path_copy <- malloc (Z.of_nat (String.length p) + 1) ;;
        if path_copy =? 0 then ret None
        else
          match fread 8 f with
          | None => ret None
          | Some (b_stored_max, f1) =>
              match fread 8 f1 with
              | None => ret None
              | Some (b_count, f2) =>
                  let count := le_value b_count in
                  let cap := if 0 <? count then count else 10 in
                  arr <- malloc (wrap64 (cap * 8)) ;;
                  if arr =? 0 then ret None
                  else
                    read_users (Z.to_nat count) count
                      {| users_at := arr; users := []; user_capacity := cap;
                         max_visits := max; path := p |} f2
              end
          end
  end.

(** ** The entry points *)

Definition VisitManagerCreate (p : string) (max : Z) : M (option VisitManager) :=
  file <- fopen_rb p ;;
  loaded <- match file with
            | Some _ => deserialize_manager p max
            | None => ret None
            end ;;
  match loaded with
  | Some manager => ret (Some manager)
  | None =>
      manager <- malloc 40 ;;
      if manager =? 0 then ret None
      else
        path_copy <- malloc (Z.of_nat (String.length p) + 1) ;;
        if path_copy =? 0 then ret None
        else
          arr <- malloc (wrap64 (10 * 8)) ;;
          if arr =? 0 then ret None
          else ret (Some {| users_at := arr; users := []; user_capacity := 10;
                            max_visits := max; path := p |})
  end.

Definition set_users (manager : VisitManager) (us : list UserVisits) : VisitManager :=
  {| users_at := users_at manager; users := us;
     user_capacity := user_capacity manager;
     max_visits := max_visits manager; path := path manager |}.

Definition set_visits (user : UserVisits) (vs : list slot) : UserVisits :=
  {| user_id := user_id user; visits_at := visits_at user; visits := vs;
     capacity := capacity user |}.

(** "Find or create user entry": the manager after this part and the
    index of the record, [None] where the code returns false. *)
Definition find_or_create_user (manager : VisitManager) (uid : Z)
  : M (VisitManager * option nat) :=
  match find_user manager uid with
  | Some (i, _) => ret (manager, Some i)
  | None =>
      resized <-
        (if user_capacity manager <=? user_count manager then
           let new_capacity := wrap64 (user_capacity manager * 2) in
           new_users <- malloc (wrap64 (new_capacity * 8)) ;;
           if new_users =? 0 then ret None
           else ret (Some {| users_at := new_users; users := users manager;
                             user_capacity := new_capacity;
                             max_visits := max_visits manager;
                             path := path manager |})
         else ret (Some manager)) ;;
      match resized with
      | None => ret (manager, None)
      | Some manager1 =>
          u <- create_user uid (max_visits manager1) ;;
          match u with
          | None => ret (manager1, None)
          | Some user =>
              if user_count manager1 <? block_slots (user_capacity manager1) then
                ret (set_users manager1 (users manager1 ++ [user]),
                     Some (length (users manager1)))
              else undefined
          end
      end
  end.

Definition has_visit (vid : Z) (vs : list slot) : bool :=
  bool_decide (is_Some (list_find (fun s => visit_id (visit s) = vid) vs)).

(** The strict comparison of the eviction scan. *)
Definition older (t oldest_time : timespec) : bool :=
  (tv_sec t <? tv_sec oldest_time)
  || ((tv_sec t =? tv_sec oldest_time) && (tv_nsec t <? tv_nsec oldest_time)).

(** The scan [for (i = 1; i < visit_count; i++)] over the slots from
    index [i] on. *)
Fixpoint oldest_from (vs : list slot) (i : nat) (oldest_idx : nat) (oldest_time : timespec)
  : nat :=
  match vs with
  | [] => oldest_idx
  | s :: vs' =>
      if older (time (visit s)) oldest_time
      then oldest_from vs' (S i) i (time (visit s))
      else oldest_from vs' (S i) oldest_idx oldest_time
  end.

(** Swap-and-pop: the last live slot moves to position [j] unless [j] is
    the last one, and the count drops by one. *)
Definition swap_remove (j : nat) (vs : list slot) : list slot :=
  let n := length vs in
  take (n - 1)
    (if decide (j < n - 1)%nat
     then match vs !! (n - 1)%nat with
          | Some s => <[j := s]> vs
          | None => vs
          end
     else vs).

(** "Check if we need to make room": on an empty record the code reads
    [user->visits[0]->time], which no live slot backs. *)
Definition make_room (max : Z) (vs : list slot) : M (list slot) :=
  if max <=? Z.of_nat (length vs) then
    match vs with
    | [] => undefined
    | s0 :: rest => ret (swap_remove (oldest_from rest 1 0 (time (visit s0))) vs)
    end
  else ret vs.

(** "Check if we need to resize visits array": [None] where realloc
    fails. *)
Definition grow_visits (max : Z) (user : UserVisits) : M (option UserVisits) :=
  if capacity user <=? visit_count user then
    let doubled := wrap64 (capacity user * 2) in
    let new_capacity := if max <? doubled then max else doubled in
    new_visits <- malloc (wrap64 (new_capacity * 8)) ;;
    if new_visits =? 0 then ret None
    else ret (Some {| user_id := user_id user; visits_at := new_visits;
                      visits := visits user; capacity := new_capacity |})
  else ret (Some user).

(** "Add the new visit" and "Serialize changes to disk": the store into
    [user->visits[user->visit_count]] must fall inside the block. *)
Definition store_visit (manager : VisitManager) (i : nat) (user : UserVisits)
    (new_visit : slot) : M (bool * VisitManager) :=
  if visit_count user <? block_slots (capacity user) then
    let user' := set_visits user (visits user ++ [new_visit]) in
    let manager' := set_users manager (<[i := user']> (users manager)) in
    _ <- serialize_manager manager' ;;
    ret (true, manager')
  else undefined.

(** VisitManagerAddVisit from "If visit already exists, ignore it" on,
    [user] being the record at index [i]. *)
Definition add_to_user (manager : VisitManager) (i : nat) (user : UserVisits)
    (vid : Z) (url_arg text_arg : list byte) : M (bool * VisitManager) :=
  if has_visit vid (visits user) then ret (true, manager)
  else
    v <- create_visit vid url_arg text_arg ;;
    match v with
    | None => ret (false, manager)
    | Some new_visit =>
        vs <- make_room (max_visits manager) (visits user) ;;
        let user1 := set_visits user vs in
        grown <- grow_visits (max_visits manager) user1 ;;
        match grown with
        | None => ret (false, set_users manager (<[i := user1]> (users manager)))
        | Some user2 => store_visit manager i user2 new_visit
        end
    end.

(** VisitManagerAddVisit for a manager and two strings that are present. *)
Definition add_visit (manager : VisitManager) (uid vid : Z) (url_arg text_arg : list byte)
  : M (bool * VisitManager) :=
  located <- find_or_create_user manager uid ;;
  match located.2 with
  | None => ret (false, located.1)
  | Some i =>
      match users located.1 !! i with
      | None => undefined
      | Some user => add_to_user located.1 i user vid url_arg text_arg
      end
  end.

(** The arguments that may be NULL are options. *)
Definition VisitManagerAddVisit (manager : option VisitManager) (uid vid : Z)
    (url_arg text_arg : option (list byte)) : M (bool * option VisitManager) :=
  match manager, url_arg, text_arg with
  | Some m, Some u, Some t =>
      r <- add_visit m uid vid u t ;;
      ret (r.1, Some r.2)
  | _, _, _ => ret (false, manager)
  end.

(** *** Sorting *)

(** The word at address [addr], read while the array at [arr], a block of
    [slots] words, holds [vs] in its first words. The other words of the
    block hold what the world left there. A load outside the block is
    undefined: [None]. *)
Definition load (arr slots : Z) (vs : list slot) (jk : Z -> Z) (addr : Z) : option Z :=
  let k := (addr - arr) / 8 in
  if (arr <=? addr) && ((addr - arr) mod 8 =? 0) && (k <? slots) then
    Some match vs !! Z.to_nat k with
         | Some s => ptr s
         | None => jk addr
         end
  else None.

(** compare_visits: [a] and [b] are the addresses qsort passes, those of
    two elements of the array. The code casts each to [Visit*] and reads
    the field [time] there: the words at offsets 24 ([tv_sec]) and 32
    ([tv_nsec]) from the element; [tv_nsec] is read where the seconds are
    equal. *)
Definition compare_visits (mem : Z -> option Z) (a b : Z) : option Z :=
  time1_sec ← mem (a + 24);
  time2_sec ← mem (b + 24);
  if time1_sec >? time2_sec then Some (-1)
  else if time1_sec <? time2_sec then Some 1
  else
    time1_nsec ← mem (a + 32);
    time2_nsec ← mem (b + 32);
    if time1_nsec >? time2_nsec then Some (-1)
    else if time1_nsec <? time2_nsec then Some 1
    else Some 0.

Definition swap_slots (i j : nat) (vs : list slot) : list slot :=
  match vs !! i, vs !! j with
  | Some x, Some y => <[i := y]> (<[j := x]> vs)
  | _, _ => vs
  end.

(** The library's tree at work on the array at [base]: the comparison
    function receives the addresses of the two elements and reads the
    memory as it then stands. *)
Fixpoint run_sorter {n : nat} (s : sorter n)
    (compar : (Z -> option Z) -> Z -> Z -> option Z)
    (base slots : Z) (jk : Z -> Z) (vs : list slot) : option (list slot) :=
  match s with
  | Return => Some vs
  | Exchange i j rest => run_sorter rest compar base slots jk (swap_slots i j vs)
  | Compare i j rest =>
      r ← compar (load base slots vs jk) (base + 8 * Z.of_nat i) (base + 8 * Z.of_nat j);
      run_sorter (rest r) compar base slots jk vs
  end.

(** qsort(base, nmemb, 8, compar) on the [nmemb] elements [vs] of a block
    of [slots] words. *)
Definition qsort (base slots : Z) (vs : list slot)
    (compar : (Z -> option Z) -> Z -> Z -> option Z) : M (list slot) :=
  fun w => match run_sorter (libc_qsort w (length vs)) compar base slots (junk w) vs with
           | Some vs' => Done vs' w
           | None => Undefined
           end.

Definition sort_visits (arr slots : Z) (vs : list slot) : M (list slot) :=
  qsort arr slots vs compare_visits.

(** What VisitManagerGetRecentVisits hands back: the returned pointer
    (0 is NULL) and the value stored through [count], if any. *)
Record recent := { returned : Z; stored_count : option Z }.

(** [count_arg] tells whether the pointer [count] is non-null. *)
Definition VisitManagerGetRecentVisits (manager : option VisitManager) (uid : Z)
    (count_arg : bool) : M (recent * option VisitManager) :=
  match manager with
  | Some m =>
      if count_arg then
        match find_user m uid with
        | None => ret ({| returned := 0; stored_count := Some 0 |}, manager)
        | Some (i, user) =>
            vs <- sort_visits (visits_at user) (block_slots (capacity user))
                    (visits user) ;;
            let user1 := set_visits user vs in
            ret ({| returned := visits_at user1;
                    stored_count := Some (visit_count user1) |},
                 Some (set_users m (<[i := user1]> (users m))))
        end
      else ret ({| returned := 0; stored_count := None |}, manager)
  | None => ret ({| returned := 0; stored_count := None |}, manager)
  end.

(** *** Deleting *)

(** One round of the outer loop of VisitManagerDelete: the first slot
    with the id is removed by swap-and-pop. *)
Definition delete_one (id_to_delete : Z) (st : list slot * bool) : list slot * bool :=
  match list_find (fun s => visit_id (visit s) = id_to_delete) st.1 with
  | Some (j, _) => (swap_remove j st.1, true)
  | None => st
  end.

Definition delete_ids (visitIds : list Z) (vs : list slot) : list slot * bool :=
  foldl (fun st id => delete_one id st) (vs, false) visitIds.

(** [visitIds] is the array of [visit_count] ids, [None] for NULL. *)
Definition VisitManagerDelete (manager : option VisitManager) (uid : Z)
    (visitIds : option (list Z)) : M (bool * option VisitManager) :=
  match manager, visitIds with
  | Some m, Some (id :: ids) =>
      match find_user m uid with
      | None => ret (false, manager)
      | Some (i, user) =>
          let r := delete_ids (id :: ids) (visits user) in
          let m1 := set_users m (<[i := set_visits user r.1]> (users m)) in
          if r.2 then
            _ <- serialize_manager m1 ;;
            ret (true, Some m1)
          else ret (false, Some m1)
      end
  | _, _ => ret (false, manager)
  end.

Definition VisitManagerClear (manager : option VisitManager) (uid : Z)
  : M (option VisitManager) :=
  match manager with
  | None => ret None
  | Some m =>
      match find_user m uid with
      | None => ret manager
      | Some (i, user) =>
          let m1 := set_users m (<[i := set_visits user []]> (users m)) in
          _ <- serialize_manager m1 ;;
          ret (Some m1)
      end
  end.

(** ** Concrete strings, states and worlds for the examples *)

(** A string literal as the C program holds it: its bytes and a terminator. *)
Definition c_string (s : string) : list byte := String.list_byte_of_string s ++ [x00].

Definition at_time (sec nsec : Z) : timespec := {| tv_sec := sec; tv_nsec := nsec |}.

Definition demo_visit (p vid : Z) (u t : string) (sec : Z) : slot :=
  {| ptr := p;
     visit := {| visit_id := vid; url := c_string u; text := c_string t;
                 time := at_time sec 0 |} |}.

Definition visit_101 : slot := demo_visit 8192 101 "https://example.com/1" "Example 1" 100.
Definition visit_102 : slot := demo_visit 8256 102 "https://example.com/2" "Example 2" 200.
Definition visit_103 : slot := demo_visit 8320 103 "https://example.com/3" "Example 3" 150.

Definition demo_user : UserVisits :=
  {| user_id := 1; visits_at := 4224; visits := [visit_101; visit_102; visit_103];
     capacity := 3 |}.

Definition empty_user : UserVisits :=
  {| user_id := 2; visits_at := 4352; visits := []; capacity := 3 |}.

Definition demo_manager : VisitManager :=
  {| users_at := 4128; users := [demo_user; empty_user]; user_capacity := 10;
     max_visits := 3; path := "visit_test.dat" |}.

(** ** The qsort of the GNU C library

    The merge sort of msort.c, which the library runs on every array for
    which it can have room for a copy (on its stack, below 1024 bytes):
    the two halves are sorted, then merged into the copy by comparing the
    heads of the two runs where they lie in the array, the first run
    winning unless the comparison is positive; the merged run is then
    copied back. *)

(** Element [i] of an array of [S n] elements. *)
Fixpoint element (n i : nat) : fin (S n) :=
  match n, i with
  | S n', S i' => FS (element n' i')
  | _, _ => 0%fin
  end.

(** The element at [from] moves [count] places towards the front, the
    elements it passes move one place up. *)
Fixpoint rotate {n : nat} (from count : nat) (k : sorter (S n)) : sorter (S n) :=
  match count, from with
  | S count', S from' => Exchange (element n from') (element n from) (rotate from' count' k)
  | _, _ => k
  end.

(** The copy back: every element [from] that the merge took from the
    second run goes to the place [to] it has in the merged run. *)
Definition copy_back {n : nat} (moves : list (nat * nat)) (k : sorter (S n)) : sorter (S n) :=
  foldr (fun move k' => rotate move.1 (move.1 - move.2) k') k moves.

(** The merge loop: [n1] elements left in the run at [b1], [n2] in the
    run at [b2]; [out] is where the next element goes, [moves] lists, last
    first, what was taken from the second run. *)
Fixpoint merge {n : nat} (steps : nat) (b1 n1 b2 n2 out : nat) (moves : list (nat * nat))
    (k : sorter (S n)) : sorter (S n) :=
  match steps, n1, n2 with
  | S steps', S n1', S n2' =>
      Compare (element n b1) (element n b2)
        (fun r => if r <=? 0
                  then merge steps' (S b1) n1' b2 n2 (S out) moves k
                  else merge steps' b1 n1 (S b2) n2' (S out) ((b2, out) :: moves) k)
  | _, _, _ => copy_back (rev moves) k
  end.

(** msort_with_tmp on the [len] elements from [b] on. *)
Fixpoint msort_with_tmp {n : nat} (depth : nat) (b len : nat) (k : sorter (S n))
  : sorter (S n) :=
  match depth with
  | O => k
  | S depth' =>
      if (len <=? 1)%nat then k
      else
        let n1 := (len / 2)%nat in
        let n2 := (len - n1)%nat in
        msort_with_tmp depth' b n1
          (msort_with_tmp depth' (b + n1) n2
             (merge (n1 + n2) b n1 (b + n1) n2 b [] k))
  end.

Definition glibc_qsort (n : nat) : sorter n :=
  match n with
  | O => Return
  | S n' => msort_with_tmp (S n') 0 (S n') Return
  end.

(** A world with memory to spare, a running clock, no file yet, and zeros
    in the memory the program has not written. *)
Definition demo_world : World :=
  {| heap := (fun n => 16384 + 64 * Z.of_nat n) <$> seq 0 64;
     clock := (fun n => at_time (1000 + Z.of_nat n) 500) <$> seq 0 16;
     disk := fun _ => None;
     locked := fun _ => false;
     junk := fun _ => 0; libc_qsort := glibc_qsort |}.

(** Memory for the two blocks of a record, and no more. *)
Definition starved_world : World :=
  {| heap := [16384; 16448; 0]; clock := []; disk := fun _ => None;
     locked := fun _ => false; junk := fun _ => 0;
     libc_qsort := glibc_qsort |}.

Definition demo_content : list (Z * list Visit) :=
  [(1, [visit visit_101; visit visit_102; visit visit_103]); (2, [visit visit_102])].

(** A world whose file declares the capacity bound 100. *)
Definition loaded_world : World :=
  {| heap := heap demo_world; clock := clock demo_world;
     disk := fun q => if String.eqb q "visit_test.dat"
                      then Some (file_image 100 demo_content) else None;
     locked := fun _ => false; junk := fun _ => 0;
     libc_qsort := glibc_qsort |}.

(** A file in which the two visits of user 1 carry the same visit id. *)
Definition visit_5a : slot := demo_visit 8192 5 "https://example.com/a" "First" 100.
Definition visit_5b : slot := demo_visit 8256 5 "https://example.com/b" "Second" 200.

Definition repeated_content : list (Z * list Visit) := [(1, [visit visit_5a; visit visit_5b])].

Definition repeated_world : World :=
  {| heap := heap demo_world; clock := clock demo_world;
     disk := fun q => if String.eqb q "visit_test.dat"
                      then Some (file_image 10 repeated_content) else None;
     locked := fun _ => false; junk := fun _ => 0; libc_qsort := glibc_qsort |}.

(** The first two visits of a user of a fresh manager, then the query. *)
Definition first_two_visits : M (recent * option VisitManager) :=
  m <- VisitManagerCreate "rv.dat" 10 ;;
  r1 <- VisitManagerAddVisit m 1 101 (Some (c_string "https://example.com/1"))
          (Some (c_string "Example 1")) ;;
  r2 <- VisitManagerAddVisit r1.2 1 102 (Some (c_string "https://example.com/2"))
          (Some (c_string "Example 2")) ;;
  VisitManagerGetRecentVisits r2.2 1 true.

(** The visits a manager holds for a user, in array order. *)
Definition visits_of (om : option VisitManager) (uid : Z) : list slot :=
  match om with
  | Some m => match find_user m uid with
              | Some (_, user) => visits user
              | None => []
              end
  | None => []
  end.

(** A file cut after its header: capacity bound 5, one user announced,
    nothing more. *)
Definition truncated_file : list byte := le_bytes 8 5 ++ le_bytes 8 1.

(** A world that holds the truncated file and whose free memory was used
    before: the words the program has not written are not zero. *)
Definition truncated_world : World :=
  {| heap := heap demo_world; clock := clock demo_world;
     disk := fun q => if String.eqb q "visit_test.dat" then Some truncated_file else None;
     locked := fun _ => false;
     junk := fun _ => 93824992236880; libc_qsort := glibc_qsort |}.

(** The same file in a world whose free memory is all zeros. *)
Definition truncated_world_zeroed : World :=
  {| heap := heap demo_world; clock := clock demo_world;
     disk := disk truncated_world; locked := fun _ => false; junk := fun _ => 0;
     libc_qsort := glibc_qsort |}.

(** A manager created with capacity 0, then the first add. *)
Definition add_with_zero_capacity : M (bool * option VisitManager) :=
  m <- VisitManagerCreate "rv.dat" 0 ;;
  VisitManagerAddVisit m 1 101 (Some (c_string "https://example.com/1"))
    (Some (c_string "Example 1")).


(** The scenario of the repository's test of the limit: capacity 3, five
    visits of user 3 one after the other, then the query. *)
Definition five_visits_with_capacity_three : M (recent * option VisitManager) :=
  m <- VisitManagerCreate "max_visit_test.dat" 3 ;;
  r1 <- VisitManagerAddVisit m 3 301 (Some (c_string "https://example.net/1"))
          (Some (c_string "Net 1")) ;;
  r2 <- VisitManagerAddVisit r1.2 3 302 (Some (c_string "https://example.net/2"))
          (Some (c_string "Net 2")) ;;
  r3 <- VisitManagerAddVisit r2.2 3 303 (Some (c_string "https://example.net/3"))
          (Some (c_string "Net 3")) ;;
  r4 <- VisitManagerAddVisit r3.2 3 304 (Some (c_string "https://example.net/4"))
          (Some (c_string "Net 4")) ;;
  r5 <- VisitManagerAddVisit r4.2 3 305 (Some (c_string "https://example.net/5"))
          (Some (c_string "Net 5")) ;;
  VisitManagerGetRecentVisits r5.2 3 true.

(** A manager created with capacity 1, then two adds. *)
Definition two_adds_with_capacity_one : M (bool * option VisitManager) :=
  m <- VisitManagerCreate "rv.dat" 1 ;;
  r1 <- VisitManagerAddVisit m 1 101 (Some (c_string "https://example.com/1"))
          (Some (c_string "Example 1")) ;;
  VisitManagerAddVisit r1.2 1 102 (Some (c_string "https://example.com/2"))
    (Some (c_string "Example 2")).
(** * Predicates of the statements *)

(** ** Strings and visit ids *)

(** The header documents [url] and [text] as pointers to null-terminated
    strings. *)
Definition terminated (buf : list byte) : Prop := is_Some (strlen buf).

Definition visit_terminated (s : slot) : Prop :=
  terminated (url (visit s)) ∧ terminated (text (visit s)).

Definition strings_terminated (m : VisitManager) : Prop :=
  Forall (fun u => Forall visit_terminated (visits u)) (users m).

(** The string a buffer holds: its bytes before the terminator. *)
Definition c_str (buf : list byte) : list byte :=
  match strlen buf with
  | Some n => take n buf
  | None => buf
  end.

(** The visit ids of a record, in array order. *)
Definition ids_of (vs : list slot) : list Z := (fun s => visit_id (visit s)) <$> vs.

(** Within every record the visit ids are pairwise distinct. *)
Definition ids_unique (m : VisitManager) : Prop :=
  Forall (fun u => NoDup (ids_of (visits u))) (users m).

(** ** The order of timestamps *)

(** [a] is not later than [b] in the order (seconds, nanoseconds). *)
Definition not_later (a b : timespec) : Prop :=
  tv_sec a < tv_sec b ∨ (tv_sec a = tv_sec b ∧ tv_nsec a ≤ tv_nsec b).

(** ** The representation invariant *)

(** What every record of a manager satisfies: an allocated array, and a
    count within the capacity bound and within the block of the array. *)
Definition record_ok (max : Z) (u : UserVisits) : Prop :=
  visits_at u ≠ 0
  ∧ 0 ≤ capacity u
  ∧ visit_count u ≤ max
  ∧ visit_count u ≤ block_slots (capacity u).

Definition manager_ok (max : Z) (m : VisitManager) : Prop :=
  max_visits m = max ∧ Forall (record_ok max) (users m).

(** Three consequences of it that statements below need on their own:
    every record owns an array, holds no more visits than its capacity
    field says, and holds no more than the capacity bound. *)
Definition arrays_allocated (m : VisitManager) : Prop :=
  Forall (fun u => visits_at u ≠ 0) (users m).

Definition records_fit (m : VisitManager) : Prop :=
  Forall (fun u => visit_count u ≤ capacity u) (users m).

Definition within_bound (m : VisitManager) : Prop :=
  Forall (fun u => visit_count u ≤ max_visits m) (users m).

(** ** Clients *)

(** The calls a client can make on a manager it holds. *)
Inductive call : Type :=
| CallAddVisit (uid vid : Z) (url_arg text_arg : option (list byte))
| CallGetRecentVisits (uid : Z) (count_arg : bool)
| CallDelete (uid : Z) (visitIds : option (list Z))
| CallClear (uid : Z).

Definition run_call (c : call) (m : VisitManager) : M (option VisitManager) :=
  match c with
  | CallAddVisit uid vid url_arg text_arg =>
      r <- VisitManagerAddVisit (Some m) uid vid url_arg text_arg ;; ret r.2
  | CallGetRecentVisits uid count_arg =>
      r <- VisitManagerGetRecentVisits (Some m) uid count_arg ;; ret r.2
  | CallDelete uid visitIds =>
      r <- VisitManagerDelete (Some m) uid visitIds ;; ret r.2
  | CallClear uid => VisitManagerClear (Some m) uid
  end.

(** The managers a client can observe: the one VisitManagerCreate hands
    out, in any world, and the ones left by calls that return, each in
    any world. *)
Inductive reachable (max : Z) : VisitManager → Prop :=
| reach_create (p : string) (w w' : World) (m : VisitManager) :
    VisitManagerCreate p max w = Done (Some m) w' → reachable max m
| reach_call (m m' : VisitManager) (c : call) (w w' : World) :
    reachable max m → run_call c m w = Done (Some m') w' → reachable max m'.

(** ** Memory *)

(** The next [n] allocations succeed. *)
Definition heap_ok (n : nat) (w : World) : Prop :=
  (n ≤ length (heap w))%nat ∧ Forall (fun p => p ≠ 0) (take n (heap w)).

(** ** The content of a file *)

(** A visit whose fields fit the widths of the file format. *)
Definition visit_fits (v : Visit) : Prop :=
  0 ≤ visit_id v < 2 ^ 32
  ∧ Z.of_nat (length (url v)) < 2 ^ 64
  ∧ Z.of_nat (length (text v)) < 2 ^ 64
  ∧ - 2 ^ 63 ≤ tv_sec (time v) < 2 ^ 63
  ∧ - 2 ^ 63 ≤ tv_nsec (time v) < 2 ^ 63.

(** One user of a file, its id and its visits, within the widths of the
    format and of an allocation request. *)
Definition user_fits (u : Z * list Visit) : Prop :=
  0 ≤ u.1 < 2 ^ 32 ∧ Z.of_nat (length u.2) * 8 < 2 ^ 64 ∧ Forall visit_fits u.2.

(** The same for what a manager holds. *)
Definition manager_fits (m : VisitManager) : Prop :=
  Z.of_nat (length (users m)) * 8 < 2 ^ 64
  ∧ Forall (fun u => 0 ≤ user_id u < 2 ^ 32
                     ∧ Z.of_nat (length (visits u)) * 8 < 2 ^ 64
                     ∧ Forall (fun s => visit_fits (visit s)) (visits u)) (users m).

(** Allocations made while the users of a file are read: two for each
    record, three for each visit. *)
Definition allocations (us : list (Z * list Visit)) : nat :=
  sum_list ((fun u => 2 + 3 * length u.2)%nat <$> us).

(** The record [u] is what loading the file entry [r] with capacity [max]
    gives. *)
Definition loaded_as (max : Z) (u : UserVisits) (r : Z * list Visit) : Prop :=
  user_id u = r.1
  ∧ visit <$> visits u = take (Z.to_nat max) r.2
  ∧ visits_at u ≠ 0
  ∧ capacity u = (if 0 <? Z.of_nat (length r.2) then Z.of_nat (length r.2) else 10).

(** ** The tuples of a manager *)

Definition visit_tuple (uid : Z) (v : Visit) : Z * Z * list byte * list byte * timespec :=
  (uid, visit_id v, c_str (url v), c_str (text v), time v).

Definition user_tuples (u : UserVisits)
  : list (Z * Z * list byte * list byte * timespec) :=
  visit_tuple (user_id u) <$> (visit <$> visits u).

(** The (user_id, visit_id, url, text, timestamp) tuples of a manager. *)
Definition tuples (m : VisitManager) : list (Z * Z * list byte * list byte * timespec) :=
  concat (user_tuples <$> users m).

(** ** Deciding the predicates on concrete states *)

#[global] Instance strings_terminated_dec (m : VisitManager) :
  Decision (strings_terminated m).
Proof. unfold strings_terminated, visit_terminated, terminated. apply _. Defined.

#[global] Instance record_ok_dec (max : Z) (u : UserVisits) : Decision (record_ok max u).
Proof. unfold record_ok. apply _. Defined.

#[global] Instance manager_ok_dec (max : Z) (m : VisitManager) : Decision (manager_ok max m).
Proof. unfold manager_ok. apply _. Defined.

#[global] Instance arrays_allocated_dec (m : VisitManager) : Decision (arrays_allocated m).
Proof. unfold arrays_allocated. apply _. Defined.

#[global] Instance records_fit_dec (m : VisitManager) : Decision (records_fit m).
Proof. unfold records_fit. apply _. Defined.

#[global] Instance within_bound_dec (m : VisitManager) : Decision (within_bound m).
Proof. unfold within_bound. apply _. Defined.

#[global] Instance heap_ok_dec (n : nat) (w : World) : Decision (heap_ok n w).
Proof. unfold heap_ok. apply _. Defined.

#[global] Instance visit_fits_dec (v : Visit) : Decision (visit_fits v).
Proof. unfold visit_fits. apply _. Defined.

#[global] Instance user_fits_dec (u : Z * list Visit) : Decision (user_fits u).
Proof. unfold user_fits. apply _. Defined.

#[global] Instance manager_fits_dec (m : VisitManager) : Decision (manager_fits m).
Proof. unfold manager_fits. apply _. Defined.

(** Closed decidable goals are settled by evaluation. *)
Ltac by_computation :=
  match goal with |- ?P => apply (bool_decide_unpack P); vm_compute; exact I end.


(** ** What a call is about *)

(** The user a call names. *)
Definition call_user (c : call) : Z :=
  match c with
  | CallAddVisit uid _ _ _ => uid
  | CallGetRecentVisits uid _ => uid
  | CallDelete uid _ => uid
  | CallClear uid => uid
  end.

(** The visits a call may bring into a record: those that carry the visit
    id of an add. *)
Definition call_adds (c : call) (s : slot) : Prop :=
  match c with
  | CallAddVisit _ vid _ _ => visit_id (visit s) = vid
  | _ => False
  end.

(** A call whose string arguments, where present, are C strings. *)
Definition call_ok (c : call) : Prop :=
  match c with
  | CallAddVisit _ _ url_arg text_arg =>
      from_option terminated True url_arg ∧ from_option terminated True text_arg
  | _ => True
  end.


(** A query whose comparisons stay inside the array: the user is unknown
    or has no visits, or the block has four words behind the last visit
    (compare_visits reads up to four words past an element). *)
Definition call_in_bounds (c : call) (m : VisitManager) : Prop :=
  match c with
  | CallGetRecentVisits uid true =>
      match find_user m uid with
      | Some (_, user) => visits user = [] ∨ visit_count user + 4 ≤ capacity user
      | None => True
      end
  | _ => True
  end.

(** The library's tree makes a comparison before it returns. *)
Fixpoint compares {n : nat} (s : sorter n) : Prop :=
  match s with
  | Return => False
  | Exchange _ _ rest => compares rest
  | Compare _ _ _ => True
  end.

(** What a call may do to the record at one index: nothing, or, if it is
    a record of the user of the call, replace its visits by visits it held
    and visits the call adds. *)
Definition record_step (c : call) (u u' : UserVisits) : Prop :=
  u' = u
  ∨ (user_id u = call_user c ∧ user_id u' = call_user c
     ∧ ∀ s, s ∈ visits u' → s ∈ visits u ∨ call_adds c s).

(** What a call may do to a manager: possibly append an empty record for
    its user, if the user had none, and change records as [record_step]
    allows. *)
Definition manager_step (c : call) (m m' : VisitManager) : Prop :=
  max_visits m' = max_visits m ∧ path m' = path m
  ∧ ∃ extra,
      Forall2 (record_step c) (users m ++ extra) (users m')
      ∧ (extra = []
         ∨ (find_user m (call_user c) = None
            ∧ ∃ user, extra = [user] ∧ user_id user = call_user c ∧ visits user = [])).

(** ** States in which every call is defined *)

(** A record with a capacity that the arithmetic of the code handles
    without wrap-around, and a count within it and within the bound. *)
Definition record_sane (max : Z) (u : UserVisits) : Prop :=
  1 ≤ capacity u < 2 ^ 60 ∧ visit_count u ≤ capacity u ∧ visit_count u ≤ max.

(** A manager with a positive capacity bound, sane records, terminated
    strings, and a users array that holds its records and is not larger
    than doubling from the initial ten entries makes it. *)
Definition manager_sane (m : VisitManager) : Prop :=
  1 ≤ max_visits m < 2 ^ 60
  ∧ 1 ≤ user_capacity m
  ∧ user_count m ≤ user_capacity m
  ∧ user_capacity m ≤ Z.max 10 (2 * user_count m)
  ∧ Forall (record_sane (max_visits m)) (users m)
  ∧ strings_terminated m.

(** ** Timestamps *)

(** [a] is strictly before [b] in the order (seconds, nanoseconds). *)
Definition earlier (a b : timespec) : Prop :=
  tv_sec a < tv_sec b ∨ (tv_sec a = tv_sec b ∧ tv_nsec a < tv_nsec b).

(** What timespec_get will answer next. *)
Definition next_time (w : World) : timespec :=
  match clock w with
  | [] => {| tv_sec := 0; tv_nsec := 0 |}
  | t :: _ => t
  end.

(** ** Deciding the predicates on concrete states, continued *)

#[global] Instance call_ok_dec (c : call) : Decision (call_ok c).
Proof.
  destruct c as [uid vid [u|] [t|]| | |]; unfold call_ok, terminated; simpl; apply _.
Defined.

#[global] Instance call_in_bounds_dec (c : call) (m : VisitManager) :
  Decision (call_in_bounds c m).
Proof.
  destruct c as [| uid [|] | |]; simpl; try apply _.
  destruct (find_user m uid) as [[i user]|]; apply _.
Defined.

#[global] Instance compares_dec {n : nat} (s : sorter n) : Decision (compares s).
Proof. induction s; simpl; apply _. Defined.

#[global] Instance record_sane_dec (max : Z) (u : UserVisits) : Decision (record_sane max u).
Proof. unfold record_sane. apply _. Defined.

#[global] Instance manager_sane_dec (m : VisitManager) : Decision (manager_sane m).
Proof. unfold manager_sane. apply _. Defined.

#[global] Instance ids_unique_dec (m : VisitManager) : Decision (ids_unique m).
Proof. unfold ids_unique. apply _. Defined.

#[global] Instance earlier_dec (a b : timespec) : Decision (earlier a b).
Proof. unfold earlier. apply _. Defined.

(** ** How the program may change the world *)

(** [w'] is a world that code which writes no file but [written] may
    leave behind [w]: allocations and clock readings have been consumed,
    the file [written], if any, may have been replaced. *)
Definition evolves (written : option string) (w w' : World) : Prop :=
  (∃ k, heap w' = drop k (heap w))
  ∧ (∃ t, clock w' = drop t (clock w))
  ∧ locked w' = locked w
  ∧ junk w' = junk w
  ∧ ∀ q, Some q ≠ written → disk w' q = disk w q.

(** Every run of [c] that returns leaves such a world. *)
Definition frames {A} (written : option string) (c : M A) : Prop :=
  ∀ w a w', c w = Done a w' → evolves written w w'.

(** [w1] is [w] after [k] allocations and [t] clock readings, the files
    as they were. *)
Definition after (k t : nat) (w w1 : World) : Prop :=
  heap w1 = drop k (heap w) ∧ clock w1 = drop t (clock w)
  ∧ disk w1 = disk w ∧ locked w1 = locked w ∧ junk w1 = junk w.

(** ** More worlds for the examples *)

(** The file of [loaded_world] followed by three stray bytes. *)
Definition padded_world : World :=
  {| heap := heap demo_world; clock := clock demo_world;
     disk := fun q => if String.eqb q "visit_test.dat"
                      then Some (file_image 100 demo_content ++ [x01; x02; x03]) else None;
     locked := fun _ => false; junk := fun _ => 0; libc_qsort := glibc_qsort |}.

(** A world whose file ends inside its header, and whose free memory was
    used before. *)
Definition short_file_world : World :=
  {| heap := heap demo_world; clock := clock demo_world;
     disk := fun q => if String.eqb q "visit_test.dat"
                      then Some (le_bytes 8 5 ++ [x01]) else None;
     locked := fun _ => false;
     junk := fun _ => 93824992236880; libc_qsort := glibc_qsort |}.



(** ** The visits of a user in the order of their timestamps *)

(** Every visit of the list is strictly earlier than the ones after it. *)
Fixpoint in_time_order (h : list slot) : Prop :=
  match h with
  | [] => True
  | a :: rest =>
      Forall (fun b => earlier (time (visit a)) (time (visit b))) rest ∧ in_time_order rest
  end.

(** The last [k] elements of a list. *)
Definition newest (k : Z) (h : list slot) : list slot :=
  drop (length h - Z.to_nat k) h.

#[global] Instance in_time_order_dec (h : list slot) : Decision (in_time_order h).
Proof. induction h as [|a rest IH]; simpl; apply _. Defined.

(** A manager whose only record holds its three visits oldest first. *)
Definition tidy_user : UserVisits :=
  {| user_id := 1; visits_at := 4224; visits := [visit_101; visit_103; visit_102];
     capacity := 3 |}.

Definition tidy_manager : VisitManager :=
  {| users_at := 4128; users := [tidy_user]; user_capacity := 10;
     max_visits := 3; path := "visit_test.dat" |}.

(** * The Go wrapper (cffi.go)

    The package cffi wraps the C interface for Go programs. Its functions
    are embedded in the same monad: they run in the same world, and a
    call into C that is undefined makes the Go call undefined. Two things
    are Go's own. The Go runtime stops the program (a fatal error, a
    panic) where the C code would go on: that is the outcome [Panics].
    And Go strings carry their length: they are lists of bytes, and only
    C.CString and C.GoString turn them into C strings and back. *)

(** VisitManagerFree releases every block of the manager; releasing
    memory leaves no trace in the embedding. *)
Definition VisitManagerFree (manager : option VisitManager) : M unit := ret tt.

(** The characters of a Go string that a C function sees when it is
    handed the copy made by C.CString: those before the first zero. *)
Fixpoint until_nul (s : string) : string :=
  match s with
  | EmptyString => EmptyString
  | String c s' => if Ascii.eqb c Ascii.zero then EmptyString else String c (until_nul s')
  end.

(** time.Time, as the two arguments of the call of time.Unix that makes
    it. *)
Module time.

Record Time := Unix { sec : Z; nsec : Z }.

End time.

Module cffi.

(** The C structure behind the pointer of the wrapper. *)
Abbreviation C_VisitManager := VisitManager (only parsing).

(** A Go call comes back with its results, or the runtime stops the
    program. *)
Inductive go (A : Type) : Type :=
| Returns (a : A)
| Panics.
Arguments Returns {A} a.
Arguments Panics {A}.

Record Visit := {
  VisitID : Z;
  URL : list byte;
  Text : list byte;
  Time : time.Time
}.

(** [ptr] is nil after Close. *)
Record VisitManager := { ptr : option C_VisitManager }.


(** C.GoString: the bytes before the terminator. *)
Definition GoString (buf : list byte) : M (list byte) :=
  match strlen buf with
  | None => undefined
  | Some n => ret (take n buf)
  end.

(** NewVisitManager: the results are the manager and the error; the size
    is converted from Go's int to size_t. *)
Definition NewVisitManager (file : string) (maxVisitsPerUser : Z)
  : M (go (option VisitManager * option string)) :=
  cFile <- malloc (Z.of_nat (String.length file) + 1) ;;
  if cFile =? 0 then ret Panics
  else
    created <- VisitManagerCreate (until_nul file) (wrap64 maxVisitsPerUser) ;;
    ret (Returns
           match created with
           | None => (None, Some "failed to create VisitManager"%string)
           | Some m => (Some {| ptr := Some m |}, None)
           end).

Definition Close (vm : VisitManager) : M VisitManager :=
  match ptr vm with
  | Some m => _ <- VisitManagerFree (Some m) ;; ret {| ptr := None |}
  | None => ret vm
  end.


(** The loop over the slice of *C.Visit: one Go Visit for each. *)
Fixpoint convert (vs : list slot) : M (list Visit) :=
  match vs with
  | [] => ret []
  | s :: rest =>
      u <- GoString (url (visit s)) ;;
      t <- GoString (text (visit s)) ;;
      converted <- convert rest ;;
      ret ({| VisitID := visit_id (visit s); URL := u; Text := t;
              Time := time.Unix (tv_sec (time (visit s))) (tv_nsec (time (visit s))) |}
           :: converted)
  end.

(** GetRecentVisits: the results (the slice, nil being the empty list,
    and the error) and the manager. [count] is zero unless the C function
    stores into it; the slice expression over an array of 2^30 pointers
    panics beyond that length. *)
Definition GetRecentVisits (vm : VisitManager) (userID : Z)
  : M (go (list Visit * option string) * VisitManager) :=
  r <- VisitManagerGetRecentVisits (ptr vm) userID true ;;
  let vm' := {| ptr := r.2 |} in
  let count := default 0 (stored_count r.1) in
  if (returned r.1 =? 0) || (count =? 0) then ret (Returns ([], None), vm')
  else if 2 ^ 30 <? count then ret (Panics, vm')
  else
    visits <- convert (visits_of r.2 userID) ;;
    ret (Returns (visits, None), vm').

Definition DeleteVisits (vm : VisitManager) (userID : Z) (visitIDs : list Z)
  : M (bool * VisitManager) :=
  match visitIDs with
  | [] => ret (true, vm)
  | _ :: _ =>
      r <- VisitManagerDelete (ptr vm) userID (Some visitIDs) ;;
      ret (r.1, {| ptr := r.2 |})
  end.


End cffi.


(** * Properties *)

(** ** Basic facts *)

Lemma bind_Done {A B} (c : M A) (k : A → M B) (w w' : World) (b : B) :
  bind c k w = Done b w' ↔ ∃ a w1, c w = Done a w1 ∧ k a w1 = Done b w'.
Proof.
  unfold bind. destruct (c w) as [a w1|]; split.
  - intros H. by exists a, w1.
  - by intros (? & ? & [= <- <-] & ?).
  - done.
  - by intros (? & ? & ? & _).
Qed.

Lemma ret_Done {A} (a b : A) (w w' : World) : ret a w = Done b w' ↔ a = b ∧ w = w'.
Proof. unfold ret. split; [by intros [= <- <-] | by intros [<- <-]]. Qed.

Lemma set_visits_same (u : UserVisits) : set_visits u (visits u) = u.
Proof. by destruct u. Qed.

Lemma set_users_same (m : VisitManager) : set_users m (users m) = m.
Proof. by destruct m. Qed.

Lemma find_user_lookup (m : VisitManager) (uid : Z) (i : nat) (u : UserVisits) :
  find_user m uid = Some (i, u) → users m !! i = Some u ∧ user_id u = uid.
Proof. unfold find_user. rewrite list_find_Some. by intros (? & ? & _). Qed.

Lemma find_user_insert (m : VisitManager) (uid : Z) (i : nat) (u u' : UserVisits) :
  find_user m uid = Some (i, u) → user_id u' = uid →
  find_user (set_users m (<[i := u']> (users m))) uid = Some (i, u').
Proof.
  unfold find_user. rewrite !list_find_Some. simpl.
  intros (Hi & Hid & Hbefore) Hid'. split_and!.
  - apply list_lookup_insert_eq. by eapply lookup_lt_Some.
  - done.
  - intros j y Hj Hlt. rewrite list_lookup_insert_ne in Hj by lia. eauto.
Qed.

Lemma has_visit_true (vid : Z) (vs : list slot) :
  has_visit vid vs = true ↔ ∃ s, s ∈ vs ∧ visit_id (visit s) = vid.
Proof.
  unfold has_visit. rewrite bool_decide_eq_true. split.
  - intros [[j s] H]. apply list_find_Some in H as (H & ? & _).
    exists s. split; [by eapply list_elem_of_lookup_2 | done].
  - intros (s & Hin & Hid). by eapply list_find_elem_of.
Qed.

Lemma has_visit_false (vid : Z) (vs : list slot) :
  has_visit vid vs = false ↔ ∀ s, s ∈ vs → visit_id (visit s) ≠ vid.
Proof.
  rewrite <- not_true_iff_false, has_visit_true. split.
  - intros H s Hin Hid. apply H. eauto.
  - intros H (s & Hin & Hid). by eapply H.
Qed.

Lemma written_terminated (buf : list byte) : terminated buf → is_Some (written buf).
Proof. intros [n Hn]. unfold written. rewrite Hn. by eexists. Qed.

Lemma manager_bytes_defined (m : VisitManager) :
  strings_terminated m → is_Some (manager_bytes m).
Proof.
  intros Hm. unfold manager_bytes.
  assert (is_Some (mapM written_user (users m))) as [us Hus].
  { apply mapM_is_Some. eapply Forall_impl; [exact Hm |].
    intros u Hu. simpl. unfold written_user.
    assert (is_Some (mapM (fun s => written_visit (visit s)) (visits u))) as [vs Hvs].
    { apply mapM_is_Some. eapply Forall_impl; [exact Hu |].
      intros s [Hurl Htext]. simpl. unfold written_visit.
      destruct (written_terminated _ Hurl) as [a ->].
      destruct (written_terminated _ Htext) as [b ->]. by eexists. }
    rewrite Hvs. by eexists. }
  rewrite Hus. by eexists.
Qed.

Lemma serialize_manager_done (m : VisitManager) (w : World) :
  strings_terminated m → ∃ w', serialize_manager m w = Done tt w'.
Proof.
  intros Hm. unfold serialize_manager.
  destruct (locked w (path m)) eqn:Hl; [by eexists |].
  destruct (manager_bytes_defined m Hm) as [bs ->].
  unfold write_file. rewrite Hl. by eexists.
Qed.

Lemma strings_terminated_insert (m : VisitManager) (i : nat) (u : UserVisits) :
  strings_terminated m → Forall visit_terminated (visits u) →
  strings_terminated (set_users m (<[i := u]> (users m))).
Proof. intros Hm Hu. unfold strings_terminated. simpl. by apply Forall_insert. Qed.

(** ** The representation invariant *)

Lemma block_slots_exact (n : Z) : 0 ≤ n → n * 8 < 2 ^ 64 → block_slots n = n.
Proof.
  intros H0 H1. unfold block_slots, wrap64.
  rewrite Z.mod_small by lia. by rewrite Z.div_mul.
Qed.

Lemma Z_of_byte_nonneg (b : byte) : 0 ≤ Z_of_byte b.
Proof. unfold Z_of_byte. lia. Qed.

Lemma le_value_nonneg (bs : list byte) : 0 ≤ le_value bs.
Proof.
  induction bs as [|b bs IH]; simpl; [done|].
  pose proof (Z_of_byte_nonneg b). lia.
Qed.

Lemma block_slots_nonneg (n : Z) : 0 ≤ block_slots n.
Proof.
  unfold block_slots, wrap64. apply Z.div_pos; [|lia].
  apply Z.mod_pos_bound. lia.
Qed.

Lemma block_slots_le (n : Z) : 0 ≤ n → block_slots n ≤ n.
Proof.
  intros Hn. unfold block_slots, wrap64.
  assert ((n * 8) `mod` 2 ^ 64 ≤ n * 8) by (apply Z.mod_le; lia).
  apply Z.div_le_upper_bound; lia.
Qed.

Lemma record_ok_fits (max : Z) (u : UserVisits) :
  record_ok max u → visit_count u ≤ capacity u.
Proof. intros (_ & Hc & _ & Hb). pose proof (block_slots_le _ Hc). lia. Qed.

Lemma record_ok_shrink (max : Z) (u : UserVisits) (vs : list slot) :
  0 ≤ max → record_ok max u → (length vs ≤ length (visits u))%nat →
  record_ok max (set_visits u vs).
Proof.
  intros Hmax (Hat & Hcap & Hcount & Hblock) Hlen.
  unfold record_ok, visit_count in *. simpl. split_and!; try done; lia.
Qed.

Lemma manager_ok_insert (max : Z) (m : VisitManager) (i : nat) (u : UserVisits) :
  manager_ok max m → record_ok max u →
  manager_ok max (set_users m (<[i := u]> (users m))).
Proof. intros [Hmax Hall] Hu. split; [done|]. simpl. by apply Forall_insert. Qed.

Lemma manager_ok_lookup (max : Z) (m : VisitManager) (i : nat) (u : UserVisits) :
  manager_ok max m → users m !! i = Some u → record_ok max u.
Proof. intros [_ Hall] Hu. rewrite Forall_lookup in Hall. eauto. Qed.

Lemma manager_ok_consequences (m : VisitManager) :
  manager_ok (max_visits m) m → arrays_allocated m ∧ records_fit m ∧ within_bound m.
Proof.
  intros [_ Hall]. unfold arrays_allocated, records_fit, within_bound.
  split_and!; (eapply Forall_impl; [exact Hall|]); intros u Hu.
  - by destruct Hu as (? & _).
  - by eapply record_ok_fits.
  - by destruct Hu as (_ & _ & ? & _).
Qed.

(** ** Duplicate submissions *)

(** C6. A second add of a visit id the user already holds returns true and
    changes nothing: the manager (hence the count and the stored URL, text
    and timestamp of that visit) and the world (no allocation, no write)
    are the ones before the call, whatever the new URL and text are. *)
Theorem C6_duplicate_add_is_noop (m : VisitManager) (uid vid : Z) (i : nat)
    (user : UserVisits) (j : nat) (s : slot) (url' text' : list byte) (w : World) :
  find_user m uid = Some (i, user) →
  visits user !! j = Some s →
  visit_id (visit s) = vid →
  VisitManagerAddVisit (Some m) uid vid (Some url') (Some text') w
  = Done (true, Some m) w.
Proof.
  intros Hfind Hin Hid.
  destruct (find_user_lookup _ _ _ _ Hfind) as [Hlook _].
  assert (has_visit vid (visits user) = true) as Hdup.
  { apply has_visit_true. exists s. split; [by eapply list_elem_of_lookup_2 | done]. }
  unfold VisitManagerAddVisit, add_visit, add_to_user, find_or_create_user, bind, ret.
  rewrite Hfind. simpl. rewrite Hlook, Hdup. done.
Qed.

Lemma C6_duplicate_add_witness :
  VisitManagerAddVisit (Some demo_manager) 1 102
    (Some (c_string "https://other.example")) (Some (c_string "Other")) demo_world
  = Done (true, Some demo_manager) demo_world.
Proof.
  apply (C6_duplicate_add_is_noop demo_manager 1 102 0%nat demo_user 1%nat visit_102);
    reflexivity.
Defined.

(** ** Unknown users and empty records *)

(** There is no tree for an empty array but the one that returns. *)
Lemma sorter_of_none (s : sorter 0) : s = Return.
Proof. destruct s as [|i|i]; [done | inversion i | inversion i]. Qed.

Lemma qsort_nil (base slots : Z) (compar : (Z → option Z) → Z → Z → option Z) (w : World) :
  qsort base slots [] compar w = Done [] w.
Proof. unfold qsort. simpl. by rewrite (sorter_of_none (libc_qsort w 0%nat)). Qed.

Lemma get_recent_unknown (m : VisitManager) (uid : Z) (w : World) :
  find_user m uid = None →
  VisitManagerGetRecentVisits (Some m) uid true w
  = Done ({| returned := 0; stored_count := Some 0 |}, Some m) w.
Proof. intros H. unfold VisitManagerGetRecentVisits. by rewrite H. Qed.

Lemma get_recent_empty (m : VisitManager) (uid : Z) (i : nat) (user : UserVisits)
    (w : World) :
  find_user m uid = Some (i, user) → visits user = [] →
  VisitManagerGetRecentVisits (Some m) uid true w
  = Done ({| returned := visits_at user; stored_count := Some 0 |}, Some m) w.
Proof.
  intros Hfind Hempty.
  destruct (find_user_lookup _ _ _ _ Hfind) as [Hlook _].
  unfold VisitManagerGetRecentVisits, sort_visits, bind, ret.
  rewrite Hfind, Hempty, qsort_nil. simpl.
  replace (set_visits user []) with user
    by (destruct user; simpl in *; by subst).
  rewrite list_insert_id by done. rewrite set_users_same.
  unfold visit_count. by rewrite Hempty.
Qed.

(** C10. An unknown user and a known user without visits are told apart
    by the returned pointer: NULL with count 0 for the first, the record's
    (non-null) array with count 0 for the second. VisitManagerClear keeps
    the record of a known user, emptied, at its place, so that after it
    the user is answered as a known one. *)
Theorem C10_unknown_and_empty_differ (m : VisitManager) (uid : Z) (w : World) :
  strings_terminated m →
  arrays_allocated m →
  (find_user m uid = None →
   VisitManagerGetRecentVisits (Some m) uid true w
   = Done ({| returned := 0; stored_count := Some 0 |}, Some m) w)
  ∧ (∀ i user, find_user m uid = Some (i, user) → visits user = [] →
     ∃ p, p ≠ 0 ∧
       VisitManagerGetRecentVisits (Some m) uid true w
       = Done ({| returned := p; stored_count := Some 0 |}, Some m) w)
  ∧ (∀ i user, find_user m uid = Some (i, user) →
     ∃ m' w',
       VisitManagerClear (Some m) uid w = Done (Some m') w'
       ∧ find_user m' uid = Some (i, set_visits user [])
       ∧ ∃ p, p ≠ 0 ∧
           VisitManagerGetRecentVisits (Some m') uid true w'
           = Done ({| returned := p; stored_count := Some 0 |}, Some m') w').
Proof.
  intros Hterm Halloc. split_and!.
  - apply get_recent_unknown.
  - intros i user Hfind Hempty.
    destruct (find_user_lookup _ _ _ _ Hfind) as [Hlook _].
    exists (visits_at user). split.
    + unfold arrays_allocated in Halloc. rewrite Forall_lookup in Halloc.
      exact (Halloc _ _ Hlook).
    + by apply (get_recent_empty m uid i user).
  - intros i user Hfind.
    destruct (find_user_lookup _ _ _ _ Hfind) as [Hlook Hid].
    set (m1 := set_users m (<[i := set_visits user []]> (users m))).
    assert (strings_terminated m1) as Hterm1.
    { apply strings_terminated_insert; [done | constructor]. }
    destruct (serialize_manager_done m1 w Hterm1) as [w' Hw'].
    assert (find_user m1 uid = Some (i, set_visits user [])) as Hfind1.
    { by apply (find_user_insert m uid i user). }
    exists m1, w'. split_and!.
    + unfold VisitManagerClear, bind, ret. rewrite Hfind. fold m1. by rewrite Hw'.
    + done.
    + exists (visits_at user). split.
      * unfold arrays_allocated in Halloc. rewrite Forall_lookup in Halloc.
        exact (Halloc _ _ Hlook).
      * by apply (get_recent_empty m1 uid i (set_visits user [])).
Qed.

Lemma C10_unknown_and_empty_witness :
  VisitManagerGetRecentVisits (Some demo_manager) 9 true demo_world
  = Done ({| returned := 0; stored_count := Some 0 |}, Some demo_manager) demo_world
  ∧ ∃ p, p ≠ 0 ∧
      VisitManagerGetRecentVisits (Some demo_manager) 2 true demo_world
      = Done ({| returned := p; stored_count := Some 0 |}, Some demo_manager) demo_world.
Proof.
  split.
  - destruct (C10_unknown_and_empty_differ demo_manager 9 demo_world) as (H & _ & _);
      [by_computation | by_computation | ].
    apply H. reflexivity.
  - destruct (C10_unknown_and_empty_differ demo_manager 2 demo_world) as (_ & H & _);
      [by_computation | by_computation | ].
    apply (H 1%nat empty_user); reflexivity.
Defined.

(** ** Swap-and-pop *)

Lemma swap_remove_snoc (j : nat) (l : list slot) (x : slot) :
  swap_remove j (l ++ [x]) = if decide (j < length l)%nat then <[j := x]> l else l.
Proof.
  unfold swap_remove. rewrite length_app. simpl.
  replace (length l + 1 - 1)%nat with (length l) by lia.
  rewrite lookup_app_r by lia. rewrite Nat.sub_diag. simpl.
  destruct (decide (j < length l)%nat).
  - rewrite insert_app_l by lia. rewrite take_app_length'; [done|]. by rewrite length_insert.
  - by rewrite take_app_length.
Qed.

Lemma swap_remove_perm (j : nat) (vs : list slot) :
  (j < length vs)%nat → swap_remove j vs ≡ₚ delete j vs.
Proof.
  destruct vs as [|y vs0] using rev_ind; [simpl; lia|]. clear IHvs0.
  rewrite length_app. simpl. intros Hj. rewrite swap_remove_snoc.
  destruct (decide (j < length vs0)%nat) as [Hlt|Hge].
  - destruct (lookup_lt_is_Some_2 vs0 j Hlt) as [z Hz].
    rewrite delete_take_drop.
    rewrite <- (take_drop_middle vs0 j z Hz) at 1.
    rewrite insert_app_r_alt; rewrite length_take; [|lia].
    replace (j - j `min` length vs0)%nat with 0%nat by lia. simpl.
    rewrite take_app_le by lia.
    rewrite drop_app_le by lia.
    rewrite app_assoc. rewrite <- Permutation_middle. 
    by rewrite Permutation_cons_append.
  - assert (j = length vs0) as -> by lia.
    rewrite delete_take_drop. rewrite take_app_length. 
    rewrite drop_app_ge by lia. replace (S (length vs0) - length vs0)%nat with 1%nat by lia.
    simpl. by rewrite app_nil_r.
Qed.

(** ** Deleting a batch of ids *)

Lemma delete_ids_cons (id : Z) (ids : list Z) (vs : list slot) (b : bool) :
  foldl (fun st id => delete_one id st) (vs, b) (id :: ids)
  = foldl (fun st id => delete_one id st) (delete_one id (vs, b)) ids.
Proof. reflexivity. Qed.

Lemma delete_one_miss (id : Z) (vs : list slot) (b : bool) :
  (∀ s, s ∈ vs → visit_id (visit s) ≠ id) → delete_one id (vs, b) = (vs, b).
Proof.
  intros H. unfold delete_one. simpl.
  destruct (list_find _ vs) as [[j s]|] eqn:Hf; [|done].
  apply list_find_Some in Hf as (Hl & Hid & _).
  destruct (H s); [by eapply list_elem_of_lookup_2 | done].
Qed.

Lemma delete_one_hit (id : Z) (vs : list slot) (b : bool) (s : slot) :
  s ∈ vs → visit_id (visit s) = id →
  ∃ j s', vs !! j = Some s' ∧ visit_id (visit s') = id
          ∧ delete_one id (vs, b) = (swap_remove j vs, true).
Proof.
  intros Hin Hid. unfold delete_one. simpl.
  destruct (list_find_elem_of (fun s => visit_id (visit s) = id) vs s Hin Hid)
    as [[j s'] Hf].
  rewrite Hf. apply list_find_Some in Hf as (Hl & Hid' & _). eauto.
Qed.

Lemma foldl_delete_flag (ids : list Z) (vs : list slot) :
  (foldl (fun st id => delete_one id st) (vs, true) ids).2 = true.
Proof.
  revert vs. induction ids as [|id ids IH]; intros vs; [done|].
  rewrite delete_ids_cons. unfold delete_one at 2. simpl.
  destruct (list_find _ vs) as [[j s]|]; apply IH.
Qed.

Lemma delete_ids_found (ids : list Z) (vs : list slot) :
  (delete_ids ids vs).2 = true
  ↔ ∃ id s, id ∈ ids ∧ s ∈ vs ∧ visit_id (visit s) = id.
Proof.
  unfold delete_ids. induction ids as [|id ids IH].
  - simpl. split; [done|]. intros (id & s & Hin & _). by apply elem_of_nil in Hin.
  - rewrite delete_ids_cons.
    destruct (has_visit id vs) eqn:Hhas.
    + apply has_visit_true in Hhas as (s & Hin & Hid).
      destruct (delete_one_hit id vs false s Hin Hid) as (j & s' & _ & _ & ->).
      rewrite foldl_delete_flag. split; [|done]. intros _.
      exists id, s. split_and!; [left | done | done].
    + rewrite has_visit_false in Hhas.
      rewrite delete_one_miss by done.
      rewrite IH. split.
      * intros (id' & s & Hin & Hs & Hid). exists id', s. split_and!; [by right|done|done].
      * intros (id' & s & Hin & Hs & Hid). apply elem_of_cons in Hin as [->|Hin].
        -- by destruct (Hhas s Hs).
        -- eauto.
Qed.

Lemma delete_ids_not_found (ids : list Z) (vs : list slot) :
  (delete_ids ids vs).2 = false → (delete_ids ids vs).1 = vs.
Proof.
  unfold delete_ids. induction ids as [|id ids IH]; [done|].
  rewrite delete_ids_cons. unfold delete_one at 2 4. simpl.
  destruct (list_find _ vs) as [[j s]|]; [|done].
  by rewrite foldl_delete_flag.
Qed.

Lemma filter_all {A} (P : A → Prop) `{∀ x, Decision (P x)} (l : list A) :
  Forall P l → filter P l = l.
Proof.
  induction 1 as [|x l Hx Hl IH]; [done|].
  rewrite filter_cons_True by done. by rewrite IH.
Qed.

Lemma delete_is_filter (vs : list slot) (j : nat) (s : slot) :
  NoDup (ids_of vs) → vs !! j = Some s →
  delete j vs = filter (fun s' => visit_id (visit s') ≠ visit_id (visit s)) vs.
Proof.
  revert j. induction vs as [|x vs IH]; intros j Hnd Hj; [done|].
  unfold ids_of in Hnd. rewrite fmap_cons in Hnd. apply NoDup_cons in Hnd as [Hx Hnd].
  destruct j as [|j]; simpl in Hj.
  - injection Hj as ->. rewrite filter_cons_False by (intros H; by apply H).
    simpl. symmetry. apply filter_all. apply Forall_forall. intros y Hy Heq.
    apply Hx. rewrite <- Heq. apply list_elem_of_fmap. by exists y.
  - rewrite filter_cons_True.
    + simpl. f_equal. by apply IH.
    + intros Heq. apply Hx. rewrite Heq. apply list_elem_of_fmap. exists s.
      split; [done | by eapply list_elem_of_lookup_2].
Qed.

Lemma delete_ids_perm (ids : list Z) (vs : list slot) (b : bool) :
  NoDup (ids_of vs) →
  (foldl (fun st id => delete_one id st) (vs, b) ids).1
  ≡ₚ filter (fun s => visit_id (visit s) ∉ ids) vs.
Proof.
  revert vs b. induction ids as [|id ids IH]; intros vs b Hnd.
  - simpl. rewrite filter_all; [done|]. apply Forall_forall. intros s _. apply not_elem_of_nil.
  - rewrite delete_ids_cons. destruct (has_visit id vs) eqn:Hhas.
    + apply has_visit_true in Hhas as (s & Hin & Hid).
      destruct (delete_one_hit id vs b s Hin Hid) as (j & s' & Hj & Hid' & ->).
      assert (swap_remove j vs ≡ₚ delete j vs) as Hp.
      { apply swap_remove_perm. by eapply lookup_lt_Some. }
      assert (NoDup (ids_of (swap_remove j vs))) as Hnd'.
      { unfold ids_of. rewrite Hp.
        unfold ids_of in Hnd. rewrite (delete_Permutation vs j s' Hj) in Hnd.
        rewrite fmap_cons in Hnd. by apply NoDup_cons in Hnd as [_ ?]. }
      rewrite (IH _ true Hnd'). rewrite Hp.
      rewrite (delete_is_filter vs j s' Hnd Hj). rewrite list_filter_filter.
      erewrite list_filter_iff; [done|]. intros x. simpl. rewrite Hid'.
      rewrite not_elem_of_cons. tauto.
    + rewrite has_visit_false in Hhas. rewrite delete_one_miss by done.
      rewrite (IH _ b Hnd). 
      rewrite <- (filter_all (fun s => visit_id (visit s) ≠ id) vs) at 1
        by (apply Forall_forall; intros s Hs; by apply Hhas).
      rewrite list_filter_filter.
      erewrite list_filter_iff; [done|]. intros x. simpl.
      rewrite not_elem_of_cons. tauto.
Qed.


Lemma delete_one_subset (id : Z) (st : list slot * bool) :
  (delete_one id st).1 ⊆ st.1.
Proof.
  unfold delete_one. destruct (list_find _ st.1) as [[j s]|] eqn:Hf; [|done].
  apply list_find_Some in Hf as (Hl & _ & _). simpl.
  rewrite (swap_remove_perm j st.1) by (by eapply lookup_lt_Some).
  intros x Hx. rewrite (delete_Permutation _ _ _ Hl). by right.
Qed.

Lemma delete_ids_subset (ids : list Z) (vs : list slot) :
  (delete_ids ids vs).1 ⊆ vs.
Proof.
  unfold delete_ids. generalize false. revert vs.
  induction ids as [|id ids IH]; intros vs b; [done|].
  rewrite delete_ids_cons.
  destruct (delete_one id (vs, b)) as [vs1 b1] eqn:H1.
  etrans; [apply IH|].
  change vs1 with (vs1, b1).1. rewrite <- H1. apply (delete_one_subset id (vs, b)).
Qed.

Lemma delete_outcome (manager : option VisitManager) (uid : Z)
    (visitIds : option (list Z)) (w : World) :
  (∀ m, manager = Some m → strings_terminated m) →
  ∃ b manager' w',
    VisitManagerDelete manager uid visitIds w = Done (b, manager') w'
    ∧ match manager, visitIds with
      | Some m, Some (id :: ids) =>
          match find_user m uid with
          | Some (i, user) =>
              let r := delete_ids (id :: ids) (visits user) in
              b = r.2
              ∧ manager' = Some (set_users m (<[i := set_visits user r.1]> (users m)))
              ∧ (b = false → w' = w)
          | None => b = false ∧ manager' = manager ∧ w' = w
          end
      | _, _ => b = false ∧ manager' = manager ∧ w' = w
      end.
Proof.
  intros Hterm. unfold VisitManagerDelete.
  destruct manager as [m|]; [|by eexists _, _, _].
  destruct visitIds as [[|id ids]|]; [by eexists _, _, _ | | by eexists _, _, _].
  destruct (find_user m uid) as [[i user]|] eqn:Hfind; [|by eexists _, _, _].
  destruct (find_user_lookup _ _ _ _ Hfind) as [Hlook Hid].
  simpl. set (r := delete_ids (id :: ids) (visits user)).
  set (m1 := set_users m (<[i := set_visits user r.1]> (users m))).
  destruct r.2 eqn:Hflag; [|by eexists _, _, _].
  assert (strings_terminated m1) as Hterm1.
  { apply strings_terminated_insert; [by apply Hterm|]. simpl.
    specialize (Hterm m eq_refl). unfold strings_terminated in Hterm.
    rewrite Forall_lookup in Hterm. specialize (Hterm _ _ Hlook).
    rewrite Forall_forall in Hterm. apply Forall_forall. intros s Hs.
    apply Hterm. by apply (delete_ids_subset (id :: ids)). }
  destruct (serialize_manager_done m1 w Hterm1) as [w' Hw'].
  exists true, (Some m1), w'. unfold bind, ret. rewrite Hw'. done.
Qed.

(** X24. VisitManagerDelete returns true exactly when the manager and the
    id list are present, the list is not empty, the user has a record and
    one of the requested ids is the id of a stored visit. A false return
    leaves the manager and the world as they were. On a true return, in a
    record whose visit ids are pairwise distinct, the visits kept are the
    ones whose id was not requested, each as it was; the other records are
    not touched. *)
Theorem X24_delete_correct_for_distinct_ids (manager : option VisitManager) (uid : Z)
    (visitIds : option (list Z)) (w : World) :
  (∀ m, manager = Some m → strings_terminated m) →
  ∃ b manager' w',
    VisitManagerDelete manager uid visitIds w = Done (b, manager') w'
    ∧ (b = true ↔
       ∃ m ids i user id s,
         manager = Some m ∧ visitIds = Some ids ∧ ids ≠ []
         ∧ find_user m uid = Some (i, user)
         ∧ id ∈ ids ∧ s ∈ visits user ∧ visit_id (visit s) = id)
    ∧ (b = false → manager' = manager ∧ w' = w)
    ∧ (b = true →
       ∃ m ids i user vs',
         manager = Some m ∧ visitIds = Some ids
         ∧ find_user m uid = Some (i, user)
         ∧ manager' = Some (set_users m (<[i := set_visits user vs']> (users m)))
         ∧ (NoDup (ids_of (visits user)) →
            vs' ≡ₚ filter (fun s => visit_id (visit s) ∉ ids) (visits user))).
Proof.
  intros Hterm.
  destruct (delete_outcome manager uid visitIds w Hterm)
    as (b & manager' & w' & Hrun & Hcase).
  exists b, manager', w'. split; [done|].
  destruct manager as [m|];
    [|destruct Hcase as (-> & -> & ->); split_and!; try done;
      split; [done | by intros (? & ? & ? & ? & ? & ? & ? & _)]].
  destruct visitIds as [[|id0 ids0]|];
    [destruct Hcase as (-> & -> & ->); split_and!; try done;
     split; [done | intros (? & ? & ? & ? & ? & ? & _ & [= <-] & Hne & _); by destruct Hne]
    | | destruct Hcase as (-> & -> & ->); split_and!; try done;
        split; [done | by intros (? & ? & ? & ? & ? & ? & _ & ? & _)]].
  destruct (find_user m uid) as [[i user]|] eqn:Hfind;
    [| destruct Hcase as (-> & -> & ->); split_and!; try done;
       split; [done | intros (? & ? & ? & ? & ? & ? & [= <-] & _ & _ & Hf & _); congruence]].
  destruct (find_user_lookup _ _ _ _ Hfind) as [Hlook Hid].
  simpl in Hcase. destruct Hcase as (Hb & -> & Hw).
  split_and!.
  - rewrite Hb, delete_ids_found. split.
    + intros (id & s & H1 & H2 & H3).
      exists m, (id0 :: ids0), i, user, id, s. by split_and!.
    + intros (m0 & ids1 & i0 & user0 & id & s & [= <-] & [= <-] & _ & Hf & H1 & H2 & H3).
      rewrite Hfind in Hf. injection Hf as <- <-. eauto.
  - intros Hfalse. split; [|by apply Hw].
    rewrite Hfalse in Hb. symmetry in Hb.
    rewrite (delete_ids_not_found _ _ Hb).
    rewrite set_visits_same, list_insert_id by done. by rewrite set_users_same.
  - intros _. exists m, (id0 :: ids0), i, user, (delete_ids (id0 :: ids0) (visits user)).1.
    split_and!; try done. intros Hnd. by apply delete_ids_perm.
Qed.

Lemma X24_delete_correct_for_distinct_ids_witness :
  ∃ manager' w',
    VisitManagerDelete (Some demo_manager) 1 (Some [102; 999]) demo_world
    = Done (true, manager') w'.
Proof.
  destruct (X24_delete_correct_for_distinct_ids (Some demo_manager) 1 (Some [102; 999])
              demo_world)
    as (b & manager' & w' & Hrun & Hiff & _).
  { intros m [= <-]. by_computation. }
  exists manager', w'. rewrite Hrun. do 2 f_equal. apply Hiff.
  exists demo_manager, [102; 999], 0%nat, demo_user, 102, visit_102.
  split_and!; try reflexivity; try done.
  - left.
  - right. left.
Defined.

(** C7, at a failing input. The file holds two visits of user 1 with the
    visit id 5, and the loader stores both. VisitManagerDelete with the
    list [5] returns true and removes the first of them only: the inner
    loop leaves at the first match, so that the visit moved into the
    freed position is not examined, and a visit with the requested id
    stays in the record. *)
Theorem C7_delete_leaves_a_requested_visit :
  ∃ m w1 m' w',
    VisitManagerCreate "visit_test.dat" 10 repeated_world = Done (Some m) w1
    ∧ visit <$> visits_of (Some m) 1 = [visit visit_5a; visit visit_5b]
    ∧ VisitManagerDelete (Some m) 1 (Some [5]) w1 = Done (true, Some m') w'
    ∧ visit <$> visits_of (Some m') 1 = [visit visit_5b].
Proof.
  eexists _, _, _, _. split; [vm_compute; reflexivity|].
  split; [reflexivity|]. split; [vm_compute; reflexivity | reflexivity].
Qed.

(** ** Eviction *)

Lemma older_false (t oldest_time : timespec) :
  older t oldest_time = false ↔ not_later oldest_time t.
Proof. unfold older, not_later. lia. Qed.

Lemma older_true (t oldest_time : timespec) :
  older t oldest_time = true ↔ ¬ not_later oldest_time t.
Proof. unfold older, not_later. lia. Qed.

Lemma not_later_trans (a b c : timespec) : not_later a b → not_later b c → not_later a c.
Proof. unfold not_later. lia. Qed.

Lemma not_later_refl (a : timespec) : not_later a a.
Proof. unfold not_later. lia. Qed.

(** The scan keeps the index of a slot that is not later than any slot
    seen so far. *)
Lemma oldest_from_spec (seen rest : list slot) (idx : nat) (victim : slot) :
  seen !! idx = Some victim →
  (∀ s, s ∈ seen → not_later (time (visit victim)) (time (visit s))) →
  ∃ j victim',
    oldest_from rest (length seen) idx (time (visit victim)) = j
    ∧ (seen ++ rest) !! j = Some victim'
    ∧ ∀ s, s ∈ seen ++ rest → not_later (time (visit victim')) (time (visit s)).
Proof.
  revert seen idx victim. induction rest as [|x rest IH]; intros seen idx victim Hidx Hmin.
  - exists idx, victim. rewrite app_nil_r. by split_and!.
  - simpl. replace (seen ++ x :: rest) with ((seen ++ [x]) ++ rest)
      by (by rewrite <- app_assoc).
    replace (S (length seen)) with (length (seen ++ [x]))
      by (rewrite length_app; simpl; lia).
    destruct (older (time (visit x)) (time (visit victim))) eqn:Hold.
    + apply (IH (seen ++ [x]) (length seen) x).
      * rewrite lookup_app_r by lia. by rewrite Nat.sub_diag.
      * intros s Hs. apply elem_of_app in Hs as [Hs|Hs].
        -- apply older_true in Hold. apply Hmin in Hs.
           unfold not_later in *. lia.
        -- apply list_elem_of_singleton in Hs as ->. apply not_later_refl.
    + apply (IH (seen ++ [x]) idx victim).
      * rewrite lookup_app_l; [done | by eapply lookup_lt_Some].
      * intros s Hs. apply elem_of_app in Hs as [Hs|Hs]; [by apply Hmin|].
        apply list_elem_of_singleton in Hs as ->. by apply older_false.
Qed.

Lemma make_room_evicts (max : Z) (vs : list slot) (w : World) :
  vs ≠ [] → max ≤ Z.of_nat (length vs) →
  ∃ j victim,
    make_room max vs w = Done (swap_remove j vs) w
    ∧ vs !! j = Some victim
    ∧ ∀ s, s ∈ vs → not_later (time (visit victim)) (time (visit s)).
Proof.
  intros Hne Hfull. unfold make_room.
  destruct (max <=? Z.of_nat (length vs)) eqn:Hle; [|lia].
  destruct vs as [|s0 rest]; [done|].
  destruct (oldest_from_spec [s0] rest 0 s0) as (j & victim & Hj & Hlook & Hmin).
  - done.
  - intros s Hs. apply list_elem_of_singleton in Hs as ->. apply not_later_refl.
  - exists j, victim. simpl in Hj. rewrite Hj. by split_and!.
Qed.

Lemma make_room_keeps (max : Z) (vs : list slot) (w : World) :
  Z.of_nat (length vs) < max → make_room max vs w = Done vs w.
Proof. intros H. unfold make_room. destruct (max <=? Z.of_nat (length vs)) eqn:Hle; [lia|done]. Qed.

Lemma swap_remove_length (j : nat) (vs : list slot) :
  length (swap_remove j vs) = (length vs - 1)%nat.
Proof.
  unfold swap_remove. rewrite length_take.
  destruct (decide (j < length vs - 1)%nat); [|lia].
  destruct (vs !! (length vs - 1)%nat); [rewrite length_insert|]; lia.
Qed.

(** *** Strings made by strdup *)

Lemma strlen_cons (b : byte) (buf : list byte) :
  strlen (b :: buf) = if Byte.eqb b x00 then Some O else S <$> strlen buf.
Proof. reflexivity. Qed.

Lemma strlen_bound (buf : list byte) (n : nat) : strlen buf = Some n → (n < length buf)%nat.
Proof.
  revert n. induction buf as [|b buf IH]; intros n; [done|].
  rewrite strlen_cons. destruct (Byte.eqb b x00); [intros [= <-]; simpl; lia|].
  destruct (strlen buf) as [k|]; [|done]. intros [= <-].
  specialize (IH k eq_refl). simpl. lia.
Qed.

Lemma strlen_take (buf : list byte) (n : nat) :
  strlen buf = Some n → strlen (take (S n) buf) = Some n.
Proof.
  revert n. induction buf as [|b buf IH]; intros n; [done|].
  rewrite strlen_cons. rewrite firstn_cons, strlen_cons.
  destruct (Byte.eqb b x00) eqn:Hb; [done|].
  destruct (strlen buf) as [k|] eqn:Hk; [|done]. intros [= <-].
  by rewrite (IH k eq_refl).
Qed.

Lemma strdup_terminated (s : list byte) (w w' : World) (buf : list byte) :
  strdup s w = Done (Some buf) w' → terminated buf.
Proof.
  unfold strdup. destruct (strlen s) as [n|] eqn:Hn; [|done].
  unfold bind, ret. destruct (malloc _ w) as [p w1|]; [|done].
  destruct (p =? 0); [done|]. intros [= <- _]. exists n. by apply strlen_take.
Qed.

Lemma create_visit_terminated (vid : Z) (u t : list byte) (w w' : World) (s : slot) :
  create_visit vid u t w = Done (Some s) w' →
  visit_terminated s ∧ visit_id (visit s) = vid.
Proof.
  unfold create_visit, bind, ret.
  destruct (malloc 40 w) as [p w1|]; [|done].
  destruct (p =? 0); [done|].
  destruct (strdup u w1) as [[ubuf|] w2|] eqn:Hu; [|done|done].
  destruct (strdup t w2) as [[tbuf|] w3|] eqn:Ht; [|done|done].
  destruct (timespec_get w3) as [now w4|]; [|done].
  intros [= <- _]. split; [|done]. split; simpl.
  - by eapply strdup_terminated.
  - by eapply strdup_terminated.
Qed.

Lemma swap_remove_lookup_other (j k : nat) (vs : list slot) :
  (k < length vs - 1)%nat → k ≠ j → swap_remove j vs !! k = vs !! k.
Proof.
  intros Hk Hne. unfold swap_remove. rewrite lookup_take_lt by done.
  destruct (decide (j < length vs - 1)%nat); [|done].
  destruct (vs !! (length vs - 1)%nat); [|done].
  by rewrite list_lookup_insert_ne.
Qed.

Lemma swap_remove_lookup_moved (j : nat) (vs : list slot) :
  (j < length vs - 1)%nat → swap_remove j vs !! j = vs !! (length vs - 1)%nat.
Proof.
  intros Hj. unfold swap_remove. rewrite lookup_take_lt by done.
  destruct (decide (j < length vs - 1)%nat); [|lia].
  destruct (vs !! (length vs - 1)%nat) as [x|] eqn:Hlast.
  - rewrite list_lookup_insert_eq; [done | lia].
  - apply lookup_ge_None in Hlast. lia.
Qed.

(** C2. An add to a record that holds at least [max_visits] visits (and
    is not empty, and fits the block of its array), for a visit id the
    record does not hold: the evicted visit is one whose timestamp no
    other visit of the record precedes in the order (seconds,
    nanoseconds); the last live slot takes its place unless it was the
    last itself, the other slots stay where they are, and the new visit
    goes to the end. The record then holds the old visits without the
    evicted one, and the new visit. *)
Theorem C2_eviction_removes_an_oldest (m : VisitManager) (uid vid : Z)
    (url_arg text_arg : list byte) (i : nat) (user : UserVisits)
    (new_visit : slot) (w w1 : World) :
  find_user m uid = Some (i, user) →
  visits user ≠ [] →
  max_visits m ≤ visit_count user →
  has_visit vid (visits user) = false →
  0 ≤ capacity user →
  visit_count user ≤ block_slots (capacity user) →
  strings_terminated m →
  create_visit vid url_arg text_arg w = Done (Some new_visit) w1 →
  let n := length (visits user) in
  ∃ j victim vs' m' w',
    VisitManagerAddVisit (Some m) uid vid (Some url_arg) (Some text_arg) w
    = Done (true, Some m') w'
    ∧ m' = set_users m (<[i := set_visits user vs']> (users m))
    ∧ visits user !! j = Some victim
    ∧ (∀ s, s ∈ visits user → not_later (time (visit victim)) (time (visit s)))
    ∧ length vs' = n
    ∧ (∀ k, (k < n - 1)%nat → k ≠ j → vs' !! k = visits user !! k)
    ∧ ((j < n - 1)%nat → vs' !! j = visits user !! (n - 1)%nat)
    ∧ vs' !! (n - 1)%nat = Some new_visit
    ∧ vs' ≡ₚ delete j (visits user) ++ [new_visit].
Proof.
  intros Hfind Hne Hfull Hfresh Hcap0 Hblock Hterm Hcreate n.
  destruct (find_user_lookup _ _ _ _ Hfind) as [Hlook Hid].
  pose proof (block_slots_le _ Hcap0) as Hcap.
  unfold visit_count in Hfull, Hblock.
  destruct (make_room_evicts (max_visits m) (visits user) w1 Hne Hfull)
    as (j & victim & Hroom & Hj & Hmin).
  assert (0 < n)%nat as Hn by (subst n; destruct (visits user); [done | simpl; lia]).
  assert (j < n)%nat as Hjn by (by eapply lookup_lt_Some).
  set (vs1 := swap_remove j (visits user)).
  assert (length vs1 = (n - 1)%nat) as Hlen1 by apply swap_remove_length.
  set (vs' := vs1 ++ [new_visit]).
  set (m' := set_users m (<[i := set_visits user vs']> (users m))).
  assert (strings_terminated m') as Hterm'.
  { apply strings_terminated_insert; [done|]. simpl. apply Forall_app. split.
    - unfold strings_terminated in Hterm. rewrite Forall_lookup in Hterm.
      specialize (Hterm _ _ Hlook). rewrite Forall_forall in Hterm.
      apply Forall_forall. intros s Hs. apply Hterm.
      unfold vs1 in Hs. rewrite (swap_remove_perm j (visits user) Hjn) in Hs.
      rewrite (delete_Permutation _ _ _ Hj). by right.
    - constructor; [|constructor]. by eapply create_visit_terminated. }
  destruct (serialize_manager_done m' w1 Hterm') as [w' Hw'].
  exists j, victim, vs', m', w'. split_and!; try done.
  - unfold VisitManagerAddVisit, add_visit, add_to_user, find_or_create_user, bind, ret.
    rewrite Hfind. simpl. rewrite Hlook, Hfresh, Hcreate, Hroom.
    unfold grow_visits, visit_count. simpl. fold vs1. rewrite Hlen1.
    destruct (capacity user <=? Z.of_nat (n - 1)) eqn:Hgrow;
      [apply Z.leb_le in Hgrow; subst n; lia|].
    unfold ret, store_visit, visit_count. simpl. rewrite Hlen1.
    destruct (Z.of_nat (n - 1) <? block_slots (capacity user)) eqn:Hfit;
      [|apply Z.ltb_ge in Hfit; subst n; lia].
    unfold bind.
    change (serialize_manager _ w1) with (serialize_manager m' w1).
    by rewrite Hw'.
  - unfold vs'. rewrite length_app, Hlen1. simpl. lia.
  - intros k Hk Hkj. unfold vs'. rewrite lookup_app_l by lia.
    by apply swap_remove_lookup_other.
  - intros Hlt. unfold vs'. rewrite lookup_app_l by lia.
    by apply swap_remove_lookup_moved.
  - unfold vs'. rewrite lookup_app_r by lia. by rewrite Hlen1, Nat.sub_diag.
  - unfold vs', vs1. by rewrite (swap_remove_perm j (visits user) Hjn).
Qed.

Lemma C2_eviction_witness :
  ∃ m' w',
    VisitManagerAddVisit (Some demo_manager) 1 104
      (Some (c_string "https://example.com/4")) (Some (c_string "Example 4")) demo_world
    = Done (true, Some m') w'.
Proof.
  pose proof (fun new_visit w1 =>
                C2_eviction_removes_an_oldest demo_manager 1 104
                  (c_string "https://example.com/4") (c_string "Example 4")
                  0%nat demo_user new_visit demo_world w1) as H.
  edestruct H as (j & victim & vs' & m' & w' & Hrun & _).
  - reflexivity.
  - discriminate.
  - vm_compute. discriminate.
  - reflexivity.
  - vm_compute. discriminate.
  - vm_compute. discriminate.
  - by_computation.
  - vm_compute. reflexivity.
  - exists m', w'. exact Hrun.
Defined.

(** On the example manager the oldest visit, 101, sits at index 0: the
    last slot, 103, takes its place and 104 goes to the end. *)
Example eviction_example :
  ∃ om w',
    VisitManagerAddVisit (Some demo_manager) 1 104
      (Some (c_string "https://example.com/4")) (Some (c_string "Example 4")) demo_world
    = Done (true, om) w'
    ∧ ids_of (visits_of om 1) = [103; 102; 104].
Proof. eexists _, _. split; [vm_compute; reflexivity | reflexivity]. Qed.

(** ** Failed allocations *)

Lemma create_user_spec (uid cap : Z) (w w' : World) (u : UserVisits) :
  create_user uid cap w = Done (Some u) w' →
  user_id u = uid ∧ visits u = [] ∧ capacity u = cap ∧ visits_at u ≠ 0.
Proof.
  unfold create_user, bind, ret.
  destruct (malloc 32 w) as [p w1|]; [|done].
  destruct (p =? 0); [done|].
  destruct (malloc _ w1) as [q w2|]; [|done].
  destruct (q =? 0) eqn:Hq; [done|]. intros [= <- _]. simpl.
  split_and!; try done. by apply Z.eqb_neq.
Qed.

(** What "find or create user entry" leaves behind. *)
Lemma find_or_create_user_spec (m m1 : VisitManager) (uid : Z) (oi : option nat)
    (w w1 : World) :
  find_or_create_user m uid w = Done (m1, oi) w1 →
  max_visits m1 = max_visits m ∧ path m1 = path m
  ∧ match oi with
    | None => users m1 = users m
    | Some i =>
        (∃ user, find_user m uid = Some (i, user) ∧ m1 = m ∧ w1 = w)
        ∨ (find_user m uid = None
           ∧ ∃ user, users m1 = users m ++ [user] ∧ i = length (users m)
                     ∧ user_id user = uid ∧ visits user = []
                     ∧ capacity user = max_visits m ∧ visits_at user ≠ 0)
    end.
Proof.
  unfold find_or_create_user.
  destruct (find_user m uid) as [[i user]|] eqn:Hfind.
  { intros [= <- <- <-]. split_and!; try done. left. by exists user. }
  unfold bind, ret.
  destruct (user_capacity m <=? user_count m).
  - destruct (malloc _ w) as [p w2|]; [|done].
    destruct (p =? 0).
    + by intros [= <- <- <-].
    + simpl. destruct (create_user uid (max_visits m) w2) as [[u|] w3|] eqn:Hu; [| |done].
      * destruct (_ <? _); [|done]. intros [= <- <- <-]. simpl. split_and!; try done.
        right. split; [done|]. exists u.
        destruct (create_user_spec _ _ _ _ _ Hu) as (? & ? & ? & ?). by split_and!.
      * by intros [= <- <- <-].
  - destruct (create_user uid (max_visits m) w) as [[u|] w3|] eqn:Hu; [| |done].
    + destruct (_ <? _); [|done]. intros [= <- <- <-]. simpl. split_and!; try done.
      right. split; [done|]. exists u.
      destruct (create_user_spec _ _ _ _ _ Hu) as (? & ? & ? & ?). by split_and!.
    + by intros [= <- <- <-].
Qed.

Lemma store_visit_true (m : VisitManager) (i : nat) (user : UserVisits) (s : slot)
    (w w' : World) (b : bool) (m' : VisitManager) :
  store_visit m i user s w = Done (b, m') w' →
  b = true ∧ m' = set_users m (<[i := set_visits user (visits user ++ [s])]> (users m)).
Proof.
  unfold store_visit. destruct (_ <? _); [|done].
  simpl. rewrite bind_Done. intros ([] & w1 & _ & H). by apply ret_Done in H as [[= <- <-] _].
Qed.

Lemma grow_visits_spec (max : Z) (user user' : UserVisits) (w w' : World) :
  grow_visits max user w = Done (Some user') w' →
  user_id user' = user_id user ∧ visits user' = visits user
  ∧ (user' = user
     ∨ capacity user ≤ visit_count user ∧ visits_at user' ≠ 0
       ∧ capacity user' = (if max <? wrap64 (capacity user * 2) then max
                           else wrap64 (capacity user * 2))).
Proof.
  unfold grow_visits. destruct (capacity user <=? visit_count user) eqn:Hle.
  - rewrite bind_Done. intros (p & w1 & _ & H).
    destruct (p =? 0) eqn:Hp; [done|]. apply ret_Done in H as [[= <-] _]. simpl.
    split_and!; try done. right. split_and!; try done; [lia | by apply Z.eqb_neq].
  - intros H. apply ret_Done in H as [[= <-] _]. split_and!; try done. by left.
Qed.

(** A false return of the part after the record is located leaves the
    manager as it is, provided the record fits its array. *)
Lemma add_to_user_false (m : VisitManager) (i : nat) (user : UserVisits) (vid : Z)
    (url_arg text_arg : list byte) (w w' : World) (m' : VisitManager) :
  users m !! i = Some user →
  visits user = [] ∨ visit_count user ≤ capacity user →
  add_to_user m i user vid url_arg text_arg w = Done (false, m') w' →
  m' = m.
Proof.
  intros Hlook Hfits. unfold add_to_user.
  destruct (has_visit vid (visits user)); [by intros [= ]|].
  rewrite bind_Done. intros ([new_visit|] & w1 & _ & H);
    [|by apply ret_Done in H as [[= ->] _]].
  apply bind_Done in H as (vs & w2 & Hroom & H).
  apply bind_Done in H as (grown & w3 & Hgrow & H).
  destruct grown as [user2|]; [by apply store_visit_true in H as [? _]|].
  apply ret_Done in H as [[= <-] _].
  unfold make_room in Hroom.
  destruct (max_visits m <=? Z.of_nat (length (visits user))) eqn:Hfull.
  - exfalso. destruct (visits user) as [|s0 rest] eqn:Hvs; [done|].
    destruct Hfits as [|Hfits]; [done|].
    apply ret_Done in Hroom as [<- <-]. revert Hgrow.
    unfold grow_visits, visit_count. cbn [visits set_visits capacity].
    rewrite swap_remove_length.
    unfold visit_count in Hfits. rewrite Hvs in Hfits.
    destruct (capacity user <=? _) eqn:Hle;
      [apply Z.leb_le in Hle; rewrite length_cons in Hle, Hfits; lia|].
    by intros [= ].
  - apply ret_Done in Hroom as [<- <-].
    by rewrite set_visits_same, list_insert_id, set_users_same.
Qed.

(** C8, as the code has it. When VisitManagerAddVisit returns false for a
    manager and strings that are present (an allocation failed), the
    capacity bound and the path are unchanged and no stored visit has
    changed: either the records are exactly the ones before the call, or
    the user was unknown and an empty record for it has been appended
    (its record was created before the allocation of the visit failed). *)
Theorem C8_failed_add_keeps_visits (m : VisitManager) (uid vid : Z)
    (url_arg text_arg : list byte) (w w' : World) (om' : option VisitManager) :
  records_fit m →
  VisitManagerAddVisit (Some m) uid vid (Some url_arg) (Some text_arg) w
  = Done (false, om') w' →
  ∃ m', om' = Some m'
    ∧ max_visits m' = max_visits m ∧ path m' = path m
    ∧ (users m' = users m
       ∨ (find_user m uid = None
          ∧ ∃ user, users m' = users m ++ [user]
                    ∧ user_id user = uid ∧ visits user = [])).
Proof.
  intros Hcap. unfold VisitManagerAddVisit. rewrite bind_Done.
  intros ([b m'] & w1 & Hadd & H). apply ret_Done in H as [[= -> <-] _].
  exists m'. split; [done|]. revert Hadd. unfold add_visit. rewrite bind_Done.
  intros ([m1 oi] & w2 & Hloc & H). simpl in H.
  destruct (find_or_create_user_spec _ _ _ _ _ _ Hloc) as (Hmax & Hpath & Hcase).
  destruct oi as [i|]; [|apply ret_Done in H as [[= <-] _]; split_and!; try done; by left].
  destruct (users m1 !! i) as [user|] eqn:Hlook; [|done].
  assert (m' = m1) as ->.
  { eapply add_to_user_false; [exact Hlook | | exact H].
    destruct Hcase as [(user0 & Hfind & -> & ->)|(Hnone & user0 & Hus & -> & Hid & Hvs & _)].
    - right. destruct (find_user_lookup _ _ _ _ Hfind) as [Hlook0 _].
      rewrite Hlook in Hlook0. injection Hlook0 as ->.
      unfold records_fit in Hcap. rewrite Forall_lookup in Hcap.
      exact (Hcap _ _ Hlook).
    - left. rewrite Hus in Hlook. rewrite lookup_app_r in Hlook by lia.
      rewrite Nat.sub_diag in Hlook. by injection Hlook as <-. }
  split_and!; try done.
  destruct Hcase as [(user0 & Hfind & -> & ->)|(Hnone & user0 & Hus & -> & Hid & Hvs & _)].
  - by left.
  - right. split; [done|]. by exists user0.
Qed.

Lemma C8_failed_add_witness :
  ∃ om' w',
    VisitManagerAddVisit (Some demo_manager) 7 701 (Some (c_string "u"))
      (Some (c_string "t")) starved_world
    = Done (false, om') w'
    ∧ ∃ m', om' = Some m'
        ∧ max_visits m' = max_visits demo_manager ∧ path m' = path demo_manager
        ∧ (users m' = users demo_manager
           ∨ (find_user demo_manager 7 = None
              ∧ ∃ user, users m' = users demo_manager ++ [user]
                        ∧ user_id user = 7 ∧ visits user = [])).
Proof.
  eexists _, _. split; [vm_compute; reflexivity|].
  eapply (C8_failed_add_keeps_visits demo_manager 7 701 (c_string "u") (c_string "t")
            starved_world).
  - by_computation.
  - vm_compute. reflexivity.
Defined.

(** The claim [C8] as stated fails: here the user 7 is unknown, the two
    allocations of create_user succeed and the allocation of the visit
    fails; the call returns false and user 7 is known afterwards. *)
Lemma C8_failed_add_counterexample :
  ∃ m' w',
    VisitManagerAddVisit (Some demo_manager) 7 701 (Some (c_string "u"))
      (Some (c_string "t")) starved_world
    = Done (false, Some m') w'
    ∧ find_user demo_manager 7 = None
    ∧ find_user m' 7 ≠ None
    ∧ users m' ≠ users demo_manager.
Proof. eexists _, _. split; [vm_compute; reflexivity|]. by split_and!. Qed.

(** ** The codec: integers *)

Lemma Z_of_byte_of_Z (x : Z) : Z_of_byte (byte_of_Z x) = x mod 256.
Proof.
  unfold Z_of_byte, byte_of_Z.
  assert (0 ≤ x mod 256 < 256) as Hr by (apply Z.mod_pos_bound; lia).
  destruct (Byte.of_N (Z.to_N (x mod 256))) as [b|] eqn:Hb.
  - apply Byte.to_of_N in Hb. rewrite Hb. lia.
  - apply Byte.of_N_None_iff in Hb. lia.
Qed.

Lemma le_bytes_length (n : nat) (x : Z) : length (le_bytes n x) = n.
Proof. revert x. induction n as [|n IH]; intros x; simpl; [done | by rewrite IH]. Qed.

Lemma le_value_bytes (n : nat) (x : Z) :
  le_value (le_bytes n x) = x mod 256 ^ Z.of_nat n.
Proof.
  revert x. induction n as [|n IH]; intros x.
  - simpl. by rewrite Z.mod_1_r.
  - cbn [le_bytes le_value]. rewrite Z_of_byte_of_Z, IH.
    rewrite Nat2Z.inj_succ, Z.pow_succ_r by lia.
    rewrite Z.rem_mul_r by lia. lia.
Qed.

Lemma le_value_bytes_small (n : nat) (x : Z) :
  0 ≤ x < 256 ^ Z.of_nat n → le_value (le_bytes n x) = x.
Proof. intros H. rewrite le_value_bytes. by apply Z.mod_small. Qed.

Lemma signed64_bytes (x : Z) :
  - 2 ^ 63 ≤ x < 2 ^ 63 → signed64 (le_value (le_bytes 8 x)) = x.
Proof.
  intros H. rewrite le_value_bytes. unfold signed64.
  change (256 ^ Z.of_nat 8) with (2 ^ 64).
  destruct (Z_lt_le_dec x 0).
  - replace (x mod 2 ^ 64) with (x + 2 ^ 64).
    + destruct (x + 2 ^ 64 <? 2 ^ 63) eqn:E; lia.
    + apply Z.mod_unique with (q := -1); lia.
  - rewrite Z.mod_small by lia. destruct (x <? 2 ^ 63) eqn:E; lia.
Qed.

(** ** The codec: reading back what was laid out *)

Lemma fread_app (n : Z) (b rest : list byte) :
  n = Z.of_nat (length b) → fread n (b ++ rest) = Some (b, rest).
Proof.
  intros ->. unfold fread. rewrite length_app.
  destruct (_ <=? _) eqn:E; [|apply Z.leb_gt in E; lia].
  rewrite Nat2Z.id. by rewrite take_app_length, drop_app_length.
Qed.

Lemma malloc_ok (n : nat) (size : Z) (w : World) :
  heap_ok (S n) w →
  ∃ p, p ≠ 0 ∧ (p =? 0) = false
       ∧ malloc size w = Done p (set_heap w (drop 1 (heap w)))
       ∧ heap_ok n (set_heap w (drop 1 (heap w))).
Proof.
  intros [Hlen Hall]. unfold malloc.
  destruct (heap w) as [|p h]; [simpl in Hlen; lia|].
  rewrite firstn_cons in Hall. apply Forall_cons in Hall as [Hp Hall].
  rewrite length_cons in Hlen.
  exists p. split_and!; try done.
  - by apply Z.eqb_neq.
  - split; [cbn; rewrite length_drop; lia | done].
Qed.

Lemma heap_ok_le (n k : nat) (w : World) : (k ≤ n)%nat → heap_ok n w → heap_ok k w.
Proof.
  intros Hk [Hlen Hall]. split; [lia|].
  replace k with (k `min` n)%nat by lia. rewrite <- take_take. by apply Forall_take.
Qed.

Lemma heap_ok_drop (n k : nat) (w : World) :
  heap_ok (k + n) w → heap_ok n (set_heap w (drop k (heap w))).
Proof.
  intros [Hlen Hall]. split; simpl.
  - rewrite length_drop. lia.
  - rewrite <- (take_drop k (heap w)) in Hall at 1.
    rewrite take_app_ge in Hall by (rewrite length_take; lia).
    apply Forall_app in Hall as [_ Hall].
    rewrite length_take in Hall.
    replace (k + n - k `min` length (heap w))%nat with n in Hall by lia. done.
Qed.

Lemma set_heap_drop (w : World) (a b : nat) :
  set_heap (set_heap w (drop a (heap w))) (drop b (heap (set_heap w (drop a (heap w)))))
  = set_heap w (drop (a + b) (heap w)).
Proof. unfold set_heap. simpl. by rewrite drop_drop. Qed.

Lemma bind_malloc_ok {B} (n : nat) (size : Z) (k : Z → M B) (w : World) :
  heap_ok (S n) w →
  ∃ p, (p =? 0) = false
       ∧ bind (malloc size) k w = k p (set_heap w (drop 1 (heap w)))
       ∧ heap_ok n (set_heap w (drop 1 (heap w))).
Proof.
  intros H. destruct (malloc_ok n size w H) as (p & _ & Hp & Hm & Hok).
  exists p. split_and!; try done. unfold bind. by rewrite Hm.
Qed.

Ltac malloc_step n H :=
  match goal with
  | |- context [bind (malloc ?s) ?k ?w] =>
      let p := fresh "p" in
      let Hp := fresh "Hp" in
      let H' := fresh "Hheap" in
      destruct (bind_malloc_ok n s k w H) as (p & Hp & -> & H');
      cbv beta; rewrite Hp
  end.

Lemma read_visit_image (v : Visit) (rest : list byte) (w : World) :
  visit_fits v → heap_ok 3 w →
  ∃ p, read_visit (visit_image v ++ rest) w
       = Done (Some ({| ptr := p; visit := v |}, rest)) (set_heap w (drop 3 (heap w))).
Proof.
  intros (Hid & Hurl & Htext & Hsec & Hnsec) Hheap.
  unfold read_visit, visit_image, block_image, timespec_bytes.
  rewrite <- !app_assoc.
  malloc_step 2%nat Hheap. exists p.
  rewrite fread_app by (by rewrite le_bytes_length). cbv beta iota.
  rewrite fread_app by (by rewrite le_bytes_length). cbv beta iota.
  rewrite (le_value_bytes_small 8) by (change (256 ^ Z.of_nat 8) with (2 ^ 64); lia).
  malloc_step 1%nat Hheap0.
  rewrite fread_app by done. cbv beta iota.
  rewrite fread_app by (by rewrite le_bytes_length). cbv beta iota.
  rewrite (le_value_bytes_small 8) by (change (256 ^ Z.of_nat 8) with (2 ^ 64); lia).
  malloc_step 0%nat Hheap1.
  rewrite fread_app by done. cbv beta iota.
  rewrite (app_assoc (le_bytes 8 _) (le_bytes 8 _) rest).
  rewrite fread_app by (by rewrite length_app, !le_bytes_length). cbv beta iota.
  rewrite take_app_length' by (by rewrite le_bytes_length).
  rewrite drop_app_length' by (by rewrite le_bytes_length).
  rewrite (le_value_bytes_small 4) by (change (256 ^ Z.of_nat 4) with (2 ^ 32); lia).
  rewrite !signed64_bytes by done.
  rewrite !set_heap_drop. unfold ret.
  destruct v as [vid u t [sec nsec]]. done.
Qed.

Lemma set_heap_same (w : World) : set_heap w (heap w) = w.
Proof. by destruct w. Qed.

Lemma read_visits_images (vs : list Visit) (j max : Z) (user : UserVisits)
    (rest : list byte) (w : World) :
  Forall visit_fits vs →
  heap_ok (3 * length vs) w →
  0 ≤ j →
  j + Z.of_nat (length vs) ≤ block_slots (capacity user) →
  ∃ user',
    read_visits (length vs) j max user (concat (visit_image <$> vs) ++ rest) w
    = Done (Some (user', rest)) (set_heap w (drop (3 * length vs) (heap w)))
    ∧ user_id user' = user_id user
    ∧ visits_at user' = visits_at user
    ∧ capacity user' = capacity user
    ∧ visit <$> visits user' = (visit <$> visits user) ++ take (Z.to_nat (max - j)) vs.
Proof.
  revert j user w. induction vs as [|v vs IH]; intros j user w Hfits Hheap Hj Hblock.
  - exists user. simpl. unfold ret. rewrite drop_0, set_heap_same.
    split_and!; try done. by rewrite take_nil, app_nil_r.
  - apply Forall_cons in Hfits as [Hv Hfits].
    rewrite length_cons in Hblock, Hheap |- *.
    rewrite fmap_cons, concat_cons, <- app_assoc.
    cbn [read_visits]. unfold bind at 1.
    destruct (read_visit_image v (concat (visit_image <$> vs) ++ rest) w Hv) as (p & ->).
    { eapply heap_ok_le; [|exact Hheap]. lia. }
    assert (heap_ok (3 * length vs) (set_heap w (drop 3 (heap w)))) as Hheap'.
    { apply heap_ok_drop. eapply heap_ok_le; [|exact Hheap]. lia. }
    destruct (j <? max) eqn:Hkeep.
    + apply Z.ltb_lt in Hkeep.
      destruct (j <? block_slots (capacity user)) eqn:Hin; [|apply Z.ltb_ge in Hin; lia].
      destruct (IH (j + 1)
                  {| user_id := user_id user; visits_at := visits_at user;
                     visits := visits user ++ [{| ptr := p; visit := v |}];
                     capacity := capacity user |}
                  (set_heap w (drop 3 (heap w))) Hfits Hheap')
        as (user' & Hrun & Hid & Hat & Hcap & Hvs); [lia | simpl; lia |].
      exists user'. rewrite Hrun, set_heap_drop.
      replace (3 + 3 * length vs)%nat with (3 * S (length vs))%nat by lia.
      split_and!; try done. rewrite Hvs. simpl.
      rewrite fmap_app, <- app_assoc. simpl.
      replace (Z.to_nat (max - j)) with (S (Z.to_nat (max - (j + 1)))) by lia.
      done.
    + apply Z.ltb_ge in Hkeep.
      destruct (IH (j + 1) user (set_heap w (drop 3 (heap w))) Hfits Hheap')
        as (user' & Hrun & Hid & Hat & Hcap & Hvs); [lia | lia |].
      exists user'. rewrite Hrun, set_heap_drop.
      replace (3 + 3 * length vs)%nat with (3 * S (length vs))%nat by lia.
      split_and!; try done. rewrite Hvs.
      replace (Z.to_nat (max - j)) with 0%nat by lia.
      replace (Z.to_nat (max - (j + 1))) with 0%nat by lia. by rewrite !take_0.
Qed.

Lemma create_user_ok (uid cap : Z) (w : World) :
  heap_ok 2 w →
  ∃ q, q ≠ 0
       ∧ create_user uid cap w
         = Done (Some {| user_id := uid; visits_at := q; visits := []; capacity := cap |})
             (set_heap w (drop 2 (heap w))).
Proof.
  intros Hheap. unfold create_user.
  malloc_step 1%nat Hheap. malloc_step 0%nat Hheap0.
  exists p0. split; [by apply Z.eqb_neq|]. unfold ret. by rewrite set_heap_drop.
Qed.

Lemma allocations_cons (uid : Z) (vs : list Visit) (us : list (Z * list Visit)) :
  allocations ((uid, vs) :: us) = (2 + 3 * length vs + allocations us)%nat.
Proof. reflexivity. Qed.

Lemma read_users_images (us : list (Z * list Visit)) (total : Z) (manager : VisitManager)
    (rest : list byte) (w : World) :
  Forall user_fits us →
  heap_ok (allocations us) w →
  user_count manager + Z.of_nat (length us) ≤ block_slots (user_capacity manager) →
  ∃ loaded,
    read_users (length us) total manager
      (concat ((fun u => user_image u.1 u.2) <$> us) ++ rest) w
    = Done (Some (set_users manager (users manager ++ loaded)))
        (set_heap w (drop (allocations us) (heap w)))
    ∧ Forall2 (loaded_as (max_visits manager)) loaded us.
Proof.
  revert manager w. induction us as [|[uid vs] us IH]; intros manager w Hfits Hheap Hblock.
  - exists []. simpl. unfold ret. rewrite drop_0, set_heap_same, app_nil_r, set_users_same.
    split; [done | constructor].
  - apply Forall_cons in Hfits as [(Huid & Hlen & Hvs) Hfits]. simpl in Huid, Hlen, Hvs.
    rewrite allocations_cons in Hheap |- *.
    rewrite length_cons in Hblock |- *.
    rewrite fmap_cons, concat_cons. cbn [fst snd]. unfold user_image at 1.
    rewrite <- !app_assoc. cbn [read_users].
    rewrite fread_app by (by rewrite le_bytes_length). cbv beta iota.
    rewrite fread_app by (by rewrite le_bytes_length). cbv beta iota zeta.
    rewrite (le_value_bytes_small 4) by (change (256 ^ Z.of_nat 4) with (2 ^ 32); lia).
    rewrite (le_value_bytes_small 8) by (change (256 ^ Z.of_nat 8) with (2 ^ 64); lia).
    set (cap := if 0 <? Z.of_nat (length vs) then Z.of_nat (length vs) else 10).
    destruct (create_user_ok uid cap w) as (q & Hq & Hcreate).
    { eapply heap_ok_le; [|exact Hheap]. lia. }
    unfold bind at 1. rewrite Hcreate.
    destruct (user_count manager <? block_slots (user_capacity manager)) eqn:Hin;
      [|apply Z.ltb_ge in Hin; lia].
    rewrite Nat2Z.id.
    assert (heap_ok (3 * length vs + allocations us) (set_heap w (drop 2 (heap w))))
      as Hheap1.
    { apply heap_ok_drop. eapply heap_ok_le; [|exact Hheap]. lia. }
    destruct (read_visits_images vs 0 (max_visits manager)
                {| user_id := uid; visits_at := q; visits := []; capacity := cap |}
                (concat ((fun u => user_image u.1 u.2) <$> us) ++ rest)
                (set_heap w (drop 2 (heap w))) Hvs)
      as (user' & Hrun & Hid & Hat & Hcap & Hkept).
    { eapply heap_ok_le; [|exact Hheap1]. lia. }
    { lia. }
    { simpl. unfold cap. destruct (0 <? Z.of_nat (length vs)) eqn:Hpos.
      - rewrite block_slots_exact; lia.
      - apply Z.ltb_ge in Hpos. rewrite block_slots_exact; lia. }
    unfold bind at 1. rewrite Hrun. rewrite set_heap_drop.
    destruct (IH (set_users manager (users manager ++ [user']))
                (set_heap w (drop (2 + 3 * length vs) (heap w))) Hfits)
      as (loaded & Hrest & Hloaded).
    { apply heap_ok_drop. eapply heap_ok_le; [|exact Hheap]. lia. }
    { unfold user_count in *. simpl. rewrite length_app. simpl. lia. }
    exists (user' :: loaded). split.
    + etrans; [exact Hrest|]. rewrite set_heap_drop.
      unfold set_users. simpl. rewrite <- app_assoc. simpl.
      by rewrite Nat.add_assoc.
    + constructor; [|done]. unfold loaded_as. simpl.
      rewrite Hid, Hat, Hcap, Hkept. simpl. rewrite Z.sub_0_r. by split_and!.
Qed.

Lemma deserialize_image (p : string) (max stored_max : Z) (us : list (Z * list Visit))
    (w : World) :
  disk w p = Some (file_image stored_max us) →
  Z.of_nat (length us) * 8 < 2 ^ 64 →
  Forall user_fits us →
  heap_ok (3 + allocations us) w →
  ∃ m,
    deserialize_manager p max w
    = Done (Some m) (set_heap w (drop (3 + allocations us) (heap w)))
    ∧ max_visits m = max ∧ path m = p
    ∧ users_at m ≠ 0
    ∧ Forall2 (loaded_as max) (users m) us.
Proof.
  intros Hdisk Hcount Hfits Hheap.
  unfold deserialize_manager, fopen_rb. unfold bind at 1. rewrite Hdisk.
  malloc_step (2 + allocations us)%nat Hheap.
  malloc_step (1 + allocations us)%nat Hheap0.
  unfold file_image.
  rewrite fread_app by (by rewrite le_bytes_length). cbv beta iota.
  rewrite fread_app by (by rewrite le_bytes_length). cbv beta iota zeta.
  rewrite (le_value_bytes_small 8) by (change (256 ^ Z.of_nat 8) with (2 ^ 64); lia).
  set (cap := if 0 <? Z.of_nat (length us) then Z.of_nat (length us) else 10).
  malloc_step (allocations us) Hheap1.
  rewrite Nat2Z.id.
  rewrite <- (app_nil_r (concat _)).
  destruct (read_users_images us (Z.of_nat (length us))
              {| users_at := p2; users := []; user_capacity := cap;
                 max_visits := max; path := p |} [] _ Hfits Hheap2)
    as (loaded & Hrun & Hloaded).
  { unfold user_count. simpl. unfold cap.
    destruct (0 <? Z.of_nat (length us)) eqn:Hpos.
    - rewrite block_slots_exact; lia.
    - apply Z.ltb_ge in Hpos. rewrite block_slots_exact; lia. }
  eexists. split; [|split_and!].
  - rewrite Hrun. rewrite !set_heap_drop. do 3 f_equal.
  - done.
  - done.
  - simpl. by apply Z.eqb_neq.
  - done.
Qed.

Lemma Forall2_fmap_eq {A B C} (R : A → B → Prop) (f : A → C) (g : B → C)
    (l : list A) (k : list B) :
  (∀ a b, R a b → f a = g b) → Forall2 R l k → f <$> l = g <$> k.
Proof.
  intros H. induction 1 as [|a b l k Hab _ IH]; [done|].
  rewrite !fmap_cons. f_equal; [by apply H | done].
Qed.

(** C5. Decoding the image of any content, whatever capacity bound the
    file declares, gives a manager with the caller's bound whose records
    are the users of the file in order, each with the first [max] of its
    visits in file order; the visits beyond are read and dropped, and the
    users after them are decoded from the right place. *)
Theorem C5_decode_keeps_first (p : string) (max stored_max : Z)
    (us : list (Z * list Visit)) (w : World) :
  disk w p = Some (file_image stored_max us) →
  Z.of_nat (length us) * 8 < 2 ^ 64 →
  Forall user_fits us →
  heap_ok (3 + allocations us) w →
  ∃ m w',
    deserialize_manager p max w = Done (Some m) w'
    ∧ max_visits m = max
    ∧ path m = p
    ∧ (fun u => (user_id u, visit <$> visits u)) <$> users m
      = (fun r => (r.1, take (Z.to_nat max) r.2)) <$> us.
Proof.
  intros Hdisk Hcount Hfits Hheap.
  destruct (deserialize_image p max stored_max us w Hdisk Hcount Hfits Hheap)
    as (m & Hrun & Hmax & Hpath & _ & Hloaded).
  exists m, (set_heap w (drop (3 + allocations us) (heap w))).
  split_and!; try done.
  eapply Forall2_fmap_eq; [|exact Hloaded].
  intros u r (Hid & Hvs & _). by rewrite Hid, Hvs.
Qed.

Lemma C5_decode_witness :
  ∃ m w',
    deserialize_manager "visit_test.dat" 2 loaded_world = Done (Some m) w'
    ∧ max_visits m = 2
    ∧ path m = "visit_test.dat"
    ∧ (fun u => (user_id u, visit <$> visits u)) <$> users m
      = [(1, [visit visit_101; visit visit_102]); (2, [visit visit_102])].
Proof.
  apply (C5_decode_keeps_first "visit_test.dat" 2 100 demo_content loaded_world).
  - reflexivity.
  - reflexivity.
  - by_computation.
  - by_computation.
Defined.

(** ** Round trip *)

Lemma c_str_written (buf buf' : list byte) :
  written buf = Some buf' → c_str buf' = c_str buf ∧ (length buf' ≤ length buf)%nat.
Proof.
  unfold written. destruct (strlen buf) as [n|] eqn:Hn; [|done]. simpl.
  intros [= <-]. unfold c_str. rewrite (strlen_take _ _ Hn), Hn.
  rewrite take_take. split; [f_equal; lia | rewrite length_take; lia].
Qed.

Lemma written_visit_spec (v v' : Visit) :
  written_visit v = Some v' →
  visit_id v' = visit_id v ∧ time v' = time v
  ∧ c_str (url v') = c_str (url v) ∧ c_str (text v') = c_str (text v)
  ∧ (visit_fits v → visit_fits v').
Proof.
  unfold written_visit.
  destruct (written (url v)) as [u|] eqn:Hu; [|done].
  destruct (written (text v)) as [t|] eqn:Ht; [|done]. simpl. intros [= <-]. simpl.
  destruct (c_str_written _ _ Hu) as [Hcu Hlu].
  destruct (c_str_written _ _ Ht) as [Hct Hlt].
  split_and!; try done. unfold visit_fits. simpl. lia.
Qed.

Lemma written_user_spec (u : UserVisits) (r : Z * list Visit) :
  written_user u = Some r →
  r.1 = user_id u
  ∧ Forall2 (fun s v => written_visit (visit s) = Some v) (visits u) r.2.
Proof.
  unfold written_user.
  destruct (mapM _ (visits u)) as [vs|] eqn:Hvs; [|done]. simpl. intros [= <-].
  split; [done|]. simpl. by apply mapM_Some in Hvs.
Qed.

Lemma written_user_fits (u : UserVisits) (r : Z * list Visit) :
  written_user u = Some r →
  0 ≤ user_id u < 2 ^ 32 →
  Z.of_nat (length (visits u)) * 8 < 2 ^ 64 →
  Forall (fun s => visit_fits (visit s)) (visits u) →
  user_fits r.
Proof.
  intros Hw Hid Hlen Hvs. destruct (written_user_spec _ _ Hw) as [Hr1 Hr2].
  unfold user_fits. rewrite Hr1, <- (Forall2_length _ _ _ Hr2).
  split; [done|]. split; [done|].
  eapply Forall2_Forall_r; [exact Hr2|].
  eapply Forall_impl; [exact Hvs|]. intros s Hs v Hsv.
  by apply (written_visit_spec _ _ Hsv).
Qed.

Lemma loaded_written_tuples (max : Z) (u' u : UserVisits) (r : Z * list Visit) :
  loaded_as max u' r → written_user u = Some r → visit_count u ≤ max →
  user_tuples u' = user_tuples u.
Proof.
  intros (Hid & Hvs & _) Hw Hmax. destruct (written_user_spec _ _ Hw) as [Hr1 Hr2].
  unfold visit_count in Hmax.
  rewrite take_ge in Hvs by (rewrite <- (Forall2_length _ _ _ Hr2); lia).
  unfold user_tuples. rewrite Hid, Hr1, Hvs, <- list_fmap_compose.
  symmetry. eapply Forall2_fmap_eq; [|exact Hr2].
  intros s v Hsv. unfold visit_tuple. simpl.
  destruct (written_visit_spec _ _ Hsv) as (-> & -> & -> & -> & _). done.
Qed.

Lemma serialize_manager_writes (m : VisitManager) (w : World) (ws : list (Z * list Visit)) :
  locked w (path m) = false →
  mapM written_user (users m) = Some ws →
  ∃ w1, serialize_manager m w = Done tt w1
        ∧ disk w1 (path m) = Some (file_image (max_visits m) ws)
        ∧ heap w1 = heap w.
Proof.
  intros Hl Hws. unfold serialize_manager, manager_bytes, write_file.
  rewrite Hl, Hws. simpl. eexists. split; [done|]. simpl.
  by rewrite String.eqb_refl.
Qed.

(** C4. A manager whose records respect the capacity bound, saved and
    loaded again with the same bound, comes back with the same
    (user_id, visit_id, url, text, timestamp) tuples, in the same order. *)
Theorem C4_round_trip (m : VisitManager) (w : World) :
  locked w (path m) = false →
  strings_terminated m →
  manager_fits m →
  within_bound m →
  heap_ok (3 + sum_list ((fun u => 2 + 3 * length (visits u))%nat <$> users m)) w →
  ∃ w1 m' w2,
    serialize_manager m w = Done tt w1
    ∧ deserialize_manager (path m) (max_visits m) w1 = Done (Some m') w2
    ∧ max_visits m' = max_visits m
    ∧ user_id <$> users m' = user_id <$> users m
    ∧ tuples m' = tuples m.
Proof.
  intros Hl Hterm [Hcount Hfits] Hmax Hheap. unfold within_bound in Hmax.
  destruct (manager_bytes_defined m Hterm) as [bs Hbs].
  unfold manager_bytes in Hbs.
  destruct (mapM written_user (users m)) as [ws|] eqn:Hws; [|done].
  pose proof Hws as Hall. apply mapM_Some in Hall.
  destruct (serialize_manager_writes m w ws Hl Hws) as (w1 & Hser & Hdisk & Hheap1).
  assert (allocations ws = sum_list ((fun u => 2 + 3 * length (visits u))%nat <$> users m))
    as Hallocs.
  { unfold allocations. f_equal. symmetry. eapply Forall2_fmap_eq; [|exact Hall].
    intros u r Hur. destruct (written_user_spec _ _ Hur) as [_ H2].
    simpl. by rewrite (Forall2_length _ _ _ H2). }
  destruct (deserialize_image (path m) (max_visits m) (max_visits m) ws w1 Hdisk)
    as (m' & Hrun & Hmax' & Hpath' & _ & Hloaded).
  { by rewrite <- (Forall2_length _ _ _ Hall). }
  { eapply Forall2_Forall_r; [exact Hall|].
    eapply Forall_impl; [exact Hfits|]. intros u (H1 & H2 & H3) r Hur.
    by eapply written_user_fits. }
  { unfold heap_ok. rewrite Hheap1, Hallocs. exact Hheap. }
  eexists w1, m', _. split_and!; try done.
  - etrans; [eapply Forall2_fmap_eq; [|exact Hloaded]|].
    + intros u r (Hid & _). exact Hid.
    + symmetry. eapply Forall2_fmap_eq; [|exact Hall].
      intros u r Hur. by destruct (written_user_spec _ _ Hur) as [-> _].
  - unfold tuples. f_equal.
    assert (Forall2 (fun u' u => user_tuples u' = user_tuples u) (users m') (users m))
      as Hsame.
    { apply Forall2_flip in Hall.
      assert (Forall2 (fun r u => written_user u = Some r ∧ visit_count u ≤ max_visits m)
                ws (users m)) as Hall'.
      { clear -Hall Hmax. induction Hall as [|r u rs us Hru _ IH]; [constructor|].
        apply Forall_cons in Hmax as [Hu Hmax]. constructor; [done | by apply IH]. }
      eapply Forall2_trans; [|exact Hloaded|exact Hall'].
      intros u' r u Hl' [Hw Hc]. by eapply loaded_written_tuples. }
    clear -Hsame. induction Hsame as [|u' u us' us Hu _ IH]; [done|].
    by rewrite !fmap_cons, Hu, IH.
Qed.


Lemma C4_round_trip_witness :
  ∃ w1 m' w2,
    serialize_manager demo_manager demo_world = Done tt w1
    ∧ deserialize_manager (path demo_manager) (max_visits demo_manager) w1
      = Done (Some m') w2
    ∧ max_visits m' = max_visits demo_manager
    ∧ user_id <$> users m' = user_id <$> users demo_manager
    ∧ tuples m' = tuples demo_manager.
Proof.
  apply (C4_round_trip demo_manager demo_world).
  - reflexivity.
  - by_computation.
  - by_computation.
  - by_computation.
  - by_computation.
Defined.
(** ** Sorting *)

Lemma swap_slots_perm (i j : nat) (vs : list slot) : swap_slots i j vs ≡ₚ vs.
Proof.
  unfold swap_slots.
  destruct (vs !! i) as [x|] eqn:Hi; [|done].
  destruct (vs !! j) as [y|] eqn:Hj; [|done].
  by apply Permutation_insert_swap.
Qed.

(** Whatever the library's tree and whatever the comparison function
    answers, qsort rearranges the array. *)
Lemma run_sorter_perm {n : nat} (s : sorter n)
    (compar : (Z → option Z) → Z → Z → option Z) (base slots : Z) (jk : Z → Z)
    (vs vs' : list slot) :
  run_sorter s compar base slots jk vs = Some vs' → vs' ≡ₚ vs.
Proof.
  revert vs. induction s as [|i j rest IH|i j rest IH]; intros vs; simpl.
  - by intros [= <-].
  - intros H. rewrite (IH _ H). apply swap_slots_perm.
  - destruct (compar _ _ _) as [r|]; [|done]. simpl. apply IH.
Qed.

(** A sort that returns has changed nothing in the world. *)
Lemma qsort_Done (base slots : Z) (vs vs' : list slot)
    (compar : (Z → option Z) → Z → Z → option Z) (w w' : World) :
  qsort base slots vs compar w = Done vs' w' → w' = w ∧ vs' ≡ₚ vs.
Proof.
  unfold qsort. destruct (run_sorter _ _ _ _ _ _) as [r|] eqn:Hrun; [|done].
  intros [= <- <-]. split; [done | by eapply run_sorter_perm].
Qed.

Lemma sort_visits_Done (arr slots : Z) (vs vs' : list slot) (w w' : World) :
  sort_visits arr slots vs w = Done vs' w' → w' = w ∧ vs' ≡ₚ vs.
Proof. apply qsort_Done. Qed.

(** *** Where the comparisons stay inside the block *)


Lemma load_outside (arr slots : Z) (vs : list slot) (jk : Z → Z) (k : Z) :
  slots ≤ k → load arr slots vs jk (arr + 8 * k) = None.
Proof.
  intros Hk. unfold load.
  replace (arr + 8 * k - arr) with (k * 8) by lia.
  rewrite Z.div_mul by lia.
  assert ((k <? slots) = false) as -> by lia.
  by rewrite andb_false_r.
Qed.




(** *** What the comparisons see *)

(** What compare_visits reads is a function of the pointer values in the
    array and of the memory around it: the visits themselves, and their
    timestamps, play no part. *)
Lemma load_ignores_visits (arr slots : Z) (vs vs' : list slot) (jk : Z → Z) (addr : Z) :
  ptr <$> vs = ptr <$> vs' → load arr slots vs jk addr = load arr slots vs' jk addr.
Proof.
  intros H. unfold load. cbv zeta. destruct (_ && _); [|done].
  assert (ptr <$> (vs !! Z.to_nat ((addr - arr) / 8))
          = ptr <$> (vs' !! Z.to_nat ((addr - arr) / 8))) as Hl.
  { by rewrite <- !list_lookup_fmap, H. }
  destruct (vs !! _) as [s|], (vs' !! _) as [s'|]; simpl in Hl; congruence.
Qed.

Lemma compare_visits_ignores_visits (arr slots : Z) (vs vs' : list slot) (jk : Z → Z)
    (a b : Z) :
  ptr <$> vs = ptr <$> vs' →
  compare_visits (load arr slots vs jk) a b = compare_visits (load arr slots vs' jk) a b.
Proof.
  intros H. unfold compare_visits.
  by rewrite !(load_ignores_visits arr slots vs vs' jk _ H).
Qed.

Lemma swap_slots_ptr (i j : nat) (vs vs' : list slot) :
  ptr <$> vs = ptr <$> vs' → ptr <$> swap_slots i j vs = ptr <$> swap_slots i j vs'.
Proof.
  intros H. unfold swap_slots.
  assert (∀ k, ptr <$> (vs !! k) = ptr <$> (vs' !! k)) as Hl.
  { intros k. by rewrite <- !list_lookup_fmap, H. }
  pose proof (Hl i) as Hi. pose proof (Hl j) as Hj.
  destruct (vs !! i) as [x|], (vs' !! i) as [x'|]; simpl in Hi; try done.
  destruct (vs !! j) as [y|], (vs' !! j) as [y'|]; simpl in Hj; try done.
  rewrite !list_fmap_insert. congruence.
Qed.

(** The order in which sort_visits leaves the pointers is the same for
    two arrays that hold the same pointers, whatever the timestamps of the
    visits they point to, and whatever the library. *)
Lemma qsort_ignores_visits {n : nat} (s : sorter n) (arr slots : Z) (vs vs' : list slot)
    (jk : Z → Z) :
  ptr <$> vs = ptr <$> vs' →
  (fun r : list slot => ptr <$> r) <$> run_sorter s compare_visits arr slots jk vs
  = (fun r : list slot => ptr <$> r) <$> run_sorter s compare_visits arr slots jk vs'.
Proof.
  revert vs vs'. induction s as [|i j rest IH|i j rest IH]; intros vs vs' H; simpl.
  - by rewrite H.
  - apply IH. by apply swap_slots_ptr.
  - rewrite (compare_visits_ignores_visits arr slots vs vs' jk _ _ H).
    destruct (compare_visits _ _ _) as [r|]; [|done]. simpl. by apply IH.
Qed.

Lemma load_beyond (arr slots : Z) (vs vs' : list slot) (jk : Z → Z) (k : Z) :
  Z.of_nat (length vs) ≤ k → length vs' = length vs →
  load arr slots vs jk (arr + 8 * k) = load arr slots vs' jk (arr + 8 * k).
Proof.
  intros Hk Hlen. unfold load.
  replace (arr + 8 * k - arr) with (k * 8) by lia.
  rewrite Z.div_mul by lia. cbv zeta.
  destruct (_ && _); [|done].
  rewrite !lookup_ge_None_2; [done | lia | lia].
Qed.

(** On a record of at most three visits no comparison reads a live
    element: what compare_visits answers does not depend on the array. *)
Lemma compare_visits_blind (arr slots : Z) (vs vs' : list slot) (jk : Z → Z) (i j : nat) :
  (length vs ≤ 3)%nat → length vs' = length vs →
  compare_visits (load arr slots vs jk) (arr + 8 * Z.of_nat i) (arr + 8 * Z.of_nat j)
  = compare_visits (load arr slots vs' jk) (arr + 8 * Z.of_nat i) (arr + 8 * Z.of_nat j).
Proof.
  intros Hshort Hlen. unfold compare_visits.
  replace (arr + 8 * Z.of_nat i + 24) with (arr + 8 * (Z.of_nat i + 3)) by lia.
  replace (arr + 8 * Z.of_nat j + 24) with (arr + 8 * (Z.of_nat j + 3)) by lia.
  replace (arr + 8 * Z.of_nat i + 32) with (arr + 8 * (Z.of_nat i + 4)) by lia.
  replace (arr + 8 * Z.of_nat j + 32) with (arr + 8 * (Z.of_nat j + 4)) by lia.
  by rewrite !(load_beyond arr slots vs vs' jk) by (done || lia).
Qed.

(** Hence on a record of two visits the sort, where it is defined, either
    leaves both arrangements of the two visits as they are or reverses
    both, whatever the library. *)
Lemma sort_of_two_is_blind (s : sorter 2) (arr slots : Z) (jk : Z → Z) (a b : slot) :
  (run_sorter s compare_visits arr slots jk [a; b] = Some [a; b]
   ∧ run_sorter s compare_visits arr slots jk [b; a] = Some [b; a])
  ∨ (run_sorter s compare_visits arr slots jk [a; b] = Some [b; a]
     ∧ run_sorter s compare_visits arr slots jk [b; a] = Some [a; b])
  ∨ (run_sorter s compare_visits arr slots jk [a; b] = None
     ∧ run_sorter s compare_visits arr slots jk [b; a] = None).
Proof.
  revert a b. induction s as [|i j rest IH|i j rest IH]; intros a b; simpl.
  - by left.
  - assert ((swap_slots i j [a; b] = [a; b] ∧ swap_slots i j [b; a] = [b; a])
            ∨ (swap_slots i j [a; b] = [b; a] ∧ swap_slots i j [b; a] = [a; b])) as Hswap.
    { pose proof (fin_to_nat_lt i). pose proof (fin_to_nat_lt j).
      destruct (fin_to_nat i) as [|[|?]], (fin_to_nat j) as [|[|?]];
        try lia; unfold swap_slots; simpl; auto. }
    destruct Hswap as [[-> ->]|[-> ->]]; [apply IH|].
    destruct (IH b a) as [[H1 H2]|[[H1 H2]|[H1 H2]]]; rewrite H1, H2; auto.
  - rewrite (compare_visits_blind arr slots [a; b] [b; a] jk i j) by (simpl; lia).
    destruct (compare_visits _ _ _) as [r|]; simpl; [apply IH | auto].
Qed.

(** So, whatever the surrounding memory holds, of the two records made of
    an older visit [a] and a newer visit [b] one is returned with the
    older visit first, unless the sort is undefined for both. *)
Lemma sort_of_two_oldest_first (s : sorter 2) (arr slots : Z) (jk : Z → Z) (a b : slot) :
  (∃ vs, (vs = [a; b] ∨ vs = [b; a])
         ∧ run_sorter s compare_visits arr slots jk vs = Some [a; b])
  ∨ (run_sorter s compare_visits arr slots jk [a; b] = None
     ∧ run_sorter s compare_visits arr slots jk [b; a] = None).
Proof.
  destruct (sort_of_two_is_blind s arr slots jk a b) as [[H _]|[[_ H]|H]].
  - left. exists [a; b]. split; [by left | done].
  - left. exists [b; a]. split; [by right | done].
  - by right.
Qed.

(** C1, at a failing input. A fresh manager with capacity 10 receives two
    visits of user 1, 101 at second 1000 and 102 at second 1001, and is
    then queried: the array comes back as [101; 102], the older visit at
    the smaller index. compare_visits is handed the addresses of two
    array elements and reads timestamps at those addresses instead of in
    the visits the elements point to, so the order of the array does not
    follow the timestamps. *)
Theorem C1_recent_visits_oldest_first :
  ∃ r om w',
    first_two_visits demo_world = Done (r, om) w'
    ∧ stored_count r = Some 2
    ∧ (fun s => (visit_id (visit s), time (visit s))) <$> visits_of om 1
      = [(101, at_time 1000 500); (102, at_time 1001 500)].
Proof. eexists _, _, _. split; [vm_compute; reflexivity|]. split; reflexivity. Qed.



(** In the scenario of the repository's test of the limit the record has
    an array of three elements and holds three visits when it is queried:
    the first comparison reads the word behind the array, and the query
    is undefined. *)
Example limit_test_reads_behind_the_array :
  five_visits_with_capacity_three demo_world = Undefined.
Proof. vm_compute. reflexivity. Qed.

(** ** The capacity bound in the executions that are defined *)

Lemma read_visits_ok (n : nat) (j max : Z) (user user' : UserVisits)
    (f f' : list byte) (w w' : World) :
  read_visits n j max user f w = Done (Some (user', f')) w' →
  visit_count user ≤ j → record_ok max user →
  record_ok max user' ∧ user_id user' = user_id user.
Proof.
  revert j user f w. induction n as [|n IH]; intros j user f w.
  - simpl. intros H. by apply ret_Done in H as [[= <- <-] _].
  - cbn [read_visits]. rewrite bind_Done. intros ([[s f1]|] & w1 & _ & H); [|done].
    intros Hj (Hat & Hcap & Hmax & Hblock).
    destruct (j <? max) eqn:Hkeep.
    + destruct (j <? block_slots (capacity user)) eqn:Hin; [|done].
      apply Z.ltb_lt in Hkeep, Hin.
      apply IH in H as [H1 H2]; [done | |].
      * unfold visit_count in *. simpl. rewrite length_app. simpl. lia.
      * unfold record_ok, visit_count in *. simpl. rewrite length_app. simpl.
        split_and!; try done; lia.
    + apply IH in H; [done | lia | done].
Qed.

Lemma cleanup_None (m : VisitManager) (total : Z) (w w' : World) (r : option VisitManager) :
  cleanup m total w = Done r w' → r = None.
Proof.
  unfold cleanup. rewrite bind_Done. intros (? & ? & _ & H).
  by apply ret_Done in H as [<- _].
Qed.

Lemma read_users_ok (n : nat) (total max : Z) (m m' : VisitManager) (f : list byte)
    (w w' : World) :
  0 ≤ max →
  read_users n total m f w = Done (Some m') w' →
  manager_ok max m → manager_ok max m'.
Proof.
  intros Hmax0. revert m f w. induction n as [|n IH]; intros m f w.
  - simpl. intros H. by apply ret_Done in H as [[= <-] _].
  - cbn [read_users].
    destruct (fread 4 f) as [[b_uid f1]|]; [|by intros H%cleanup_None].
    destruct (fread 8 f1) as [[b_count f2]|]; [|by intros H%cleanup_None].
    cbv zeta. rewrite bind_Done. intros ([user|] & w1 & Hcreate & H);
      [|by apply cleanup_None in H].
    destruct (user_count m <? _); [|by unfold undefined in H].
    apply bind_Done in H as ([[user' f3]|] & w2 & Hvisits & H);
      [|by apply cleanup_None in H].
    intros [Hmax Hall]. apply IH in H; [done|].
    split; [done|]. simpl. apply Forall_app. split; [done|].
    constructor; [|constructor].
    destruct (create_user_spec _ _ _ _ _ Hcreate) as (Hid & Hvs & Hcap & Hat).
    rewrite Hmax in Hvisits.
    assert (visit_count user ≤ 0) as Hzero.
    { unfold visit_count. rewrite Hvs. simpl. lia. }
    assert (record_ok max user) as Huser.
    { unfold record_ok, visit_count. rewrite Hvs, Hcap. simpl.
      split_and!; try done.
      - pose proof (le_value_nonneg b_count). destruct (0 <? _); lia.
      - apply block_slots_nonneg. }
    by destruct (read_visits_ok _ _ _ _ _ _ _ _ _ Hvisits Hzero Huser).
Qed.

Lemma deserialize_manager_ok (p : string) (max : Z) (m : VisitManager) (w w' : World) :
  0 ≤ max →
  deserialize_manager p max w = Done (Some m) w' → manager_ok max m.
Proof.
  intros Hmax0. unfold deserialize_manager. rewrite bind_Done.
  intros ([f|] & w1 & _ & H); [|done].
  apply bind_Done in H as (p1 & w2 & _ & H). destruct (p1 =? 0); [done|].
  apply bind_Done in H as (p2 & w3 & _ & H). destruct (p2 =? 0); [done|].
  destruct (fread 8 f) as [[b1 f1]|]; [|done].
  destruct (fread 8 f1) as [[b2 f2]|]; [|done].
  cbv zeta in H. apply bind_Done in H as (p3 & w4 & _ & H). destruct (p3 =? 0); [done|].
  eapply read_users_ok; [done | exact H |]. split; [done | constructor].
Qed.

Lemma VisitManagerCreate_ok (p : string) (max : Z) (m : VisitManager) (w w' : World) :
  0 ≤ max →
  VisitManagerCreate p max w = Done (Some m) w' → manager_ok max m.
Proof.
  intros Hmax0. unfold VisitManagerCreate. rewrite bind_Done.
  intros (file & w1 & _ & H).
  apply bind_Done in H as ([loaded|] & w2 & Hload & H).
  - apply ret_Done in H as [[= <-] _]. destruct file; [|done].
    by eapply deserialize_manager_ok.
  - apply bind_Done in H as (p1 & w3 & _ & H). destruct (p1 =? 0); [done|].
    apply bind_Done in H as (p2 & w4 & _ & H). destruct (p2 =? 0); [done|].
    apply bind_Done in H as (p3 & w5 & _ & H). destruct (p3 =? 0); [done|].
    apply ret_Done in H as [[= <-] _]. split; [done | constructor].
Qed.

Lemma make_room_Done (max : Z) (vs0 vs : list slot) (w w' : World) :
  make_room max vs0 w = Done vs w' →
  (length vs ≤ length vs0)%nat
  ∧ (Z.of_nat (length vs0) ≤ max → Z.of_nat (length vs) + 1 ≤ max).
Proof.
  unfold make_room. destruct (max <=? Z.of_nat (length vs0)) eqn:Hfull.
  - destruct vs0 as [|s0 rest]; [done|]. intros H. apply ret_Done in H as [<- _].
    rewrite swap_remove_length. apply Z.leb_le in Hfull. simpl in *. split; lia.
  - intros H. apply ret_Done in H as [<- _]. apply Z.leb_gt in Hfull. lia.
Qed.

Lemma store_visit_Done (m : VisitManager) (i : nat) (user : UserVisits) (s : slot)
    (w w' : World) (b : bool) (m' : VisitManager) :
  store_visit m i user s w = Done (b, m') w' →
  visit_count user < block_slots (capacity user)
  ∧ m' = set_users m (<[i := set_visits user (visits user ++ [s])]> (users m)).
Proof.
  intros H. pose proof (store_visit_true _ _ _ _ _ _ _ _ H) as [_ ->].
  split; [|done]. unfold store_visit in H.
  destruct (_ <? _) eqn:Hin; [by apply Z.ltb_lt in Hin | done].
Qed.

Lemma add_to_user_ok (max : Z) (m m' : VisitManager) (i : nat) (user : UserVisits)
    (vid : Z) (url_arg text_arg : list byte) (w w' : World) (b : bool) :
  0 ≤ max →
  add_to_user m i user vid url_arg text_arg w = Done (b, m') w' →
  users m !! i = Some user →
  manager_ok max m → manager_ok max m'.
Proof.
  intros Hmax0 H Hlook Hm. pose proof (manager_ok_lookup _ _ _ _ Hm Hlook) as Hu.
  pose proof Hm as [Hmax _].
  revert H. unfold add_to_user.
  destruct (has_visit vid (visits user)); [by intros [= _ <-]|].
  rewrite bind_Done. intros ([new_visit|] & w1 & _ & H);
    [|by apply ret_Done in H as [[= _ <-] _]].
  apply bind_Done in H as (vs & w2 & Hroom & H).
  apply bind_Done in H as (grown & w3 & Hgrow & H).
  destruct (make_room_Done _ _ _ _ _ Hroom) as [Hlen Hfree].
  destruct grown as [user2|].
  - apply store_visit_Done in H as [Hin ->].
    destruct (grow_visits_spec _ _ _ _ _ Hgrow) as (Hid & Hvs & Hcase).
    apply manager_ok_insert; [done|].
    destruct Hu as (Hat & Hcap & Hcount & Hblock).
    unfold record_ok, visit_count in *. simpl in *. rewrite Hvs in *.
    rewrite length_app. simpl. split_and!.
    + destruct Hcase as [->|(_ & ? & _)]; done.
    + destruct Hcase as [->|(_ & _ & ->)]; [done|].
      rewrite Hmax. unfold wrap64.
      pose proof (Z.mod_pos_bound (capacity user * 2) (2 ^ 64)).
      destruct (_ <? _); lia.
    + rewrite Hmax in Hfree. lia.
    + lia.
  - apply ret_Done in H as [[= _ <-] _].
    apply manager_ok_insert; [done|]. by apply record_ok_shrink.
Qed.

Lemma add_visit_ok (max : Z) (m m' : VisitManager) (uid vid : Z)
    (url_arg text_arg : list byte) (w w' : World) (b : bool) :
  0 ≤ max →
  add_visit m uid vid url_arg text_arg w = Done (b, m') w' →
  manager_ok max m → manager_ok max m'.
Proof.
  intros Hmax0. unfold add_visit. rewrite bind_Done.
  intros ([m1 oi] & w1 & Hloc & H) Hm. simpl in H.
  destruct (find_or_create_user_spec _ _ _ _ _ _ Hloc) as (Hmax & Hpath & Hcase).
  pose proof Hm as [Hmax1 Hall].
  assert (manager_ok max m1) as Hm1.
  { split; [congruence|]. destruct oi as [i|].
    - destruct Hcase as [(user & _ & -> & _)|(_ & user & -> & _ & Hid & Hvs & Hcap & Hat)];
        [done|].
      apply Forall_app. split; [done|]. constructor; [|constructor].
      unfold record_ok, visit_count. rewrite Hvs, Hcap, Hmax1. simpl.
      split_and!; try done. apply block_slots_nonneg.
    - by rewrite Hcase. }
  destruct oi as [i|]; [|by apply ret_Done in H as [[= _ <-] _]].
  destruct (users m1 !! i) as [user|] eqn:Hlook; [|done].
  by eapply add_to_user_ok.
Qed.

Lemma delete_one_length (id : Z) (st : list slot * bool) :
  (length (delete_one id st).1 ≤ length st.1)%nat.
Proof.
  unfold delete_one. destruct (list_find _ st.1) as [[j s]|]; [|done].
  simpl. rewrite swap_remove_length. lia.
Qed.

Lemma delete_ids_length (ids : list Z) (vs : list slot) :
  (length (delete_ids ids vs).1 ≤ length vs)%nat.
Proof.
  unfold delete_ids. generalize false. revert vs.
  induction ids as [|id ids IH]; intros vs b; [done|].
  rewrite delete_ids_cons.
  pose proof (delete_one_length id (vs, b)) as H1.
  destruct (delete_one id (vs, b)) as [vs1 b1]. simpl in H1.
  specialize (IH vs1 b1). lia.
Qed.

Lemma run_call_ok (max : Z) (c : call) (m m' : VisitManager) (w w' : World) :
  0 ≤ max →
  run_call c m w = Done (Some m') w' →
  manager_ok max m → manager_ok max m'.
Proof.
  intros Hmax0 H Hm. destruct c as [uid vid [u|] [t|]|uid count_arg|uid ids|uid];
    simpl in H.
  - apply bind_Done in H as ([b om] & w1 & H & Hr).
    apply ret_Done in Hr as [Hr _]. simpl in Hr. subst om.
    apply bind_Done in H as ([b' m1] & w2 & H & Hr).
    apply ret_Done in Hr as [[= _ <-] _]. by eapply add_visit_ok.
  - apply ret_Done in H as [[= <-] _]. done.
  - apply ret_Done in H as [[= <-] _]. done.
  - apply ret_Done in H as [[= <-] _]. done.
  - apply bind_Done in H as ([r om] & w1 & H & Hr).
    apply ret_Done in Hr as [Hr _]. simpl in Hr. subst om.
    destruct count_arg; [|by apply ret_Done in H as [[= _ <-] _]].
    destruct (find_user m uid) as [[i user]|] eqn:Hfind;
      [|by apply ret_Done in H as [[= _ <-] _]].
    destruct (find_user_lookup _ _ _ _ Hfind) as [Hlook _].
    apply bind_Done in H as (vs & w2 & Hsort & H).
    apply ret_Done in H as [[= _ <-] _].
    apply manager_ok_insert; [done|]. apply record_ok_shrink; [done | |].
    + by eapply manager_ok_lookup.
    + apply sort_visits_Done in Hsort as [_ Hperm].
      by apply Nat.eq_le_incl, Permutation_length.
  - apply bind_Done in H as ([b om] & w1 & H & Hr).
    apply ret_Done in Hr as [Hr _]. simpl in Hr. subst om.
    unfold VisitManagerDelete in H.
    destruct ids as [[|id ids]|]; try by apply ret_Done in H as [[= _ <-] _].
    destruct (find_user m uid) as [[i user]|] eqn:Hfind;
      [|by apply ret_Done in H as [[= _ <-] _]].
    destruct (find_user_lookup _ _ _ _ Hfind) as [Hlook _].
    cbv zeta in H.
    assert (manager_ok max
              (set_users m
                 (<[i := set_visits user (delete_ids (id :: ids) (visits user)).1]>
                    (users m)))) as Hok.
    { apply manager_ok_insert; [done|]. apply record_ok_shrink; [done | |].
      - by eapply manager_ok_lookup.
      - apply delete_ids_length. }
    destruct (delete_ids (id :: ids) (visits user)).2.
    + apply bind_Done in H as (? & ? & _ & H). by apply ret_Done in H as [[= _ <-] _].
    + by apply ret_Done in H as [[= _ <-] _].
  - unfold VisitManagerClear in H.
    destruct (find_user m uid) as [[i user]|] eqn:Hfind;
      [|by apply ret_Done in H as [[= <-] _]].
    destruct (find_user_lookup _ _ _ _ Hfind) as [Hlook _].
    cbv zeta in H. apply bind_Done in H as (? & ? & _ & H).
    apply ret_Done in H as [[= <-] _].
    apply manager_ok_insert; [done|]. apply record_ok_shrink; [done | |].
    + by eapply manager_ok_lookup.
    + simpl. lia.
Qed.

(** In every execution that runs without undefined behaviour, from
    VisitManagerCreate on (fresh or loaded from any file) and through any
    calls, every record holds at most [max_visits] visits, owns its array
    and fits it. *)
Theorem capacity_bound_when_defined (max : Z) (m : VisitManager) :
  0 ≤ max → reachable max m → manager_ok max m.
Proof.
  intros Hmax0. induction 1 as [p w w' m Hcreate | m m' c w w' _ IH Hcall].
  - by eapply VisitManagerCreate_ok.
  - by eapply run_call_ok.
Qed.


Corollary reachable_managers (max : Z) (m : VisitManager) :
  0 ≤ max → reachable max m →
  max_visits m = max ∧ arrays_allocated m ∧ records_fit m ∧ within_bound m.
Proof.
  intros Hmax0 Hreach.
  pose proof (capacity_bound_when_defined max m Hmax0 Hreach) as Hok.
  pose proof Hok as [Hmax _]. split; [done|].
  apply manager_ok_consequences. by rewrite Hmax.
Qed.

(** ** Visit ids stay unique *)

Lemma swap_remove_submseteq (j : nat) (vs : list slot) : swap_remove j vs ⊆+ vs.
Proof.
  destruct (decide (j < length vs)%nat) as [Hj|Hj].
  - rewrite (swap_remove_perm j vs Hj). apply sublist_submseteq, sublist_delete.
  - unfold swap_remove. destruct (decide (j < length vs - 1)%nat); [lia|].
    apply sublist_submseteq, sublist_take.
Qed.

Lemma submseteq_ids_unique (vs vs0 : list slot) :
  vs ⊆+ vs0 → NoDup (ids_of vs0) → NoDup (ids_of vs).
Proof.
  intros Hsub Hnd. unfold ids_of in *.
  apply (fmap_submseteq (fun s => visit_id (visit s))) in Hsub.
  apply submseteq_Permutation in Hsub as [k Hk]. rewrite Hk in Hnd.
  by apply NoDup_app in Hnd as [? _].
Qed.

Lemma make_room_submseteq (max : Z) (vs0 vs : list slot) (w w' : World) :
  make_room max vs0 w = Done vs w' → vs ⊆+ vs0.
Proof.
  unfold make_room. destruct (max <=? _).
  - destruct vs0 as [|s0 rest]; [done|].
    intros H. apply ret_Done in H as [<- _]. apply swap_remove_submseteq.
  - intros H. by apply ret_Done in H as [<- _].
Qed.

Lemma ids_unique_insert (m : VisitManager) (i : nat) (u : UserVisits) :
  ids_unique m → NoDup (ids_of (visits u)) →
  ids_unique (set_users m (<[i := u]> (users m))).
Proof. intros Hm Hu. unfold ids_unique. simpl. by apply Forall_insert. Qed.

Lemma ids_unique_lookup (m : VisitManager) (i : nat) (u : UserVisits) :
  ids_unique m → users m !! i = Some u → NoDup (ids_of (visits u)).
Proof. intros Hm Hu. unfold ids_unique in Hm. rewrite Forall_lookup in Hm. eauto. Qed.

Lemma add_to_user_ids_unique (m m' : VisitManager) (i : nat) (user : UserVisits)
    (vid : Z) (url_arg text_arg : list byte) (w w' : World) (b : bool) :
  add_to_user m i user vid url_arg text_arg w = Done (b, m') w' →
  users m !! i = Some user →
  ids_unique m → ids_unique m'.
Proof.
  intros H Hlook Hm. pose proof (ids_unique_lookup _ _ _ Hm Hlook) as Hu.
  revert H. unfold add_to_user.
  destruct (has_visit vid (visits user)) eqn:Hfresh; [by intros [= _ <-]|].
  rewrite bind_Done. intros ([new_visit|] & w1 & Hnew & H);
    [|by apply ret_Done in H as [[= _ <-] _]].
  apply bind_Done in H as (vs & w2 & Hroom & H).
  apply bind_Done in H as (grown & w3 & Hgrow & H).
  pose proof (make_room_submseteq _ _ _ _ _ Hroom) as Hsub.
  pose proof (submseteq_ids_unique _ _ Hsub Hu) as Hvs.
  destruct grown as [user2|].
  - apply store_visit_Done in H as [_ ->].
    destruct (grow_visits_spec _ _ _ _ _ Hgrow) as (_ & Hvs2 & _). simpl in Hvs2.
    apply ids_unique_insert; [done|]. simpl. rewrite Hvs2.
    unfold ids_of. rewrite fmap_app. apply NoDup_app. split_and!.
    + exact Hvs.
    + intros x Hx Hx'. apply list_elem_of_singleton in Hx'. subst x.
      apply list_elem_of_fmap in Hx as (s & Hid & Hs).
      rewrite has_visit_false in Hfresh. apply (Hfresh s).
      * eapply elem_of_submseteq; [exact Hs | exact Hsub].
      * destruct (create_visit_terminated _ _ _ _ _ _ Hnew) as [_ Hvid]. congruence.
    + apply NoDup_singleton.
  - apply ret_Done in H as [[= _ <-] _]. by apply ids_unique_insert.
Qed.

Lemma add_visit_ids_unique (m m' : VisitManager) (uid vid : Z)
    (url_arg text_arg : list byte) (w w' : World) (b : bool) :
  add_visit m uid vid url_arg text_arg w = Done (b, m') w' →
  ids_unique m → ids_unique m'.
Proof.
  unfold add_visit. rewrite bind_Done.
  intros ([m1 oi] & w1 & Hloc & H) Hm. simpl in H.
  destruct (find_or_create_user_spec _ _ _ _ _ _ Hloc) as (_ & _ & Hcase).
  assert (ids_unique m1) as Hm1.
  { unfold ids_unique. destruct oi as [i|].
    - destruct Hcase as [(user & _ & -> & _)|(_ & user & -> & _ & _ & Hvs & _)]; [done|].
      apply Forall_app. split; [done|]. constructor; [|constructor].
      rewrite Hvs. constructor.
    - by rewrite Hcase. }
  destruct oi as [i|]; [|by apply ret_Done in H as [[= _ <-] _]].
  destruct (users m1 !! i) as [user|] eqn:Hlook; [|done].
  by eapply add_to_user_ids_unique.
Qed.

(** Every call keeps the visit ids of every record pairwise distinct:
    VisitManagerAddVisit refuses an id the record holds, and the other
    calls only remove or rearrange visits. A fresh manager has no visit. *)
Lemma run_call_keeps_ids_unique (c : call) (m m' : VisitManager) (w w' : World) :
  run_call c m w = Done (Some m') w' → ids_unique m → ids_unique m'.
Proof.
  intros H Hm. destruct c as [uid vid [u|] [t|]|uid count_arg|uid ids|uid];
    simpl in H.
  - apply bind_Done in H as ([b om] & w1 & H & Hr).
    apply ret_Done in Hr as [Hr _]. simpl in Hr. subst om.
    apply bind_Done in H as ([b' m1] & w2 & H & Hr).
    apply ret_Done in Hr as [[= _ <-] _]. by eapply add_visit_ids_unique.
  - apply ret_Done in H as [[= <-] _]. done.
  - apply ret_Done in H as [[= <-] _]. done.
  - apply ret_Done in H as [[= <-] _]. done.
  - apply bind_Done in H as ([r om] & w1 & H & Hr).
    apply ret_Done in Hr as [Hr _]. simpl in Hr. subst om.
    destruct count_arg; [|by apply ret_Done in H as [[= _ <-] _]].
    destruct (find_user m uid) as [[i user]|] eqn:Hfind;
      [|by apply ret_Done in H as [[= _ <-] _]].
    destruct (find_user_lookup _ _ _ _ Hfind) as [Hlook _].
    apply bind_Done in H as (vs & w2 & Hsort & H).
    apply ret_Done in H as [[= _ <-] _].
    apply ids_unique_insert; [done|]. simpl.
    apply sort_visits_Done in Hsort as [_ Hperm].
    unfold ids_of. rewrite Hperm. by eapply ids_unique_lookup.
  - apply bind_Done in H as ([b om] & w1 & H & Hr).
    apply ret_Done in Hr as [Hr _]. simpl in Hr. subst om.
    unfold VisitManagerDelete in H.
    destruct ids as [[|id ids]|]; try by apply ret_Done in H as [[= _ <-] _].
    destruct (find_user m uid) as [[i user]|] eqn:Hfind;
      [|by apply ret_Done in H as [[= _ <-] _]].
    destruct (find_user_lookup _ _ _ _ Hfind) as [Hlook _].
    cbv zeta in H.
    assert (ids_unique
              (set_users m
                 (<[i := set_visits user (delete_ids (id :: ids) (visits user)).1]>
                    (users m)))) as Hok.
    { apply ids_unique_insert; [done|]. simpl.
      pose proof (ids_unique_lookup _ _ _ Hm Hlook) as Hu.
      unfold ids_of. rewrite (delete_ids_perm (id :: ids) (visits user) false Hu).
      eapply sublist_NoDup; [exact Hu|]. apply fmap_sublist, sublist_filter. }
    destruct (delete_ids (id :: ids) (visits user)).2.
    + apply bind_Done in H as (? & ? & _ & H). by apply ret_Done in H as [[= _ <-] _].
    + by apply ret_Done in H as [[= _ <-] _].
  - unfold VisitManagerClear in H.
    destruct (find_user m uid) as [[i user]|] eqn:Hfind;
      [|by apply ret_Done in H as [[= <-] _]].
    cbv zeta in H. apply bind_Done in H as (? & ? & _ & H).
    apply ret_Done in H as [[= <-] _].
    apply ids_unique_insert; [done|]. constructor.
Qed.


(** ** Strings stay terminated *)

Lemma strings_terminated_lookup (m : VisitManager) (i : nat) (u : UserVisits) :
  strings_terminated m → users m !! i = Some u → Forall visit_terminated (visits u).
Proof. intros Hm Hu. unfold strings_terminated in Hm. rewrite Forall_lookup in Hm. eauto. Qed.

Lemma Forall_submseteq {A} (P : A → Prop) (l k : list A) :
  l ⊆+ k → Forall P k → Forall P l.
Proof.
  intros Hsub Hk. rewrite Forall_forall in Hk. apply Forall_forall.
  intros x Hx. apply Hk. by eapply elem_of_submseteq.
Qed.

Lemma add_to_user_strings_terminated (m m' : VisitManager) (i : nat) (user : UserVisits)
    (vid : Z) (url_arg text_arg : list byte) (w w' : World) (b : bool) :
  add_to_user m i user vid url_arg text_arg w = Done (b, m') w' →
  users m !! i = Some user →
  strings_terminated m → strings_terminated m'.
Proof.
  intros H Hlook Hm. pose proof (strings_terminated_lookup _ _ _ Hm Hlook) as Hu.
  revert H. unfold add_to_user.
  destruct (has_visit vid (visits user)); [by intros [= _ <-]|].
  rewrite bind_Done. intros ([new_visit|] & w1 & Hnew & H);
    [|by apply ret_Done in H as [[= _ <-] _]].
  apply bind_Done in H as (vs & w2 & Hroom & H).
  apply bind_Done in H as (grown & w3 & Hgrow & H).
  pose proof (Forall_submseteq _ _ _ (make_room_submseteq _ _ _ _ _ Hroom) Hu) as Hvs.
  destruct grown as [user2|].
  - apply store_visit_Done in H as [_ ->].
    destruct (grow_visits_spec _ _ _ _ _ Hgrow) as (_ & Hvs2 & _). simpl in Hvs2.
    apply strings_terminated_insert; [done|]. simpl. rewrite Hvs2.
    apply Forall_app. split; [done|]. constructor; [|constructor].
    by destruct (create_visit_terminated _ _ _ _ _ _ Hnew).
  - apply ret_Done in H as [[= _ <-] _]. by apply strings_terminated_insert.
Qed.

(** Every call keeps the stored strings terminated: the strings that
    VisitManagerAddVisit stores are copies made by strdup. *)
Lemma run_call_keeps_strings_terminated (c : call) (m m' : VisitManager) (w w' : World) :
  run_call c m w = Done (Some m') w' → strings_terminated m → strings_terminated m'.
Proof.
  intros H Hm. destruct c as [uid vid [u|] [t|]|uid count_arg|uid ids|uid];
    simpl in H.
  - apply bind_Done in H as ([b om] & w1 & H & Hr).
    apply ret_Done in Hr as [Hr _]. simpl in Hr. subst om.
    apply bind_Done in H as ([b' m1] & w2 & H & Hr).
    apply ret_Done in Hr as [[= _ <-] _].
    revert H. unfold add_visit. rewrite bind_Done.
    intros ([m1' oi] & w3 & Hloc & H). simpl in H.
    destruct (find_or_create_user_spec _ _ _ _ _ _ Hloc) as (_ & _ & Hcase).
    assert (strings_terminated m1') as Hm1.
    { unfold strings_terminated. destruct oi as [i|].
      - destruct Hcase as [(user & _ & -> & _)|(_ & user & -> & _ & _ & Hvs & _)]; [done|].
        apply Forall_app. split; [done|]. constructor; [|constructor].
        rewrite Hvs. constructor.
      - by rewrite Hcase. }
    destruct oi as [i|]; [|by apply ret_Done in H as [[= _ <-] _]].
    destruct (users m1' !! i) as [user|] eqn:Hlook; [|done].
    by eapply add_to_user_strings_terminated.
  - apply ret_Done in H as [[= <-] _]. done.
  - apply ret_Done in H as [[= <-] _]. done.
  - apply ret_Done in H as [[= <-] _]. done.
  - apply bind_Done in H as ([r om] & w1 & H & Hr).
    apply ret_Done in Hr as [Hr _]. simpl in Hr. subst om.
    destruct count_arg; [|by apply ret_Done in H as [[= _ <-] _]].
    destruct (find_user m uid) as [[i user]|] eqn:Hfind;
      [|by apply ret_Done in H as [[= _ <-] _]].
    destruct (find_user_lookup _ _ _ _ Hfind) as [Hlook _].
    apply bind_Done in H as (vs & w2 & Hsort & H).
    apply ret_Done in H as [[= _ <-] _].
    apply strings_terminated_insert; [done|]. simpl.
    apply sort_visits_Done in Hsort as [_ Hperm].
    rewrite Hperm. by eapply strings_terminated_lookup.
  - apply bind_Done in H as ([b om] & w1 & H & Hr).
    apply ret_Done in Hr as [Hr _]. simpl in Hr. subst om.
    unfold VisitManagerDelete in H.
    destruct ids as [[|id ids]|]; try by apply ret_Done in H as [[= _ <-] _].
    destruct (find_user m uid) as [[i user]|] eqn:Hfind;
      [|by apply ret_Done in H as [[= _ <-] _]].
    destruct (find_user_lookup _ _ _ _ Hfind) as [Hlook _].
    cbv zeta in H.
    assert (strings_terminated
              (set_users m
                 (<[i := set_visits user (delete_ids (id :: ids) (visits user)).1]>
                    (users m)))) as Hok.
    { apply strings_terminated_insert; [done|]. simpl.
      pose proof (strings_terminated_lookup _ _ _ Hm Hlook) as Hu.
      rewrite Forall_forall in Hu. apply Forall_forall. intros s Hs.
      apply Hu. by apply (delete_ids_subset (id :: ids)). }
    destruct (delete_ids (id :: ids) (visits user)).2.
    + apply bind_Done in H as (? & ? & _ & H). by apply ret_Done in H as [[= _ <-] _].
    + by apply ret_Done in H as [[= _ <-] _].
  - unfold VisitManagerClear in H.
    destruct (find_user m uid) as [[i user]|] eqn:Hfind;
      [|by apply ret_Done in H as [[= <-] _]].
    cbv zeta in H. apply bind_Done in H as (? & ? & _ & H).
    apply ret_Done in H as [[= <-] _].
    apply strings_terminated_insert; [done|]. constructor.
Qed.

(** ** Creating a manager *)

(** Without a file, VisitManagerCreate returns the fresh manager, given
    memory for its three blocks. *)
Lemma create_without_file (p : string) (max : Z) (w : World) :
  disk w p = None → heap_ok 3 w →
  ∃ arr, arr ≠ 0
    ∧ VisitManagerCreate p max w
      = Done (Some {| users_at := arr; users := []; user_capacity := 10;
                      max_visits := max; path := p |})
          (set_heap w (drop 3 (heap w))).
Proof.
  intros Hdisk Hheap. unfold VisitManagerCreate, fopen_rb.
  unfold bind at 1. rewrite Hdisk. unfold bind at 1. unfold ret at 1.
  malloc_step 2%nat Hheap. malloc_step 1%nat Hheap0. malloc_step 0%nat Hheap1.
  exists p2. split; [by apply Z.eqb_neq|]. unfold ret. by rewrite !set_heap_drop.
Qed.

(** When the load yields no manager, VisitManagerCreate goes on to the
    fresh manager, and it returns NULL only if one of the three
    allocations for it fails. *)
Lemma create_after_failed_load (p : string) (max : Z) (w w1 : World) :
  is_Some (disk w p) →
  deserialize_manager p max w = Done None w1 →
  (heap_ok 3 w1 →
   ∃ arr, VisitManagerCreate p max w
          = Done (Some {| users_at := arr; users := []; user_capacity := 10;
                          max_visits := max; path := p |})
              (set_heap w1 (drop 3 (heap w1))))
  ∧ (∀ w', VisitManagerCreate p max w = Done None w' → ¬ heap_ok 3 w1).
Proof.
  intros [f Hdisk] Hload.
  assert (∀ r w', VisitManagerCreate p max w = Done r w' ↔
                  bind (malloc 40) (fun manager =>
                    if manager =? 0 then ret None
                    else bind (malloc (Z.of_nat (String.length p) + 1)) (fun path_copy =>
                      if path_copy =? 0 then ret None
                      else bind (malloc (wrap64 (10 * 8))) (fun arr =>
                        if arr =? 0 then ret None
                        else ret (Some {| users_at := arr; users := [];
                                          user_capacity := 10; max_visits := max;
                                          path := p |})))) w1 = Done r w') as Hcreate.
  { intros r w'. unfold VisitManagerCreate, fopen_rb. unfold bind at 1. rewrite Hdisk.
    unfold bind at 1. by rewrite Hload. }
  split.
  - intros Hheap.
    destruct (malloc_ok 2 40 w1 Hheap) as (p0 & _ & Hp0 & Hm0 & Hheap0).
    destruct (malloc_ok 1 (Z.of_nat (String.length p) + 1) _ Hheap0)
      as (p1 & _ & Hp1 & Hm1 & Hheap1).
    destruct (malloc_ok 0 (wrap64 (10 * 8)) _ Hheap1) as (p2 & _ & Hp2 & Hm2 & _).
    exists p2. apply Hcreate. unfold bind. rewrite Hm0, Hp0, Hm1, Hp1, Hm2, Hp2.
    unfold ret. by rewrite !set_heap_drop.
  - intros w' Hnone Hheap. apply Hcreate in Hnone.
    destruct (malloc_ok 2 40 w1 Hheap) as (p0 & _ & Hp0 & Hm0 & Hheap0).
    destruct (malloc_ok 1 (Z.of_nat (String.length p) + 1) _ Hheap0)
      as (p1 & _ & Hp1 & Hm1 & Hheap1).
    destruct (malloc_ok 0 (wrap64 (10 * 8)) _ Hheap1) as (p2 & _ & Hp2 & Hm2 & _).
    unfold bind in Hnone. rewrite Hm0, Hp0, Hm1, Hp1, Hm2, Hp2 in Hnone. done.
Qed.

Lemma malloc_Done (size : Z) (w : World) : ∃ p w', malloc size w = Done p w'.
Proof. unfold malloc. destruct (heap w); by eexists _, _. Qed.

(** A load that fails before any user is read (a file shorter than its
    header) releases what it holds and yields no manager. *)
Lemma short_header_yields_no_manager (p : string) (max : Z) (f : list byte) (w : World) :
  disk w p = Some f → (length f < 16)%nat →
  ∃ w1, deserialize_manager p max w = Done None w1.
Proof.
  intros Hdisk Hlen. unfold deserialize_manager, fopen_rb.
  unfold bind at 1. rewrite Hdisk.
  unfold bind at 1. destruct (malloc_Done 40 w) as (p0 & w0 & ->).
  destruct (p0 =? 0); [by eexists|].
  unfold bind at 1.
  destruct (malloc_Done (Z.of_nat (String.length p) + 1) w0) as (p1 & w1 & ->).
  destruct (p1 =? 0); [by eexists|].
  destruct (fread 8 f) as [[b1 f1]|] eqn:Hr1; [|by eexists].
  destruct (fread 8 f1) as [[b2 f2]|] eqn:Hr2; [|by eexists].
  exfalso. unfold fread in Hr1, Hr2.
  destruct (8 <=? Z.of_nat (length f)) eqn:H8; [|done]. injection Hr1 as <- <-.
  rewrite length_drop in Hr2.
  destruct (8 <=? _) eqn:H8' in Hr2; [|done].
  apply Z.leb_le in H8, H8'. lia.
Qed.

(** With zeros in the memory the program has not written, the truncated
    file is given up and the fresh manager is returned. *)
Lemma create_on_truncated_file_in_zeroed_memory :
  ∃ arr w',
    VisitManagerCreate "visit_test.dat" 5 truncated_world_zeroed
    = Done (Some {| users_at := arr; users := []; user_capacity := 10;
                    max_visits := 5; path := "visit_test.dat" |}) w'.
Proof. eexists _, _. vm_compute. reflexivity. Qed.

(** C9, at a failing input. The file announces one user and ends after
    its header, and the block obtained for the users array holds a
    non-zero word, as memory that was used before does. The read of the
    user fails, and the loop at the label cleanup takes the word in
    [users[0]], which was never written, for a record to release:
    VisitManagerCreate does not come back with a fresh manager, its
    behaviour is undefined. *)
Theorem C9_truncated_file_breaks_create :
  VisitManagerCreate "visit_test.dat" 5 truncated_world = Undefined.
Proof. vm_compute. reflexivity. Qed.

(** ** A capacity bound of zero *)

(** C3, at a failing input. With [max_visits = 0] the first add to a
    fresh manager finds [visit_count >= max_visits] true on the empty
    record and enters the eviction branch, which reads
    [user->visits[0]->time] where no slot is live: the behaviour is
    undefined, and nothing bounds the count afterwards. *)
Theorem C3_zero_capacity_is_undefined :
  add_with_zero_capacity demo_world = Undefined.
Proof. vm_compute. reflexivity. Qed.

(** With [max_visits = 1] the same call is defined, and so is the next
    one, which evicts the first visit. *)
Example capacity_one_is_defined :
  ∃ om w',
    two_adds_with_capacity_one demo_world = Done (true, om) w'
    ∧ ids_of (visits_of om 1) = [102].
Proof. eexists _, _. split; [vm_compute; reflexivity | reflexivity]. Qed.

(** * What the calls change, and what they keep *)

(** ** Searching a list of records *)

Lemma list_find_app_none {A} (P : A → Prop) `{∀ x, Decision (P x)} (l k : list A) :
  Forall (fun x => ¬ P x) k → list_find P (l ++ k) = list_find P l.
Proof.
  intros Hk. induction l as [|x l IH]; simpl.
  - apply list_find_None. done.
  - destruct (decide (P x)); [done|]. by rewrite IH.
Qed.

Lemma list_find_app_new {A} (P : A → Prop) `{∀ x, Decision (P x)} (l : list A) (x : A) :
  list_find P l = None → P x → list_find P (l ++ [x]) = Some (length l, x).
Proof.
  intros Hnone Hx. apply list_find_Some. split_and!.
  - rewrite lookup_app_r by lia. by rewrite Nat.sub_diag.
  - done.
  - intros j y Hj Hlt. rewrite lookup_app_l in Hj by lia.
    apply list_find_None in Hnone. rewrite Forall_forall in Hnone.
    apply Hnone. by eapply list_elem_of_lookup_2.
Qed.

Lemma list_find_Forall2 {A} (P : A → Prop) `{∀ x, Decision (P x)} (R : A → A → Prop)
    (l k : list A) :
  Forall2 R l k →
  (∀ x y, R x y → P x ∨ P y → y = x) →
  list_find P k = list_find P l.
Proof.
  intros Hlk HR. induction Hlk as [|x y l k Hxy _ IH]; [done|]. simpl.
  destruct (decide (P x)) as [Hx|Hx].
  - rewrite (HR x y Hxy (or_introl Hx)). by rewrite decide_True.
  - destruct (decide (P y)) as [Hy|Hy].
    + rewrite (HR x y Hxy (or_intror Hy)) in Hy. done.
    + by rewrite IH.
Qed.

Lemma Forall2_insert_same {A} (R : A → A → Prop) (l : list A) (i : nat) (x y : A) :
  (∀ z, R z z) → l !! i = Some x → R x y → Forall2 R l (<[i := y]> l).
Proof.
  intros Hrefl Hi Hxy.
  rewrite <- (list_insert_id l i x Hi) at 1.
  apply Forall2_insert; [|done].
  apply Forall_Forall2_diag, Forall_forall. intros z _. apply Hrefl.
Qed.

Lemma record_step_refl (c : call) (u : UserVisits) : record_step c u u.
Proof. by left. Qed.

(** ** The shape of every call *)

Lemma add_to_user_step (m m' : VisitManager) (i : nat) (user : UserVisits)
    (vid : Z) (url_arg text_arg : list byte) (w w' : World) (b : bool) :
  add_to_user m i user vid url_arg text_arg w = Done (b, m') w' →
  m' = m
  ∨ ∃ user', m' = set_users m (<[i := user']> (users m))
             ∧ user_id user' = user_id user
             ∧ ∀ s, s ∈ visits user' → s ∈ visits user ∨ visit_id (visit s) = vid.
Proof.
  unfold add_to_user.
  destruct (has_visit vid (visits user)); [intros [= _ <-]; by left|].
  rewrite bind_Done. intros ([new_visit|] & w1 & Hnew & H);
    [|apply ret_Done in H as [[= _ <-] _]; by left].
  apply bind_Done in H as (vs & w2 & Hroom & H).
  apply bind_Done in H as (grown & w3 & Hgrow & H).
  pose proof (make_room_submseteq _ _ _ _ _ Hroom) as Hsub.
  right. destruct grown as [user2|].
  - apply store_visit_Done in H as [_ ->].
    destruct (grow_visits_spec _ _ _ _ _ Hgrow) as (Hid & Hvs2 & _). simpl in Hid, Hvs2.
    eexists. split; [done|]. simpl. split; [done|].
    intros s Hs. rewrite Hvs2 in Hs. apply elem_of_app in Hs as [Hs|Hs].
    + left. by eapply elem_of_submseteq.
    + right. apply list_elem_of_singleton in Hs as ->.
      by destruct (create_visit_terminated _ _ _ _ _ _ Hnew).
  - apply ret_Done in H as [[= _ <-] _].
    eexists. split; [done|]. simpl. split; [done|].
    intros s Hs. left. by eapply elem_of_submseteq.
Qed.

Lemma add_visit_step (m m' : VisitManager) (uid vid : Z)
    (url_arg text_arg : list byte) (w w' : World) (b : bool) (u t : option (list byte)) :
  add_visit m uid vid url_arg text_arg w = Done (b, m') w' →
  manager_step (CallAddVisit uid vid u t) m m'.
Proof.
  unfold add_visit. rewrite bind_Done.
  intros ([m1 oi] & w1 & Hloc & H). simpl in H.
  destruct (find_or_create_user_spec _ _ _ _ _ _ Hloc) as (Hmax & Hpath & Hcase).
  destruct oi as [i|].
  - destruct (users m1 !! i) as [user|] eqn:Hlook; [|done].
    assert (user_id user = uid
            ∧ ∃ extra, users m1 = users m ++ extra
                ∧ (extra = []
                   ∨ (find_user m uid = None
                      ∧ ∃ user0, extra = [user0] ∧ user_id user0 = uid ∧ visits user0 = [])))
      as (Hid & extra & Hus & Hextra).
    { destruct Hcase as [(user0 & Hfind & -> & _)|(Hnone & user0 & Hus & -> & Hid & Hvs & _)].
      - destruct (find_user_lookup _ _ _ _ Hfind) as [Hlook0 Hid0].
        rewrite Hlook in Hlook0. injection Hlook0 as ->.
        split; [done|]. exists []. rewrite app_nil_r. split; [done | by left].
      - rewrite Hus in Hlook. rewrite lookup_app_r in Hlook by lia.
        rewrite Nat.sub_diag in Hlook. injection Hlook as <-.
        split; [done|]. exists [user0]. split; [done|]. right. split; [done|]. by exists user0. }
    destruct (add_to_user_step _ _ _ _ _ _ _ _ _ _ H) as [->|(user' & -> & Hid' & Hvs')].
    + split_and!; try done. exists extra. split; [|done]. rewrite <- Hus.
      apply Forall_Forall2_diag, Forall_forall. intros z _. apply record_step_refl.
    + simpl. split_and!; try done. exists extra. split; [|done]. rewrite <- Hus.
      eapply Forall2_insert_same; [apply record_step_refl | exact Hlook |].
      right. simpl. split_and!; [done | congruence | done].
  - apply ret_Done in H as [[= _ <-] _]. split_and!; try done.
    exists []. rewrite app_nil_r, Hcase. split; [|by left].
    apply Forall_Forall2_diag, Forall_forall. intros z _. apply record_step_refl.
Qed.

Lemma manager_step_refl (c : call) (m : VisitManager) : manager_step c m m.
Proof.
  split_and!; try done. exists []. rewrite app_nil_r. split; [|by left].
  apply Forall_Forall2_diag, Forall_forall. intros z _. apply record_step_refl.
Qed.

Lemma manager_step_insert (c : call) (m : VisitManager) (i : nat) (user : UserVisits)
    (vs : list slot) :
  find_user m (call_user c) = Some (i, user) →
  (∀ s, s ∈ vs → s ∈ visits user) →
  manager_step c m (set_users m (<[i := set_visits user vs]> (users m))).
Proof.
  intros Hfind Hvs. destruct (find_user_lookup _ _ _ _ Hfind) as [Hlook Hid].
  split_and!; try done. exists []. rewrite app_nil_r. split; [|by left]. simpl.
  eapply Forall2_insert_same; [apply record_step_refl | exact Hlook |].
  right. simpl. split_and!; try done. intros s Hs. left. by apply Hvs.
Qed.

(** Every call that returns has changed the manager within the limits of
    [manager_step]. *)
Lemma run_call_step (c : call) (m m' : VisitManager) (w w' : World) :
  run_call c m w = Done (Some m') w' → manager_step c m m'.
Proof.
  intros H. destruct c as [uid vid [u|] [t|]|uid count_arg|uid ids|uid]; simpl in H.
  - apply bind_Done in H as ([b om] & w1 & H & Hr).
    apply ret_Done in Hr as [Hr _]. simpl in Hr. subst om.
    apply bind_Done in H as ([b' m1] & w2 & H & Hr).
    apply ret_Done in Hr as [[= _ <-] _]. by eapply add_visit_step.
  - apply ret_Done in H as [[= <-] _]. apply manager_step_refl.
  - apply ret_Done in H as [[= <-] _]. apply manager_step_refl.
  - apply ret_Done in H as [[= <-] _]. apply manager_step_refl.
  - apply bind_Done in H as ([r om] & w1 & H & Hr).
    apply ret_Done in Hr as [Hr _]. simpl in Hr. subst om.
    destruct count_arg; [|apply ret_Done in H as [[= _ <-] _]; apply manager_step_refl].
    destruct (find_user m uid) as [[i user]|] eqn:Hfind;
      [|apply ret_Done in H as [[= _ <-] _]; apply manager_step_refl].
    apply bind_Done in H as (vs & w2 & Hsort & H).
    apply ret_Done in H as [[= _ <-] _].
    apply (manager_step_insert (CallGetRecentVisits uid true)); [done|].
    apply sort_visits_Done in Hsort as [_ Hperm].
    intros s Hs. by rewrite Hperm in Hs.
  - apply bind_Done in H as ([b om] & w1 & H & Hr).
    apply ret_Done in Hr as [Hr _]. simpl in Hr. subst om.
    unfold VisitManagerDelete in H.
    destruct ids as [[|id ids]|];
      try (apply ret_Done in H as [[= _ <-] _]; apply manager_step_refl).
    destruct (find_user m uid) as [[i user]|] eqn:Hfind;
      [|apply ret_Done in H as [[= _ <-] _]; apply manager_step_refl].
    cbv zeta in H.
    assert (manager_step (CallDelete uid (Some (id :: ids))) m
              (set_users m
                 (<[i := set_visits user (delete_ids (id :: ids) (visits user)).1]>
                    (users m)))) as Hok.
    { apply (manager_step_insert (CallDelete uid (Some (id :: ids)))); [done|].
      intros s Hs. by apply (delete_ids_subset (id :: ids)). }
    destruct (delete_ids (id :: ids) (visits user)).2.
    + apply bind_Done in H as (? & ? & _ & H). by apply ret_Done in H as [[= _ <-] _].
    + by apply ret_Done in H as [[= _ <-] _].
  - unfold VisitManagerClear in H.
    destruct (find_user m uid) as [[i user]|] eqn:Hfind;
      [|apply ret_Done in H as [[= <-] _]; apply manager_step_refl].
    cbv zeta in H. apply bind_Done in H as (? & ? & _ & H).
    apply ret_Done in H as [[= <-] _].
    apply (manager_step_insert (CallClear uid)); [done|].
    intros s Hs. by apply elem_of_nil in Hs.
Qed.

(** ** Other users *)

(** X1. A call about one user changes nothing for any other user: the
    record found for another user id after the call is the record found
    before it, at the same index. This holds for all four calls, whatever
    they return. *)
Theorem X1_other_users_untouched (c : call) (m m' : VisitManager) (w w' : World)
    (uid : Z) :
  run_call c m w = Done (Some m') w' →
  uid ≠ call_user c →
  find_user m' uid = find_user m uid.
Proof.
  intros Hrun Hother.
  destruct (run_call_step _ _ _ _ _ Hrun) as (_ & _ & extra & Hall & Hextra).
  unfold find_user.
  rewrite (list_find_Forall2 (fun u => user_id u = uid) (record_step c) _ _ Hall).
  - apply list_find_app_none.
    destruct Hextra as [->|(_ & user & -> & Hid & _)]; [constructor|].
    constructor; [|constructor]. congruence.
  - intros x y [->|(Hx & Hy & _)] [H|H]; try done; congruence.
Qed.

Lemma X1_other_users_untouched_witness :
  ∃ m' w',
    run_call (CallClear 1) demo_manager demo_world = Done (Some m') w'
    ∧ find_user m' 2 = find_user demo_manager 2.
Proof.
  eexists _, _. split; [vm_compute; reflexivity|].
  eapply (X1_other_users_untouched (CallClear 1) demo_manager _ demo_world).
  - vm_compute. reflexivity.
  - discriminate.
Defined.

(** ** Known users *)

(** X2. No call removes or reorders records: the user ids of the records
    after a call are those before it, in the same order, followed by the
    id of the call's user if that user had no record (and only an add does
    that). User ids that were pairwise distinct stay so. *)
Theorem X2_users_only_appended (c : call) (m m' : VisitManager) (w w' : World) :
  run_call c m w = Done (Some m') w' →
  (user_id <$> users m' = user_id <$> users m
   ∨ (find_user m (call_user c) = None
      ∧ user_id <$> users m' = (user_id <$> users m) ++ [call_user c]))
  ∧ (NoDup (user_id <$> users m) → NoDup (user_id <$> users m')).
Proof.
  intros Hrun.
  destruct (run_call_step _ _ _ _ _ Hrun) as (_ & _ & extra & Hall & Hextra).
  assert (user_id <$> users m' = user_id <$> (users m ++ extra)) as Hids.
  { symmetry. eapply Forall2_fmap_eq; [|exact Hall].
    intros u u' [->|(Hu & Hu' & _)]; congruence. }
  assert (user_id <$> users m' = user_id <$> users m
          ∨ (find_user m (call_user c) = None
             ∧ user_id <$> users m' = (user_id <$> users m) ++ [call_user c])) as Hcase.
  { destruct Hextra as [->|(Hnone & user & -> & Hid & _)].
    - left. by rewrite Hids, app_nil_r.
    - right. split; [done|]. by rewrite Hids, fmap_app, <- Hid. }
  split; [done|]. intros Hnd. destruct Hcase as [->|[Hnone ->]]; [done|].
  apply NoDup_app. split_and!; [done | | apply NoDup_singleton].
  intros x Hx Hx'. apply list_elem_of_singleton in Hx' as ->.
  apply list_elem_of_fmap in Hx as (u & Hid & Hu).
  unfold find_user in Hnone. apply list_find_None in Hnone.
  rewrite Forall_forall in Hnone. by apply (Hnone u).
Qed.

Lemma X2_users_only_appended_witness :
  ∃ m' w',
    run_call (CallAddVisit 7 701 (Some (c_string "u")) (Some (c_string "t")))
      demo_manager demo_world = Done (Some m') w'
    ∧ (user_id <$> users m' = [1; 2]
       ∨ (find_user demo_manager 7 = None ∧ user_id <$> users m' = [1; 2; 7]))
    ∧ (NoDup [1; 2] → NoDup (user_id <$> users m')).
Proof.
  eexists _, _. split; [vm_compute; reflexivity|].
  eapply (X2_users_only_appended
            (CallAddVisit 7 701 (Some (c_string "u")) (Some (c_string "t")))
            demo_manager _ demo_world).
  vm_compute. reflexivity.
Defined.

(** ** Stored visits *)

(** X3. No call alters a stored visit. A visit found in a record after a
    call was in the record at the same index before the call, with the
    same pointer, id, strings and timestamp; the only other visits are
    those an add creates, in the record of the user of the add and with
    the visit id of the add. *)
Theorem X3_stored_visits_never_altered (c : call) (m m' : VisitManager) (w w' : World)
    (k : nat) (u' : UserVisits) (s : slot) :
  run_call c m w = Done (Some m') w' →
  users m' !! k = Some u' →
  s ∈ visits u' →
  (∃ u, users m !! k = Some u ∧ user_id u = user_id u' ∧ s ∈ visits u)
  ∨ (user_id u' = call_user c ∧ call_adds c s).
Proof.
  intros Hrun Hk Hs.
  destruct (run_call_step _ _ _ _ _ Hrun) as (_ & _ & extra & Hall & Hextra).
  destruct (Forall2_lookup_r _ _ _ _ _ Hall Hk) as (u & Hu & Hstep).
  destruct (decide (k < length (users m))%nat) as [Hlt|Hge].
  - rewrite lookup_app_l in Hu by done.
    destruct Hstep as [->|(Hid & Hid' & Hvs)].
    + left. by exists u.
    + destruct (Hvs s Hs) as [Hold|Hnew].
      * left. exists u. split_and!; [done | congruence | done].
      * by right.
  - destruct Hextra as [->|(_ & user & -> & Hid & Hempty)].
    + rewrite app_nil_r in Hu. apply lookup_lt_Some in Hu. lia.
    + rewrite lookup_app_r in Hu by lia.
      apply list_lookup_singleton_Some in Hu as [_ <-].
      destruct Hstep as [->|(_ & Hid' & Hvs)].
      * rewrite Hempty in Hs. by apply elem_of_nil in Hs.
      * destruct (Hvs s Hs) as [Hold|Hnew]; [|by right].
        rewrite Hempty in Hold. by apply elem_of_nil in Hold.
Qed.

Lemma X3_stored_visits_never_altered_witness :
  ∃ m' w' u',
    run_call (CallDelete 1 (Some [102])) demo_manager demo_world = Done (Some m') w'
    ∧ users m' !! 0%nat = Some u'
    ∧ visit_103 ∈ visits u'
    ∧ ((∃ u, users demo_manager !! 0%nat = Some u ∧ user_id u = user_id u'
             ∧ visit_103 ∈ visits u)
       ∨ (user_id u' = 1 ∧ False)).
Proof.
  eexists _, _, _. split; [vm_compute; reflexivity|].
  split; [reflexivity|]. split; [right; left|].
  eapply (X3_stored_visits_never_altered (CallDelete 1 (Some [102])) demo_manager _
            demo_world _ 0%nat _ visit_103).
  - vm_compute. reflexivity.
  - reflexivity.
  - right. left.
Defined.

(** ** The query *)





(** ** Adding and finding *)

(** X5. After VisitManagerAddVisit has returned true, the user is known
    and its record holds a visit with the given visit id, whether the
    visit was added by this call or was there before. *)
Theorem X5_added_visit_is_found (m m' : VisitManager) (uid vid : Z)
    (url_arg text_arg : list byte) (w w' : World) :
  VisitManagerAddVisit (Some m) uid vid (Some url_arg) (Some text_arg) w
  = Done (true, Some m') w' →
  ∃ i user s,
    find_user m' uid = Some (i, user) ∧ s ∈ visits user ∧ visit_id (visit s) = vid.
Proof.
  unfold VisitManagerAddVisit. rewrite bind_Done.
  intros ([b m1] & w1 & Hadd & H). apply ret_Done in H as [[= -> <-] _].
  revert Hadd. unfold add_visit. rewrite bind_Done.
  intros ([m0 oi] & w2 & Hloc & H). simpl in H.
  destruct (find_or_create_user_spec _ _ _ _ _ _ Hloc) as (_ & _ & Hcase).
  destruct oi as [i|]; [|by apply ret_Done in H as [[= ] _]].
  destruct (users m0 !! i) as [user|] eqn:Hlook; [|done].
  assert (find_user m0 uid = Some (i, user)) as Hfind.
  { destruct Hcase as [(user0 & Hfind & -> & _)|(Hnone & user0 & Hus & -> & Hid & _)].
    - destruct (find_user_lookup _ _ _ _ Hfind) as [Hlook0 _]. congruence.
    - rewrite Hus in Hlook. rewrite lookup_app_r in Hlook by lia.
      rewrite Nat.sub_diag in Hlook. injection Hlook as <-.
      unfold find_user. rewrite Hus. by apply list_find_app_new. }
  destruct (find_user_lookup _ _ _ _ Hfind) as [_ Hid].
  revert H. unfold add_to_user.
  destruct (has_visit vid (visits user)) eqn:Hhas.
  - intros [= <-]. apply has_visit_true in Hhas as (s & Hs & Hvid). by exists i, user, s.
  - rewrite bind_Done. intros ([new_visit|] & w3 & Hnew & H);
      [|by apply ret_Done in H as [[= ] _]].
    apply bind_Done in H as (vs & w4 & Hroom & H).
    apply bind_Done in H as (grown & w5 & Hgrow & H).
    destruct grown as [user2|]; [|by apply ret_Done in H as [[= ] _]].
    apply store_visit_Done in H as [_ ->].
    destruct (grow_visits_spec _ _ _ _ _ Hgrow) as (Hid2 & _ & _). simpl in Hid2.
    eexists i, _, new_visit. split_and!.
    + apply (find_user_insert m0 uid i user); [done|]. simpl. congruence.
    + simpl. apply elem_of_app. right. by apply list_elem_of_singleton.
    + by destruct (create_visit_terminated _ _ _ _ _ _ Hnew).
Qed.

Lemma X5_added_visit_is_found_witness :
  ∃ m' w' i user s,
    VisitManagerAddVisit (Some demo_manager) 2 201 (Some (c_string "https://example.org/1"))
      (Some (c_string "Org 1")) demo_world = Done (true, Some m') w'
    ∧ find_user m' 2 = Some (i, user) ∧ s ∈ visits user ∧ visit_id (visit s) = 201.
Proof.
  assert (∃ m' w',
            VisitManagerAddVisit (Some demo_manager) 2 201
              (Some (c_string "https://example.org/1")) (Some (c_string "Org 1")) demo_world
            = Done (true, Some m') w') as (m' & w' & Hrun)
    by (eexists _, _; vm_compute; reflexivity).
  destruct (X5_added_visit_is_found _ _ _ _ _ _ _ _ Hrun) as (i & user & s & H).
  exists m', w', i, user, s. split; [exact Hrun | exact H].
Defined.

(** * Calls that are defined *)

(** ** The steps of an add always come back *)

Lemma strdup_defined (s : list byte) (w : World) :
  terminated s → ∃ r w', strdup s w = Done r w'.
Proof.
  intros [n Hn]. unfold strdup. rewrite Hn. unfold bind, ret.
  destruct (malloc_Done (Z.of_nat n + 1) w) as (p & w' & ->). by eexists _, _.
Qed.

Lemma timespec_get_defined (w : World) : ∃ t w', timespec_get w = Done t w'.
Proof. unfold timespec_get. destruct (clock w); by eexists _, _. Qed.

Lemma create_visit_defined (vid : Z) (u t : list byte) (w : World) :
  terminated u → terminated t → ∃ r w', create_visit vid u t w = Done r w'.
Proof.
  intros Hu Ht. unfold create_visit. unfold bind at 1.
  destruct (malloc_Done 40 w) as (p & w1 & ->).
  destruct (p =? 0); [by eexists _, _|].
  unfold bind at 1. destruct (strdup_defined u w1 Hu) as ([ubuf|] & w2 & ->);
    [|by eexists _, _].
  unfold bind at 1. destruct (strdup_defined t w2 Ht) as ([tbuf|] & w3 & ->);
    [|by eexists _, _].
  unfold bind. destruct (timespec_get_defined w3) as (now & w4 & ->). by eexists _, _.
Qed.

Lemma create_user_defined (uid cap : Z) (w : World) :
  ∃ r w', create_user uid cap w = Done r w'.
Proof.
  unfold create_user. unfold bind at 1.
  destruct (malloc_Done 32 w) as (p & w1 & ->).
  destruct (p =? 0); [by eexists _, _|].
  unfold bind. destruct (malloc_Done (wrap64 (cap * 8)) w1) as (q & w2 & ->).
  destruct (q =? 0); by eexists _, _.
Qed.

Lemma make_room_defined (max : Z) (vs0 : list slot) (w : World) :
  1 ≤ max → ∃ vs, make_room max vs0 w = Done vs w.
Proof.
  intros Hmax. unfold make_room.
  destruct (max <=? Z.of_nat (length vs0)) eqn:Hfull; [|by eexists].
  apply Z.leb_le in Hfull. destruct vs0 as [|s0 rest]; [simpl in Hfull; lia|]. by eexists.
Qed.

(** What "check if we need to resize visits array" leaves, case by case. *)
Lemma grow_visits_cases (max : Z) (user : UserVisits) (w : World) :
  ∃ r w',
    grow_visits max user w = Done r w'
    ∧ match r with
      | None => True
      | Some user' =>
          (visit_count user < capacity user ∧ user' = user)
          ∨ (capacity user ≤ visit_count user
             ∧ user_id user' = user_id user
             ∧ visits user' = visits user
             ∧ capacity user'
               = (if max <? wrap64 (capacity user * 2) then max
                  else wrap64 (capacity user * 2)))
      end.
Proof.
  unfold grow_visits. destruct (capacity user <=? visit_count user) eqn:Hle.
  - apply Z.leb_le in Hle. unfold bind.
    destruct (malloc_Done
                (wrap64 ((if max <? wrap64 (capacity user * 2) then max
                          else wrap64 (capacity user * 2)) * 8)) w) as (p & w1 & ->).
    destruct (p =? 0); eexists _, _; (split; [done|]); [done|].
    right. by split_and!.
  - apply Z.leb_gt in Hle. eexists _, _. split; [done|]. by left.
Qed.

(** ** Sane states *)

Lemma block_slots_sane (n : Z) : 0 ≤ n < 2 ^ 60 → block_slots n = n.
Proof. intros H. apply block_slots_exact; lia. Qed.

Lemma manager_sane_lookup (m : VisitManager) (i : nat) (u : UserVisits) :
  manager_sane m → users m !! i = Some u →
  record_sane (max_visits m) u ∧ Forall visit_terminated (visits u).
Proof.
  intros (_ & _ & _ & _ & Hall & Hterm) Hu. split.
  - rewrite Forall_lookup in Hall. eauto.
  - by eapply strings_terminated_lookup.
Qed.

Lemma manager_sane_insert (m : VisitManager) (i : nat) (u : UserVisits) :
  manager_sane m → record_sane (max_visits m) u → Forall visit_terminated (visits u) →
  manager_sane (set_users m (<[i := u]> (users m))).
Proof.
  intros (Hmax & Hcap1 & Hfit & Hcap2 & Hall & Hterm) Hu Hut.
  unfold manager_sane, user_count in *. simpl. rewrite length_insert.
  do 4 (split; [done|]). split; [by apply Forall_insert | by apply strings_terminated_insert].
Qed.

Lemma record_sane_shrink (max : Z) (u : UserVisits) (vs : list slot) :
  record_sane max u → (length vs ≤ length (visits u))%nat → record_sane max (set_visits u vs).
Proof.
  intros (Hcap & Hfit & Hmax) Hlen. unfold record_sane, visit_count in *. simpl.
  split_and!; try done; lia.
Qed.


Lemma find_or_create_user_sane (m : VisitManager) (uid : Z) (w : World) :
  manager_sane m → user_count m < 2 ^ 59 →
  ∃ m1 oi w1,
    find_or_create_user m uid w = Done (m1, oi) w1
    ∧ manager_sane m1
    ∧ ∀ i, oi = Some i → is_Some (users m1 !! i).
Proof.
  intros Hm Hcount. pose proof Hm as (Hmax & Hcap1 & Hfit & Hcap2 & Hall & Hterm).
  unfold find_or_create_user.
  destruct (find_user m uid) as [[i user]|] eqn:Hfind.
  { exists m, (Some i), w. split_and!; try done. intros ? [= <-].
    destruct (find_user_lookup _ _ _ _ Hfind) as [Hlook _]. by eexists. }
  assert (∀ m1 : VisitManager,
            max_visits m1 = max_visits m → users m1 = users m →
            1 ≤ user_capacity m1 < 2 ^ 60 → user_count m < user_capacity m1 →
            user_capacity m1 ≤ Z.max 10 (2 * user_count m + 2) →
            (user_capacity m1 ≤ Z.max 10 (2 * user_count m)
             ∨ user_capacity m1 = 2 * user_count m) →
            ∀ w0, ∃ m2 oi w1,
              bind (create_user uid (max_visits m1)) (fun u =>
                match u with
                | None => ret (m1, None)
                | Some user =>
                    if user_count m1 <? block_slots (user_capacity m1)
                    then ret (set_users m1 (users m1 ++ [user]), Some (length (users m1)))
                    else undefined
                end) w0 = Done (m2, oi) w1
              ∧ manager_sane m2
              ∧ ∀ i, oi = Some i → is_Some (users m2 !! i)) as Hcreate.
  { intros m1 Hmax1 Hus1 Hc1 Hc2 Hc3 Hc4 w0. unfold bind.
    destruct (create_user_defined uid (max_visits m1) w0) as ([user|] & w1 & Hcu);
      rewrite Hcu.
    - destruct (create_user_spec _ _ _ _ _ Hcu) as (Hid & Hvs & Hcap & Hat).
      assert (user_count m1 = user_count m) as Hcount1 by (unfold user_count; by rewrite Hus1).
      rewrite Hcount1, block_slots_sane by lia.
      destruct (user_count m <? user_capacity m1) eqn:Hin; [|apply Z.ltb_ge in Hin; lia].
      eexists _, _, _. split; [done|]. split.
      + unfold manager_sane, user_count in *. simpl. rewrite Hus1, length_app. simpl.
        rewrite Hmax1. split_and!; try lia.
        * apply Forall_app. split; [done|]. constructor; [|constructor].
          unfold record_sane, visit_count. rewrite Hvs, Hcap, Hmax1. simpl. lia.
        * unfold strings_terminated. simpl. apply Forall_app. split; [done|].
          constructor; [|constructor]. rewrite Hvs. constructor.
      + intros i [= <-]. simpl. rewrite lookup_app_r by lia.
        rewrite Nat.sub_diag. by eexists.
    - eexists _, _, _. split; [done|]. split; [|done].
      unfold manager_sane, user_count in *. rewrite Hus1, Hmax1.
      split_and!; try done; try lia.
      unfold strings_terminated. by rewrite Hus1. }
  unfold bind at 1.
  destruct (user_capacity m <=? user_count m) eqn:Hfull.
  - apply Z.leb_le in Hfull. unfold bind at 1.
    destruct (malloc_Done (wrap64 (wrap64 (user_capacity m * 2) * 8)) w) as (p & w1 & ->).
    destruct (p =? 0).
    + exists m, None, w1. by split_and!.
    + assert (wrap64 (user_capacity m * 2) = user_capacity m * 2) as Hwrap.
      { unfold wrap64. apply Z.mod_small. lia. }
      unfold ret at 1. cbv beta iota.
      apply Hcreate; simpl; rewrite ?Hwrap; try done; lia.
  - apply Z.leb_gt in Hfull. unfold ret at 1. cbv beta iota.
    apply Hcreate; try done; lia.
Qed.

Lemma add_to_user_sane (m : VisitManager) (i : nat) (user : UserVisits) (vid : Z)
    (url_arg text_arg : list byte) (w : World) :
  manager_sane m → users m !! i = Some user →
  terminated url_arg → terminated text_arg →
  ∃ b m' w',
    add_to_user m i user vid url_arg text_arg w = Done (b, m') w' ∧ manager_sane m'.
Proof.
  intros Hm Hlook Hu Ht. pose proof Hm as (Hmax & _).
  destruct (manager_sane_lookup _ _ _ Hm Hlook) as [(Hcap & Hfit & Hbound) Hterm].
  unfold add_to_user.
  destruct (has_visit vid (visits user)); [by eexists _, _, _|].
  unfold bind at 1.
  destruct (create_visit_defined vid url_arg text_arg w Hu Ht) as ([new_visit|] & w1 & Hnew);
    rewrite Hnew; [|by eexists _, _, _].
  destruct (create_visit_terminated _ _ _ _ _ _ Hnew) as [Hnewt _].
  unfold bind at 1.
  destruct (make_room_defined (max_visits m) (visits user) w1) as (vs & Hroom); [lia|].
  rewrite Hroom.
  destruct (make_room_Done _ _ _ _ _ Hroom) as [Hlen Hfree].
  pose proof (make_room_submseteq _ _ _ _ _ Hroom) as Hsub.
  unfold visit_count in Hfit, Hbound. specialize (Hfree Hbound).
  assert (Forall visit_terminated vs) as Hvst by (by eapply Forall_submseteq).
  unfold bind at 1.
  destruct (grow_visits_cases (max_visits m) (set_visits user vs) w1)
    as ([user2|] & w2 & Hgrow & Hcase); rewrite Hgrow.
  - assert (visits user2 = vs
            ∧ 1 ≤ capacity user2 < 2 ^ 60
            ∧ Z.of_nat (length vs) < capacity user2) as (Hvs2 & Hcap2 & Hfit2).
    { revert Hcase. unfold visit_count. simpl.
      intros [[Hlt ->]|(Hle & _ & Hvs2 & Hcap2)]; [simpl; split_and!; try done; lia|].
      split; [done|]. rewrite Hcap2.
      assert (wrap64 (capacity user * 2) = capacity user * 2) as ->
        by (unfold wrap64; apply Z.mod_small; lia).
      destruct (max_visits m <? capacity user * 2) eqn:Hmin; lia. }
    unfold store_visit, visit_count. rewrite Hvs2, block_slots_sane by lia.
    destruct (Z.of_nat (length vs) <? capacity user2) eqn:Hin; [|apply Z.ltb_ge in Hin; lia].
    set (m' := set_users m (<[i := set_visits user2 (vs ++ [new_visit])]> (users m))).
    assert (manager_sane m') as Hm'.
    { apply manager_sane_insert; [done | |].
      - unfold record_sane, visit_count. simpl. rewrite length_app. simpl. lia.
      - simpl. apply Forall_app. split; [done|]. by constructor. }
    destruct (serialize_manager_done m' w2) as [w3 Hser]; [by destruct Hm' as (_&_&_&_&_&?)|].
    exists true, m', w3. split; [|done]. unfold bind. fold m'. by rewrite Hser.
  - eexists _, _, _. split; [done|].
    apply manager_sane_insert; [done | by apply record_sane_shrink | done].
Qed.





(** X25. A query on a short array is undefined. When the array of a
    record has at most three elements (a capacity bound of at most three,
    or a record loaded from a file that held at most three visits for the
    user), the first comparison qsort makes reads the word at offset 24
    from an element, which lies behind the array: the query is undefined
    as soon as the library compares at all, as every library does when
    there are two visits or more. *)
Theorem X25_query_reads_behind_short_array (m : VisitManager) (uid : Z) (i : nat)
    (user : UserVisits) (w : World) :
  find_user m uid = Some (i, user) →
  block_slots (capacity user) ≤ 3 →
  compares (libc_qsort w (length (visits user))) →
  VisitManagerGetRecentVisits (Some m) uid true w = Undefined.
Proof.
  intros Hfind Hshort Hcompares.
  unfold VisitManagerGetRecentVisits, bind. rewrite Hfind.
  unfold sort_visits, qsort.
  assert (∀ vs, run_sorter (libc_qsort w (length (visits user))) compare_visits
                  (visits_at user) (block_slots (capacity user)) (junk w) vs = None) as ->;
    [|done].
  induction (libc_qsort w (length (visits user))) as [|a b rest IH|a b rest IH];
    intros vs; simpl in *.
  - done.
  - by apply IH.
  - unfold compare_visits.
    replace (visits_at user + 8 * Z.of_nat a + 24)
      with (visits_at user + 8 * (Z.of_nat a + 3)) by lia.
    rewrite load_outside by lia. done.
Qed.

Lemma X25_query_reads_behind_short_array_witness :
  VisitManagerGetRecentVisits (Some demo_manager) 1 true demo_world = Undefined.
Proof.
  apply (X25_query_reads_behind_short_array demo_manager 1 0%nat demo_user demo_world).
  - reflexivity.
  - vm_compute. discriminate.
  - by_computation.
Defined.

(** A fresh manager with a capacity bound from 1 to below 2^60 is sane. *)
Lemma fresh_manager_sane (arr max : Z) (p : string) :
  1 ≤ max < 2 ^ 60 →
  manager_sane {| users_at := arr; users := []; user_capacity := 10;
                  max_visits := max; path := p |}.
Proof.
  intros Hmax. unfold manager_sane, user_count. simpl.
  split_and!; try done; try lia; constructor.
Qed.

(** * What the program does to the world *)

Lemma evolves_refl (p : option string) (w : World) : evolves p w w.
Proof. split_and!; try done; by exists 0%nat. Qed.

Lemma evolves_trans (p : option string) (w1 w2 w3 : World) :
  evolves p w1 w2 → evolves p w2 w3 → evolves p w1 w3.
Proof.
  intros ([k1 Hh1] & [t1 Hc1] & Hl1 & Hj1 & Hd1) ([k2 Hh2] & [t2 Hc2] & Hl2 & Hj2 & Hd2).
  split_and!.
  - exists (k1 + k2)%nat. by rewrite Hh2, Hh1, drop_drop.
  - exists (t1 + t2)%nat. by rewrite Hc2, Hc1, drop_drop.
  - congruence.
  - congruence.
  - intros q Hq. by rewrite Hd2, Hd1.
Qed.

Lemma evolves_weaken (p : option string) (w w' : World) : evolves None w w' → evolves p w w'.
Proof.
  intros (Hh & Hc & Hl & Hj & Hd). split_and!; try done. intros q _. by apply Hd.
Qed.

Lemma frames_weaken {A} (p : option string) (c : M A) : frames None c → frames p c.
Proof. intros H w a w' Hrun. eapply evolves_weaken, H, Hrun. Qed.

Lemma frames_ret {A} (p : option string) (a : A) : frames p (ret a).
Proof. intros w b w' [_ <-]%ret_Done. apply evolves_refl. Qed.

Lemma frames_undefined {A} (p : option string) : frames p (@undefined A).
Proof. by intros w a w' H. Qed.

Lemma frames_bind {A B} (p : option string) (c : M A) (k : A → M B) :
  frames p c → (∀ a, frames p (k a)) → frames p (bind c k).
Proof.
  intros Hc Hk w b w' (a & w1 & H1 & H2)%bind_Done.
  eapply evolves_trans; [by eapply Hc | by eapply Hk].
Qed.

Lemma frames_malloc (p : option string) (size : Z) : frames p (malloc size).
Proof.
  intros w a w'. unfold malloc. destruct (heap w) as [|x h] eqn:Hh.
  - intros [= _ <-]. apply evolves_refl.
  - intros [= _ <-]. split_and!; try done; [|by exists 0%nat].
    exists 1%nat. by rewrite Hh.
Qed.

Lemma frames_timespec_get (p : option string) : frames p timespec_get.
Proof.
  intros w a w'. unfold timespec_get. destruct (clock w) as [|x h] eqn:Hh.
  - intros [= _ <-]. apply evolves_refl.
  - intros [= _ <-]. split_and!; try done; [by exists 0%nat|].
    exists 1%nat. by rewrite Hh.
Qed.

Lemma frames_read_junk (p : option string) (addr : Z) : frames p (read_junk addr).
Proof. intros w a w' [= _ <-]. apply evolves_refl. Qed.

Lemma frames_fopen_rb (p : option string) (q : string) : frames p (fopen_rb q).
Proof. intros w a w' [= _ <-]. apply evolves_refl. Qed.


(** Composite code is framed by taking it apart. *)
Ltac framed :=
  repeat first
    [ apply frames_ret | apply frames_undefined | apply frames_malloc
    | apply frames_timespec_get | apply frames_read_junk | apply frames_fopen_rb
    | apply frames_bind; [|intros ?]
    | match goal with
      | |- frames _ (if ?b then _ else _) => destruct b
      | |- frames _ (match ?x with _ => _ end) => destruct x
      end ].

Lemma frames_strdup (p : option string) (s : list byte) : frames p (strdup s).
Proof. unfold strdup. framed. Qed.

Lemma frames_create_user (p : option string) (uid cap : Z) : frames p (create_user uid cap).
Proof. unfold create_user. framed. Qed.

Lemma frames_create_visit (p : option string) (vid : Z) (u t : list byte) :
  frames p (create_visit vid u t).
Proof.
  unfold create_visit.
  repeat first [ apply frames_strdup | progress framed ].
Qed.

Lemma frames_read_visit (p : option string) (f : list byte) : frames p (read_visit f).
Proof. unfold read_visit. framed. Qed.

Lemma frames_read_visits (p : option string) (n : nat) (j max : Z) (user : UserVisits)
    (f : list byte) :
  frames p (read_visits n j max user f).
Proof.
  revert j user f. induction n as [|n IH]; intros j user f; cbn [read_visits]; [framed|].
  apply frames_bind; [apply frames_read_visit|]. intros [[s f']|]; [|framed].
  destruct (j <? max); [destruct (j <? _); [apply IH | framed] | apply IH].
Qed.

Lemma frames_cleanup_from (p : option string) (n : nat) (i arr : Z) :
  frames p (cleanup_from n i arr).
Proof.
  revert i. induction n as [|n IH]; intros i; cbn [cleanup_from]; [framed|].
  apply frames_bind; [framed|]. intros x. destruct (x =? 0); [apply IH | framed].
Qed.

Lemma frames_cleanup (p : option string) (m : VisitManager) (total : Z) :
  frames p (cleanup m total).
Proof.
  unfold cleanup. apply frames_bind; [apply frames_cleanup_from | intros; framed].
Qed.

Lemma frames_read_users (p : option string) (n : nat) (total : Z) (m : VisitManager)
    (f : list byte) :
  frames p (read_users n total m f).
Proof.
  revert m f. induction n as [|n IH]; intros m f; cbn [read_users]; [framed|].
  destruct (fread 4 f) as [[b_uid f1]|]; [|apply frames_cleanup].
  destruct (fread 8 f1) as [[b_count f2]|]; [|apply frames_cleanup].
  cbv zeta. apply frames_bind; [apply frames_create_user|].
  intros [user|]; [|apply frames_cleanup].
  destruct (user_count m <? _); [|framed].
  apply frames_bind; [apply frames_read_visits|].
  intros [[user' f3]|]; [apply IH | apply frames_cleanup].
Qed.

Lemma frames_deserialize_manager (p : option string) (q : string) (max : Z) :
  frames p (deserialize_manager q max).
Proof.
  unfold deserialize_manager.
  repeat first [ apply frames_read_users | progress framed ].
Qed.

Lemma frames_VisitManagerCreate (p : option string) (q : string) (max : Z) :
  frames p (VisitManagerCreate q max).
Proof.
  unfold VisitManagerCreate.
  apply frames_bind; [framed|]. intros file.
  apply frames_bind; [destruct file; [apply frames_deserialize_manager | framed]|].
  intros loaded. framed.
Qed.

Lemma frames_find_or_create_user (p : option string) (m : VisitManager) (uid : Z) :
  frames p (find_or_create_user m uid).
Proof.
  unfold find_or_create_user.
  destruct (find_user m uid) as [[i user]|]; [framed|].
  apply frames_bind; [framed|]. intros [m1|]; [|framed].
  apply frames_bind; [apply frames_create_user|]. intros u. framed.
Qed.






(** X8. VisitManagerCreate writes nothing: whether it loads the file,
    gives up on it or finds none, every file is afterwards what it was
    before; a fresh manager has no file until the first call that
    serializes. *)
Theorem X8_create_writes_nothing (p : string) (max : Z) (w w' : World)
    (r : option VisitManager) (q : string) :
  VisitManagerCreate p max w = Done r w' → disk w' q = disk w q.
Proof.
  intros Hrun.
  destruct (frames_VisitManagerCreate None p max w r w' Hrun) as (_ & _ & _ & _ & Hd).
  by apply Hd.
Qed.

Lemma X8_create_writes_nothing_witness :
  ∃ r w',
    VisitManagerCreate "rv.dat" 10 demo_world = Done r w'
    ∧ disk w' "rv.dat" = disk demo_world "rv.dat".
Proof.
  assert (∃ r w', VisitManagerCreate "rv.dat" 10 demo_world = Done r w')
    as (r & w' & Hrun) by (eexists _, _; vm_compute; reflexivity).
  exists r, w'. split; [exact Hrun|].
  exact (X8_create_writes_nothing _ _ _ _ _ "rv.dat" Hrun).
Defined.

(** * Adds that succeed *)

Lemma strdup_ok (n k : nat) (s : list byte) (w : World) :
  strlen s = Some k → heap_ok (S n) w →
  strdup s w = Done (Some (take (S k) s)) (set_heap w (drop 1 (heap w)))
  ∧ heap_ok n (set_heap w (drop 1 (heap w))).
Proof.
  intros Hs Hheap. unfold strdup. rewrite Hs.
  malloc_step n Hheap. by split.
Qed.

Lemma timespec_get_next (w : World) :
  ∃ w', timespec_get w = Done (next_time w) w'
        ∧ heap w' = heap w ∧ clock w' = drop 1 (clock w)
        ∧ disk w' = disk w ∧ locked w' = locked w ∧ junk w' = junk w.
Proof.
  unfold timespec_get, next_time. destruct (clock w) as [|t rest] eqn:Hc.
  - exists w. by rewrite Hc.
  - eexists. split; [done|]. simpl. by rewrite drop_0.
Qed.

Lemma after_refl (w : World) : after 0 0 w w.
Proof. unfold after. by rewrite !drop_0. Qed.

Lemma after_trans (k t k' t' : nat) (w w1 w2 : World) :
  after k t w w1 → after k' t' w1 w2 → after (k + k') (t + t') w w2.
Proof.
  intros (Hh & Hc & Hd & Hl & Hj) (Hh' & Hc' & Hd' & Hl' & Hj'). unfold after.
  rewrite Hh', Hh, Hc', Hc, !drop_drop. split_and!; congruence.
Qed.

Lemma after_set_heap (k : nat) (w : World) : after k 0 w (set_heap w (drop k (heap w))).
Proof. unfold after. simpl. by rewrite drop_0. Qed.

Lemma after_heap_ok (k t n : nat) (w w1 : World) :
  after k t w w1 → heap_ok (k + n) w → heap_ok n w1.
Proof.
  intros (Hh & _) Hheap. apply heap_ok_drop in Hheap.
  unfold heap_ok in *. simpl in Hheap. by rewrite Hh.
Qed.

Lemma create_visit_ok (vid : Z) (u t : list byte) (nu nt : nat) (w : World) :
  strlen u = Some nu → strlen t = Some nt → heap_ok 3 w →
  ∃ p w1,
    p ≠ 0
    ∧ create_visit vid u t w
      = Done (Some {| ptr := p;
                      visit := {| visit_id := vid; url := take (S nu) u;
                                  text := take (S nt) t; time := next_time w |} |}) w1
    ∧ after 3 1 w w1.
Proof.
  intros Hu Ht Hheap. unfold create_visit.
  destruct (malloc_ok 2 40 w Hheap) as (p & Hp & Hp0 & Hm & Hheap1).
  unfold bind at 1. rewrite Hm, Hp0.
  destruct (strdup_ok 1 nu u _ Hu Hheap1) as [Hsu Hheap2].
  unfold bind at 1. rewrite Hsu.
  destruct (strdup_ok 0 nt t _ Ht Hheap2) as [Hst _].
  unfold bind at 1. rewrite Hst.
  match goal with
  | |- context [bind timespec_get _ ?W] =>
      destruct (timespec_get_next W) as (w1 & Hnow & Hh & Hc & Hd & Hl & Hj)
  end.
  unfold bind. rewrite Hnow. exists p, w1. split; [done|]. split; [done|].
  unfold after. rewrite Hh, Hc, Hd, Hl, Hj. simpl. by rewrite !drop_drop.
Qed.

Lemma make_room_any_world (max : Z) (vs kept : list slot) (w w' : World) :
  make_room max vs w = Done kept w' →
  w' = w ∧ ∀ w0, make_room max vs w0 = Done kept w0.
Proof.
  unfold make_room. destruct (max <=? _).
  - destruct vs as [|s0 rest]; [done|]. by intros [<- <-]%ret_Done.
  - by intros [<- <-]%ret_Done.
Qed.

Lemma grow_visits_ok (max : Z) (user : UserVisits) (w : World) :
  heap_ok 1 w →
  ∃ user2 w1 k,
    grow_visits max user w = Done (Some user2) w1 ∧ (k ≤ 1)%nat ∧ after k 0 w w1.
Proof.
  intros Hheap. unfold grow_visits. destruct (capacity user <=? visit_count user).
  - malloc_step 0%nat Hheap. eexists _, _, 1%nat. split; [done|]. split; [lia|].
    apply after_set_heap.
  - eexists _, _, 0%nat. split; [done|]. split; [lia|]. apply after_refl.
Qed.

Lemma find_or_create_user_ok (m : VisitManager) (uid : Z) (w : World) :
  manager_sane m → user_count m < 2 ^ 59 → heap_ok 3 w →
  ∃ m1 i user w1 k,
    find_or_create_user m uid w = Done (m1, Some i) w1
    ∧ find_user m1 uid = Some (i, user)
    ∧ visits user = visits_of (Some m) uid
    ∧ manager_sane m1 ∧ max_visits m1 = max_visits m ∧ path m1 = path m
    ∧ (k ≤ 3)%nat ∧ after k 0 w w1.
Proof.
  intros Hm Hcount Hheap.
  destruct (find_or_create_user_sane m uid w Hm Hcount)
    as (m1 & oi & w1 & Hrun & Hm1 & _).
  destruct (find_or_create_user_spec _ _ _ _ _ _ Hrun) as (Hmax & Hpath & Hcase).
  assert (∃ i k, oi = Some i ∧ (k ≤ 3)%nat ∧ after k 0 w w1) as (i & k & -> & Hk & Hafter).
  { revert Hrun. unfold find_or_create_user.
    destruct (find_user m uid) as [[i user]|] eqn:Hfind.
    { intros [= _ <- <-]. exists i, 0%nat. split; [done|]. split; [lia | apply after_refl]. }
    destruct (user_capacity m <=? user_count m) eqn:Hfull.
    - destruct (malloc_ok 2 (wrap64 (wrap64 (user_capacity m * 2) * 8)) w Hheap)
        as (p & _ & Hp0 & Hmal & Hheap1).
      unfold bind at 1 2. rewrite Hmal, Hp0. unfold ret at 1.
      destruct (create_user_ok uid (max_visits m) _ Hheap1) as (q & _ & Hcu).
      unfold bind. cbn [max_visits]. rewrite Hcu.
      destruct (_ <? _); [|done]. intros [= _ <- <-].
      eexists _, 3%nat. split; [done|]. split; [lia|].
      rewrite set_heap_drop. apply after_set_heap.
    - unfold bind at 1. unfold ret at 1.
      destruct (create_user_ok uid (max_visits m) w) as (q & _ & Hcu).
      { eapply heap_ok_le; [|exact Hheap]. lia. }
      unfold bind. rewrite Hcu.
      destruct (_ <? _); [|done]. intros [= _ <- <-].
      eexists _, 2%nat. split; [done|]. split; [lia|]. apply after_set_heap. }
  destruct Hcase as [(user & Hfind & -> & _)|(Hnone & user & Hus & -> & Hid & Hvs & _)].
  - exists m, i, user, w1, k. split_and!; try done.
    unfold visits_of. by rewrite Hfind.
  - exists m1, (length (users m)), user, w1, k. split_and!; try done.
    + unfold find_user. rewrite Hus. by apply list_find_app_new.
    + unfold visits_of. by rewrite Hnone.
Qed.

Lemma add_to_user_succeeds (m : VisitManager) (i : nat) (user : UserVisits) (vid : Z)
    (u t : list byte) (nu nt : nat) (w : World) :
  manager_sane m → users m !! i = Some user → has_visit vid (visits user) = false →
  strlen u = Some nu → strlen t = Some nt → heap_ok 4 w →
  ∃ p kept user' w3 w' k,
    add_to_user m i user vid u t w
    = Done (true, set_users m (<[i := user']> (users m))) w'
    ∧ (∀ w0, make_room (max_visits m) (visits user) w0 = Done kept w0)
    ∧ visits user'
      = kept ++ [{| ptr := p;
                    visit := {| visit_id := vid; url := take (S nu) u;
                                text := take (S nt) t; time := next_time w |} |}]
    ∧ user_id user' = user_id user ∧ p ≠ 0
    ∧ serialize_manager (set_users m (<[i := user']> (users m))) w3 = Done tt w'
    ∧ (k ≤ 4)%nat ∧ after k 1 w w3
    ∧ manager_sane (set_users m (<[i := user']> (users m))).
Proof.
  intros Hm Hlook Hfresh Hu Ht Hheap.
  destruct (add_to_user_sane m i user vid u t w Hm Hlook)
    as (b & m' & w' & Hrun & Hm'); [by eexists | by eexists |].
  destruct (create_visit_ok vid u t nu nt w Hu Ht) as (p & w1 & Hp & Hnew & Hafter1).
  { eapply heap_ok_le; [|exact Hheap]. lia. }
  pose proof Hrun as Hrun0. revert Hrun. unfold add_to_user. rewrite Hfresh.
  unfold bind at 1. rewrite Hnew.
  rewrite bind_Done. intros (kept & w2 & Hroom & H).
  destruct (make_room_any_world _ _ _ _ _ Hroom) as [-> Hroom'].
  apply bind_Done in H as (grown & w3 & Hgrow & H).
  destruct (grow_visits_ok (max_visits m) (set_visits user kept) w1)
    as (user2 & w3' & k & Hgrow' & Hk & Hafter2).
  { eapply (after_heap_ok 3 1 1); [exact Hafter1 | exact Hheap]. }
  rewrite Hgrow' in Hgrow. injection Hgrow as <- <-.
  destruct (grow_visits_spec _ _ _ _ _ Hgrow') as (Hid2 & Hvs2 & _). simpl in Hid2, Hvs2.
  pose proof (store_visit_true _ _ _ _ _ _ _ _ H) as [-> ->].
  unfold store_visit in H. destruct (_ <? _); [|done].
  apply bind_Done in H as ([] & w4 & Hser & Hret). apply ret_Done in Hret as [_ <-].
  exists p, kept,
    (set_visits user2
       (visits user2
        ++ [{| ptr := p;
               visit := {| visit_id := vid; url := take (S nu) u;
                           text := take (S nt) t; time := next_time w |} |}])),
    w3', w4, (3 + k)%nat.
  split_and!; try done.
  - unfold add_to_user in Hrun0. by rewrite Hfresh in Hrun0.
  - simpl. by rewrite Hvs2.
  - lia.
  - apply (after_trans 3 1 k 0 w w1 w3' Hafter1 Hafter2).
Qed.

Lemma add_visit_succeeds (m : VisitManager) (uid vid : Z) (u t : list byte) (nu nt : nat)
    (w : World) :
  manager_sane m → user_count m < 2 ^ 59 →
  has_visit vid (visits_of (Some m) uid) = false →
  strlen u = Some nu → strlen t = Some nt → heap_ok 7 w →
  ∃ m' w' i user' p kept w3 k,
    add_visit m uid vid u t w = Done (true, m') w'
    ∧ find_user m' uid = Some (i, user')
    ∧ (∀ w0, make_room (max_visits m) (visits_of (Some m) uid) w0 = Done kept w0)
    ∧ visits user'
      = kept ++ [{| ptr := p;
                    visit := {| visit_id := vid; url := take (S nu) u;
                                text := take (S nt) t; time := next_time w |} |}]
    ∧ p ≠ 0
    ∧ manager_sane m' ∧ max_visits m' = max_visits m ∧ path m' = path m
    ∧ serialize_manager m' w3 = Done tt w'
    ∧ (k ≤ 7)%nat ∧ after k 1 w w3.
Proof.
  intros Hm Hcount Hfresh Hu Ht Hheap.
  destruct (find_or_create_user_ok m uid w Hm Hcount)
    as (m1 & i & user & w1 & k1 & Hloc & Hfind & Hvs & Hm1 & Hmax & Hpath & Hk1 & Hafter1).
  { eapply heap_ok_le; [|exact Hheap]. lia. }
  destruct (find_user_lookup _ _ _ _ Hfind) as [Hlook Hid].
  destruct (add_to_user_succeeds m1 i user vid u t nu nt w1 Hm1 Hlook)
    as (p & kept & user' & w3 & w' & k2 & Hrun & Hroom & Hvs' & Hid' & Hp & Hser & Hk2
        & Hafter2 & Hm'); try done.
  { by rewrite Hvs. }
  { eapply (after_heap_ok k1 0 4); [exact Hafter1|].
    eapply heap_ok_le; [|exact Hheap]. lia. }
  exists (set_users m1 (<[i := user']> (users m1))), w', i, user', p, kept, w3, (k1 + k2)%nat.
  split_and!; try done.
  - unfold add_visit, bind. rewrite Hloc. simpl. by rewrite Hlook.
  - apply (find_user_insert m1 uid i user); [done | congruence].
  - intros w0. rewrite <- Hvs, <- Hmax. apply Hroom.
  - rewrite Hvs'. do 4 f_equal. destruct Hafter1 as (_ & Hc & _).
    unfold next_time. by rewrite Hc, drop_0.
  - lia.
  - apply (after_trans k1 0 k2 1 w w1 w3 Hafter1 Hafter2).
Qed.

(** ** The capacity of a record after an add *)



(** * What an add stores, and what the file keeps *)

(** X9. An add that can succeed does. In a sane state, for a visit id the
    user does not hold yet (the user may be unknown), while the user holds
    fewer than [max_visits] visits, with C strings as arguments and memory
    for seven allocations: VisitManagerAddVisit returns true, the user is
    known afterwards, and its record holds the visits it held, in their
    order, followed by the new visit, whose strings are copies of the
    arguments up to and including their terminators and whose timestamp is
    the clock reading of the call. If the file cannot be opened for writing
    the call succeeds all the same and leaves every file as it was;
    otherwise the file at the manager's path holds the serialization of
    the new state. *)
Theorem X9_add_appends (m : VisitManager) (uid vid : Z) (u t : list byte) (nu nt : nat)
    (w : World) :
  manager_sane m → user_count m < 2 ^ 59 →
  has_visit vid (visits_of (Some m) uid) = false →
  Z.of_nat (length (visits_of (Some m) uid)) < max_visits m →
  strlen u = Some nu → strlen t = Some nt →
  heap_ok 7 w →
  ∃ m' w' i user' p,
    VisitManagerAddVisit (Some m) uid vid (Some u) (Some t) w = Done (true, Some m') w'
    ∧ find_user m' uid = Some (i, user')
    ∧ p ≠ 0
    ∧ visits user'
      = visits_of (Some m) uid
        ++ [{| ptr := p;
               visit := {| visit_id := vid; url := take (S nu) u;
                           text := take (S nt) t; time := next_time w |} |}]
    ∧ (if locked w (path m) then ∀ q, disk w' q = disk w q
       else disk w' (path m) = manager_bytes m').
Proof.
  intros Hm Hcount Hfresh Hroom Hu Ht Hheap.
  destruct (add_visit_succeeds m uid vid u t nu nt w Hm Hcount Hfresh Hu Ht Hheap)
    as (m' & w' & i & user' & p & kept & w3 & k & Hrun & Hfind & Hkept & Hvs & Hp
        & _ & _ & Hpath & Hser & _ & (_ & _ & Hd & Hl & _)).
  exists m', w', i, user', p. split_and!; try done.
  - unfold VisitManagerAddVisit, bind, ret. by rewrite Hrun.
  - rewrite Hvs. f_equal.
    specialize (Hkept w). rewrite (make_room_keeps _ _ _ Hroom) in Hkept. congruence.
  - revert Hser. unfold serialize_manager, write_file. rewrite Hpath, Hl.
    destruct (locked w (path m)).
    + intros [= <-] q. by rewrite Hd.
    + destruct (manager_bytes m') as [bs|]; [|done]. intros [= <-]. simpl.
      by rewrite String.eqb_refl.
Qed.

Lemma X9_add_appends_witness :
  ∃ m' w' i user' p,
    VisitManagerAddVisit (Some demo_manager) 2 201 (Some (c_string "https://example.org/1"))
      (Some (c_string "Org 1")) demo_world = Done (true, Some m') w'
    ∧ find_user m' 2 = Some (i, user')
    ∧ p ≠ 0
    ∧ visits user'
      = visits_of (Some demo_manager) 2
        ++ [{| ptr := p;
               visit := {| visit_id := 201; url := take 22 (c_string "https://example.org/1");
                           text := take 6 (c_string "Org 1");
                           time := next_time demo_world |} |}]
    ∧ (if locked demo_world (path demo_manager) then ∀ q, disk w' q = disk demo_world q
       else disk w' (path demo_manager) = manager_bytes m').
Proof.
  apply (X9_add_appends demo_manager 2 201 (c_string "https://example.org/1")
           (c_string "Org 1") 21 5 demo_world).
  - by_computation.
  - vm_compute. reflexivity.
  - reflexivity.
  - vm_compute. reflexivity.
  - reflexivity.
  - reflexivity.
  - by_computation.
Defined.

(** ** Reloading what an add has written *)

Lemma create_loads (p : string) (max : Z) (m : VisitManager) (w w' : World) :
  is_Some (disk w p) →
  deserialize_manager p max w = Done (Some m) w' →
  VisitManagerCreate p max w = Done (Some m) w'.
Proof.
  intros [f Hf] Hload. unfold VisitManagerCreate, fopen_rb, bind. by rewrite Hf, Hload.
Qed.

(** Loading the file that holds what serialize_manager writes of [m]. *)
Lemma reload_written (m : VisitManager) (ws : list (Z * list Visit)) (w1 : World) :
  mapM written_user (users m) = Some ws →
  disk w1 (path m) = Some (file_image (max_visits m) ws) →
  manager_fits m → within_bound m →
  heap_ok (3 + sum_list ((fun u => 2 + 3 * length (visits u))%nat <$> users m)) w1 →
  ∃ m' w2,
    deserialize_manager (path m) (max_visits m) w1 = Done (Some m') w2
    ∧ max_visits m' = max_visits m
    ∧ user_id <$> users m' = user_id <$> users m
    ∧ tuples m' = tuples m.
Proof.
  intros Hws Hdisk [Hcount Hfits] Hmax Hheap. unfold within_bound in Hmax.
  pose proof Hws as Hall. apply mapM_Some in Hall.
  assert (allocations ws = sum_list ((fun u => 2 + 3 * length (visits u))%nat <$> users m))
    as Hallocs.
  { unfold allocations. f_equal. symmetry. eapply Forall2_fmap_eq; [|exact Hall].
    intros u r Hur. destruct (written_user_spec _ _ Hur) as [_ H2].
    simpl. by rewrite (Forall2_length _ _ _ H2). }
  destruct (deserialize_image (path m) (max_visits m) (max_visits m) ws w1 Hdisk)
    as (m' & Hrun & Hmax' & Hpath' & _ & Hloaded).
  { by rewrite <- (Forall2_length _ _ _ Hall). }
  { eapply Forall2_Forall_r; [exact Hall|].
    eapply Forall_impl; [exact Hfits|]. intros u (H1 & H2 & H3) r Hur.
    by eapply written_user_fits. }
  { by rewrite Hallocs. }
  eexists m', _. split_and!; try done.
  - etrans; [eapply Forall2_fmap_eq; [|exact Hloaded]|].
    + intros u r (Hid & _). exact Hid.
    + symmetry. eapply Forall2_fmap_eq; [|exact Hall].
      intros u r Hur. by destruct (written_user_spec _ _ Hur) as [-> _].
  - unfold tuples. f_equal.
    assert (Forall2 (fun u' u => user_tuples u' = user_tuples u) (users m') (users m))
      as Hsame.
    { apply Forall2_flip in Hall.
      assert (Forall2 (fun r u => written_user u = Some r ∧ visit_count u ≤ max_visits m)
                ws (users m)) as Hall'.
      { clear -Hall Hmax. induction Hall as [|r u rs us Hru _ IH]; [constructor|].
        apply Forall_cons in Hmax as [Hu Hmax]. constructor; [done | by apply IH]. }
      eapply Forall2_trans; [|exact Hloaded|exact Hall'].
      intros u' r u Hl' [Hw Hc]. by eapply loaded_written_tuples. }
    clear -Hsame. induction Hsame as [|u' u us' us Hu _ IH]; [done|].
    by rewrite !fmap_cons, Hu, IH.
Qed.

(** An add that stores a new visit ends with serialize_manager on the
    new state. *)
Lemma fresh_add_serializes (m m' : VisitManager) (uid vid : Z) (u t : list byte)
    (w w' : World) :
  add_visit m uid vid u t w = Done (true, m') w' →
  has_visit vid (visits_of (Some m) uid) = false →
  ∃ w3, serialize_manager m' w3 = Done tt w'
        ∧ locked w3 = locked w
        ∧ path m' = path m ∧ max_visits m' = max_visits m.
Proof.
  unfold add_visit. rewrite bind_Done.
  intros ([m0 oi] & w1 & Hloc & H) Hfresh. simpl in H.
  destruct (find_or_create_user_spec _ _ _ _ _ _ Hloc) as (Hmax & Hpath & Hcase).
  pose proof (frames_find_or_create_user None _ _ _ _ _ Hloc) as (_ & _ & Hl1 & _).
  destruct oi as [i|]; [|by apply ret_Done in H as [[= ] _]].
  destruct (users m0 !! i) as [user|] eqn:Hlook; [|done].
  assert (has_visit vid (visits user) = false) as Hfresh0.
  { destruct Hcase as [(user0 & Hfind & -> & _)|(Hnone & user0 & Hus & -> & _ & Hvs & _)].
    - destruct (find_user_lookup _ _ _ _ Hfind) as [Hlook0 _].
      unfold visits_of in Hfresh. rewrite Hfind in Hfresh. congruence.
    - rewrite Hus in Hlook. rewrite lookup_app_r in Hlook by lia.
      rewrite Nat.sub_diag in Hlook. injection Hlook as <-. by rewrite Hvs. }
  revert H. unfold add_to_user. rewrite Hfresh0.
  rewrite bind_Done. intros ([new_visit|] & w2 & Hnew & H);
    [|by apply ret_Done in H as [[= ] _]].
  pose proof (frames_create_visit None _ _ _ _ _ _ Hnew) as (_ & _ & Hl2 & _).
  apply bind_Done in H as (vs & w2' & Hroom & H).
  destruct (make_room_any_world _ _ _ _ _ Hroom) as [-> _].
  apply bind_Done in H as (grown & w3 & Hgrow & H).
  assert (locked w3 = locked w2) as Hl3.
  { revert Hgrow. unfold grow_visits. destruct (_ <=? _).
    - rewrite bind_Done. intros (p & w4 & Hmal & Hret).
      pose proof (frames_malloc None _ _ _ _ Hmal) as (_ & _ & Hl & _).
      destruct (p =? 0); apply ret_Done in Hret as [_ <-]; done.
    - by intros [_ <-]%ret_Done. }
  destruct grown as [user2|]; [|by apply ret_Done in H as [[= ] _]].
  pose proof (store_visit_true _ _ _ _ _ _ _ _ H) as [_ ->].
  unfold store_visit in H. destruct (_ <? _); [|done].
  apply bind_Done in H as ([] & w4 & Hser & Hret). apply ret_Done in Hret as [_ <-].
  exists w3. split_and!; try done. congruence.
Qed.

(** X10. What an add stores survives a restart. After an add that
    returned true for a visit id the user did not hold, with a file that
    can be written, VisitManagerCreate on the same path and with the same
    capacity bound (given memory for the load) returns a manager with the
    same users and the same (user_id, visit_id, url, text, timestamp)
    tuples as the manager the add left behind. *)
Theorem X10_added_visit_survives_reload (m m' : VisitManager) (uid vid : Z)
    (u t : list byte) (w w' : World) :
  VisitManagerAddVisit (Some m) uid vid (Some u) (Some t) w = Done (true, Some m') w' →
  has_visit vid (visits_of (Some m) uid) = false →
  locked w (path m) = false →
  manager_fits m' → within_bound m' →
  heap_ok (3 + sum_list ((fun u => 2 + 3 * length (visits u))%nat <$> users m')) w' →
  ∃ m'' w'',
    VisitManagerCreate (path m) (max_visits m) w' = Done (Some m'') w''
    ∧ max_visits m'' = max_visits m
    ∧ user_id <$> users m'' = user_id <$> users m'
    ∧ tuples m'' = tuples m'.
Proof.
  unfold VisitManagerAddVisit. rewrite bind_Done.
  intros ([b m1] & w1 & Hadd & H) Hfresh Hl Hfits Hbound Hheap.
  apply ret_Done in H as [[= -> <-] <-].
  destruct (fresh_add_serializes _ _ _ _ _ _ _ _ Hadd Hfresh)
    as (w3 & Hser & Hl3 & Hpath & Hmax).
  revert Hser. unfold serialize_manager, manager_bytes, write_file.
  assert (locked w3 (path m1) = false) as -> by (by rewrite Hl3, Hpath).
  destruct (mapM written_user (users m1)) as [ws|] eqn:Hws; [|done]. simpl.
  intros [= <-]. rewrite <- Hpath, <- Hmax.
  destruct (reload_written m1 ws
              {| heap := heap w3; clock := clock w3;
                 disk := fun q => if String.eqb q (path m1)
                                  then Some (file_image (max_visits m1) ws) else disk w3 q;
                 locked := locked w3; junk := junk w3;
                 libc_qsort := libc_qsort w3 |} Hws)
    as (m'' & w'' & Hload & Hmax'' & Hids & Htuples); try done.
  { simpl. by rewrite String.eqb_refl. }
  exists m'', w''. split_and!; try done.
  apply create_loads; [|done]. simpl. rewrite String.eqb_refl. by eexists.
Qed.

Lemma X10_added_visit_survives_reload_witness :
  ∃ m' w' m'' w'',
    VisitManagerAddVisit (Some demo_manager) 2 201 (Some (c_string "https://example.org/1"))
      (Some (c_string "Org 1")) demo_world = Done (true, Some m') w'
    ∧ VisitManagerCreate (path demo_manager) (max_visits demo_manager) w'
      = Done (Some m'') w''
    ∧ max_visits m'' = max_visits demo_manager
    ∧ user_id <$> users m'' = user_id <$> users m'
    ∧ tuples m'' = tuples m'.
Proof.
  assert (∃ m' w',
            VisitManagerAddVisit (Some demo_manager) 2 201
              (Some (c_string "https://example.org/1")) (Some (c_string "Org 1")) demo_world
            = Done (true, Some m') w'
            ∧ manager_fits m' ∧ within_bound m'
            ∧ heap_ok (3 + sum_list ((fun u => 2 + 3 * length (visits u))%nat <$> users m'))
                w') as (m' & w' & Hrun & Hfits & Hbound & Hheap).
  { eexists _, _. split; [vm_compute; reflexivity|]. split_and!; by_computation. }
  destruct (X10_added_visit_survives_reload _ _ _ _ _ _ _ _ Hrun) as (m'' & w'' & H);
    try done.
  exists m', w', m'', w''. split; [exact Hrun | exact H].
Defined.

(** ** Bytes after the last user *)

Lemma deserialize_image_rest (p : string) (max stored_max : Z) (us : list (Z * list Visit))
    (rest : list byte) (w : World) :
  disk w p = Some (file_image stored_max us ++ rest) →
  Z.of_nat (length us) * 8 < 2 ^ 64 →
  Forall user_fits us →
  heap_ok (3 + allocations us) w →
  ∃ m,
    deserialize_manager p max w
    = Done (Some m) (set_heap w (drop (3 + allocations us) (heap w)))
    ∧ max_visits m = max ∧ path m = p
    ∧ Forall2 (loaded_as max) (users m) us.
Proof.
  intros Hdisk Hcount Hfits Hheap.
  unfold deserialize_manager, fopen_rb. unfold bind at 1. rewrite Hdisk.
  malloc_step (2 + allocations us)%nat Hheap.
  malloc_step (1 + allocations us)%nat Hheap0.
  unfold file_image. rewrite <- !app_assoc.
  rewrite fread_app by (by rewrite le_bytes_length). cbv beta iota.
  rewrite fread_app by (by rewrite le_bytes_length). cbv beta iota zeta.
  rewrite (le_value_bytes_small 8) by (change (256 ^ Z.of_nat 8) with (2 ^ 64); lia).
  set (cap := if 0 <? Z.of_nat (length us) then Z.of_nat (length us) else 10).
  malloc_step (allocations us) Hheap1.
  rewrite Nat2Z.id.
  destruct (read_users_images us (Z.of_nat (length us))
              {| users_at := p2; users := []; user_capacity := cap;
                 max_visits := max; path := p |} rest _ Hfits Hheap2)
    as (loaded & Hrun & Hloaded).
  { unfold user_count. simpl. unfold cap.
    destruct (0 <? Z.of_nat (length us)) eqn:Hpos.
    - rewrite block_slots_exact; lia.
    - apply Z.ltb_ge in Hpos. rewrite block_slots_exact; lia. }
  eexists. split; [|split_and!].
  - rewrite Hrun. rewrite !set_heap_drop. do 3 f_equal.
  - done.
  - done.
  - done.
Qed.

(** X11. The loader reads the users the header announces and nothing
    more: bytes that follow the last user in the file are ignored, and the
    file is loaded as if they were not there. *)
Theorem X11_trailing_bytes_ignored (p : string) (max stored_max : Z)
    (us : list (Z * list Visit)) (rest : list byte) (w : World) :
  disk w p = Some (file_image stored_max us ++ rest) →
  Z.of_nat (length us) * 8 < 2 ^ 64 →
  Forall user_fits us →
  heap_ok (3 + allocations us) w →
  ∃ m w',
    VisitManagerCreate p max w = Done (Some m) w'
    ∧ max_visits m = max
    ∧ path m = p
    ∧ (fun u => (user_id u, visit <$> visits u)) <$> users m
      = (fun r => (r.1, take (Z.to_nat max) r.2)) <$> us.
Proof.
  intros Hdisk Hcount Hfits Hheap.
  destruct (deserialize_image_rest p max stored_max us rest w Hdisk Hcount Hfits Hheap)
    as (m & Hrun & Hmax & Hpath & Hloaded).
  exists m, (set_heap w (drop (3 + allocations us) (heap w))).
  split_and!; try done.
  - apply create_loads; [by eexists | done].
  - eapply Forall2_fmap_eq; [|exact Hloaded].
    intros u r (Hid & Hvs & _). by rewrite Hid, Hvs.
Qed.

Lemma X11_trailing_bytes_ignored_witness :
  ∃ m w',
    VisitManagerCreate "visit_test.dat" 2 padded_world = Done (Some m) w'
    ∧ max_visits m = 2
    ∧ path m = "visit_test.dat"
    ∧ (fun u => (user_id u, visit <$> visits u)) <$> users m
      = [(1, [visit visit_101; visit visit_102]); (2, [visit visit_102])].
Proof.
  apply (X11_trailing_bytes_ignored "visit_test.dat" 2 100 demo_content [x01; x02; x03]
           padded_world).
  - reflexivity.
  - reflexivity.
  - by_computation.
  - by_computation.
Defined.

(** * Deleting everything, and creating without a usable file *)

Lemma filter_none {A} (P : A → Prop) `{∀ x, Decision (P x)} (l : list A) :
  Forall (fun x => ¬ P x) l → filter P l = [].
Proof.
  induction 1 as [|x l Hx _ IH]; [done|]. by rewrite filter_cons_False.
Qed.

(** X12. Deleting every visit of a user is clearing the user. For a known
    user with at least one visit and pairwise distinct visit ids,
    VisitManagerDelete with the list of all the visit ids of the record
    returns true and has the effect of VisitManagerClear: the same manager,
    with the record emptied in place, and the same world (the same file
    written). *)
Theorem X12_deleting_all_is_clearing (m : VisitManager) (uid : Z) (i : nat)
    (user : UserVisits) (w : World) :
  find_user m uid = Some (i, user) →
  visits user ≠ [] →
  NoDup (ids_of (visits user)) →
  VisitManagerDelete (Some m) uid (Some (ids_of (visits user))) w
  = bind (VisitManagerClear (Some m) uid) (fun r => ret (true, r)) w.
Proof.
  intros Hfind Hne Hnd.
  assert ((delete_ids (ids_of (visits user)) (visits user)).2 = true) as Hflag.
  { apply delete_ids_found. destruct (visits user) as [|s vs] eqn:Hvs; [done|].
    exists (visit_id (visit s)), s. split_and!; [left | left | done]. }
  assert ((delete_ids (ids_of (visits user)) (visits user)).1 = []) as Hall.
  { apply Permutation_nil_r. unfold delete_ids.
    rewrite (delete_ids_perm _ _ false Hnd). rewrite filter_none; [done|].
    apply Forall_forall. intros s Hs Hnot. apply Hnot.
    apply list_elem_of_fmap. by exists s. }
  unfold VisitManagerDelete, VisitManagerClear. rewrite Hfind.
  destruct (ids_of (visits user)) as [|id ids] eqn:Hids.
  { destruct (visits user); [done | discriminate]. }
  cbv zeta. rewrite Hflag, Hall. unfold bind, ret.
  by destruct (serialize_manager _ w).
Qed.

Lemma X12_deleting_all_is_clearing_witness :
  VisitManagerDelete (Some demo_manager) 1 (Some [101; 102; 103]) demo_world
  = bind (VisitManagerClear (Some demo_manager) 1) (fun r => ret (true, r)) demo_world.
Proof.
  apply (X12_deleting_all_is_clearing demo_manager 1 0%nat demo_user demo_world).
  - reflexivity.
  - discriminate.
  - apply (bool_decide_unpack _). vm_compute. exact I.
Defined.

Lemma create_falls_back (p : string) (max : Z) (w : World) :
  (disk w p = None ∨ ∃ f, disk w p = Some f ∧ (length f < 16)%nat) →
  heap_ok 5 w →
  ∃ arr w',
    arr ≠ 0
    ∧ VisitManagerCreate p max w
      = Done (Some {| users_at := arr; users := []; user_capacity := 10;
                      max_visits := max; path := p |}) w'.
Proof.
  intros [Hnone|(f & Hdisk & Hlen)] Hheap.
  - destruct (create_without_file p max w Hnone) as (arr & Harr & Hrun).
    { eapply heap_ok_le; [|exact Hheap]. lia. }
    by eexists _, _.
  - assert (∃ w1, deserialize_manager p max w = Done None w1 ∧ heap_ok 3 w1)
      as (w1 & Hload & Hheap1).
    { unfold deserialize_manager, fopen_rb. unfold bind at 1. rewrite Hdisk.
      malloc_step 4%nat Hheap. malloc_step 3%nat Hheap0.
      destruct (fread 8 f) as [[b1 f1]|] eqn:Hr1; [|by eexists].
      destruct (fread 8 f1) as [[b2 f2]|] eqn:Hr2; [|by eexists].
      exfalso. unfold fread in Hr1, Hr2.
      destruct (8 <=? Z.of_nat (length f)) eqn:H8; [|done]. injection Hr1 as <- <-.
      rewrite length_drop in Hr2.
      destruct (8 <=? _) eqn:H8' in Hr2; [|done].
      apply Z.leb_le in H8, H8'. lia. }
    unfold VisitManagerCreate, fopen_rb. unfold bind at 1. rewrite Hdisk.
    unfold bind at 1. rewrite Hload.
    malloc_step 2%nat Hheap1. malloc_step 1%nat Hheap0. malloc_step 0%nat Hheap2.
    eexists _, _. split; [|done]. by apply Z.eqb_neq.
Qed.

(** X13. Without a usable file VisitManagerCreate starts afresh. When
    there is no file at the path, or the file is shorter than the sixteen
    bytes of its header, and memory for five allocations is there, the
    result is a manager without users, with the given capacity bound and
    path, an allocated users array of ten entries, and nothing of the file
    in it. *)
Theorem X13_create_falls_back (p : string) (max : Z) (w : World) :
  (disk w p = None ∨ ∃ f, disk w p = Some f ∧ (length f < 16)%nat) →
  heap_ok 5 w →
  ∃ arr w',
    arr ≠ 0
    ∧ VisitManagerCreate p max w
      = Done (Some {| users_at := arr; users := []; user_capacity := 10;
                      max_visits := max; path := p |}) w'.
Proof. apply create_falls_back. Qed.

Lemma X13_create_falls_back_witness :
  ∃ arr w',
    arr ≠ 0
    ∧ VisitManagerCreate "visit_test.dat" 5 short_file_world
      = Done (Some {| users_at := arr; users := []; user_capacity := 10;
                      max_visits := 5; path := "visit_test.dat" |}) w'.
Proof.
  apply (X13_create_falls_back "visit_test.dat" 5 short_file_world).
  - right. exists (le_bytes 8 5 ++ [x01]). split; [reflexivity | vm_compute; lia].
  - by_computation.
Defined.

(** * The most recent visits are the ones kept *)

Lemma earlier_not_later (a b : timespec) : earlier a b → not_later b a → False.
Proof. unfold earlier, not_later. lia. Qed.

Lemma in_time_order_snoc (h : list slot) (x : slot) :
  in_time_order h →
  Forall (fun a => earlier (time (visit a)) (time (visit x))) h →
  in_time_order (h ++ [x]).
Proof.
  induction h as [|a rest IH]; simpl; [done|].
  intros [Ha Hrest] Hx. apply Forall_cons in Hx as [Hax Hx]. split; [|by apply IH].
  apply Forall_app. split; [done|]. by constructor.
Qed.

Lemma in_time_order_drop (n : nat) (h : list slot) :
  in_time_order h → in_time_order (drop n h).
Proof.
  revert h. induction n as [|n IH]; intros h; [by rewrite drop_0|].
  destruct h as [|a rest]; [done|]. simpl. intros [_ Hrest]. by apply IH.
Qed.

(** X14. The bounded history keeps the most recent visits. Let [history]
    list the visits added so far for a user, oldest first, with strictly
    increasing timestamps, and let the user's record hold the last
    [max_visits] of them (all of them while there are fewer). After one
    more add, for a visit id the record does not hold and at a clock
    reading later than all of them, the record again holds the last
    [max_visits] visits of the history, now extended by the new visit:
    what is evicted is always the oldest visit of the record. The state
    stays sane, so the statement carries over to any number of adds. *)
Theorem X14_newest_are_kept (m : VisitManager) (uid vid : Z) (u t : list byte)
    (nu nt : nat) (w : World) (history : list slot) :
  manager_sane m → user_count m < 2 ^ 59 →
  in_time_order history →
  Forall (fun s => earlier (time (visit s)) (next_time w)) history →
  visits_of (Some m) uid ≡ₚ newest (max_visits m) history →
  has_visit vid (visits_of (Some m) uid) = false →
  strlen u = Some nu → strlen t = Some nt →
  heap_ok 7 w →
  ∃ m' w' new,
    VisitManagerAddVisit (Some m) uid vid (Some u) (Some t) w = Done (true, Some m') w'
    ∧ visit_id (visit new) = vid
    ∧ time (visit new) = next_time w
    ∧ in_time_order (history ++ [new])
    ∧ visits_of (Some m') uid ≡ₚ newest (max_visits m) (history ++ [new])
    ∧ manager_sane m'.
Proof.
  intros Hm Hcount Horder Hlater Hheld Hfresh Hu Ht Hheap.
  destruct (add_visit_succeeds m uid vid u t nu nt w Hm Hcount Hfresh Hu Ht Hheap)
    as (m' & w' & i & user' & p & kept & w3 & k & Hrun & Hfind & Hkept & Hvs & Hp
        & Hm' & _).
  set (new := {| ptr := p;
                 visit := {| visit_id := vid; url := take (S nu) u;
                             text := take (S nt) t; time := next_time w |} |}) in *.
  exists m', w', new. split_and!; try done.
  { unfold VisitManagerAddVisit, bind, ret. by rewrite Hrun. }
  { by apply in_time_order_snoc. }
  unfold visits_of. rewrite Hfind, Hvs.
  pose proof Hm as ((Hmax1 & _) & _).
  set (old := visits_of (Some m) uid) in *.
  set (K := Z.to_nat (max_visits m)).
  assert (1 ≤ K)%nat as HK by (unfold K; lia).
  assert (length old = (length history - (length history - K))%nat) as Hlen.
  { rewrite (Permutation_length Hheld). unfold newest. by rewrite length_drop. }
  unfold newest. fold K. rewrite length_app. simpl.
  destruct (decide (Z.of_nat (length old) < max_visits m)) as [Hroom|Hfull].
  - specialize (Hkept w). rewrite (make_room_keeps _ _ _ Hroom) in Hkept.
    injection Hkept as <-.
    assert (length history < K)%nat as Hshort by (unfold K in *; lia).
    replace (length history + 1 - K)%nat with 0%nat by lia. rewrite drop_0.
    rewrite Hheld. unfold newest. fold K.
    replace (length history - K)%nat with 0%nat by lia. by rewrite drop_0.
  - assert (K ≤ length history)%nat as Hlong by (unfold K in *; lia).
    assert (old ≠ []) as Hne.
    { intros Hnil. rewrite Hnil in Hlen. simpl in Hlen. lia. }
    destruct (make_room_evicts (max_visits m) old w Hne) as (j & victim & Hroom & Hj & Hmin);
      [lia|].
    rewrite Hkept in Hroom. injection Hroom as ->.
    destruct (drop (length history - K) history) as [|h0 rest] eqn:Hdrop.
    { apply (f_equal length) in Hdrop. rewrite length_drop in Hdrop. simpl in Hdrop. lia. }
    unfold newest in Hheld. fold K in Hheld. rewrite Hdrop in Hheld.
    assert (in_time_order (h0 :: rest)) as [Hh0 _].
    { rewrite <- Hdrop. by apply in_time_order_drop. }
    assert (victim = h0) as ->.
    { assert (victim ∈ h0 :: rest) as Hin.
      { rewrite <- Hheld. by eapply list_elem_of_lookup_2. }
      apply elem_of_cons in Hin as [->|Hin]; [done|]. exfalso.
      rewrite Forall_forall in Hh0.
      eapply earlier_not_later; [apply (Hh0 _ Hin)|].
      apply Hmin. rewrite Hheld. left. }
    assert (swap_remove j old ≡ₚ rest) as ->.
    { rewrite swap_remove_perm by (by eapply lookup_lt_Some).
      apply (Permutation_cons_inv (a := h0)).
      by rewrite <- (delete_Permutation old j h0 Hj). }
    replace (length history + 1 - K)%nat with (length history - K + 1)%nat by lia.
    rewrite drop_app_le by lia. rewrite <- drop_drop, Hdrop. done.
Qed.

Lemma X14_newest_are_kept_witness :
  ∃ m' w' new,
    VisitManagerAddVisit (Some tidy_manager) 1 104 (Some (c_string "https://example.com/4"))
      (Some (c_string "Example 4")) demo_world = Done (true, Some m') w'
    ∧ visit_id (visit new) = 104
    ∧ time (visit new) = next_time demo_world
    ∧ in_time_order ([visit_101; visit_103; visit_102] ++ [new])
    ∧ visits_of (Some m') 1 ≡ₚ newest 3 ([visit_101; visit_103; visit_102] ++ [new])
    ∧ manager_sane m'.
Proof.
  apply (X14_newest_are_kept tidy_manager 1 104 (c_string "https://example.com/4")
           (c_string "Example 4") 21 9 demo_world [visit_101; visit_103; visit_102]).
  - by_computation.
  - vm_compute. reflexivity.
  - by_computation.
  - by_computation.
  - reflexivity.
  - reflexivity.
  - reflexivity.
  - reflexivity.
  - by_computation.
Defined.

(** On the example, 101 is the oldest and goes. *)
Example newest_are_kept_example :
  ∃ om w',
    VisitManagerAddVisit (Some tidy_manager) 1 104 (Some (c_string "https://example.com/4"))
      (Some (c_string "Example 4")) demo_world = Done (true, om) w'
    ∧ ids_of (visits_of om 1) = [102; 103; 104].
Proof. eexists _, _. split; [vm_compute; reflexivity | reflexivity]. Qed.

(** * The Go wrapper *)

(** ** Strings between Go and C *)









(** ** What the query of the wrapper tells *)

(** X15. The wrapper does not tell an unknown user from a user without
    visits, nor either from a closed manager: in all three cases
    GetRecentVisits returns the nil slice and no error, and changes
    nothing. (The C function tells the first two apart by the pointer it
    returns; the wrapper tests the pointer and the count together.) *)
Theorem X15_wrapper_hides_unknown_users (vm : cffi.VisitManager) (uid : Z) (w : World) :
  (cffi.ptr vm = None ∨ ∃ m, cffi.ptr vm = Some m ∧ visits_of (Some m) uid = []) →
  cffi.GetRecentVisits vm uid w = Done (cffi.Returns ([], None), vm) w.
Proof.
  destruct vm as [om]. simpl. intros [->|(m & -> & Hempty)]; [done|].
  unfold cffi.GetRecentVisits. cbn [cffi.ptr]. unfold visits_of in Hempty.
  destruct (find_user m uid) as [[i user]|] eqn:Hfind.
  - unfold bind. rewrite (get_recent_empty m uid i user w Hfind Hempty). simpl.
    by rewrite orb_true_r.
  - unfold bind. by rewrite (get_recent_unknown m uid w Hfind).
Qed.

Lemma X15_wrapper_hides_unknown_users_witness :
  cffi.GetRecentVisits {| cffi.ptr := Some demo_manager |} 9 demo_world
  = Done (cffi.Returns ([], None), {| cffi.ptr := Some demo_manager |}) demo_world
  ∧ cffi.GetRecentVisits {| cffi.ptr := Some demo_manager |} 2 demo_world
    = Done (cffi.Returns ([], None), {| cffi.ptr := Some demo_manager |}) demo_world.
Proof.
  split; apply X15_wrapper_hides_unknown_users; right; exists demo_manager;
    split; reflexivity.
Defined.

(** ** From AddVisit to GetRecentVisits *)





(** ** No call through the wrapper is undefined *)




(** ** Deleting through the wrapper *)

(** X18. DeleteVisits returns true exactly when the list of ids is empty
    or one of the ids is the id of a visit that the user holds. With an
    empty list it does not call into C at all and changes nothing (the C
    function itself answers false to an empty list). *)
Theorem X18_wrapper_delete_result (m : VisitManager) (uid : Z) (ids : list Z) (w : World) :
  strings_terminated m →
  ∃ b vm' w',
    cffi.DeleteVisits {| cffi.ptr := Some m |} uid ids w = Done (b, vm') w'
    ∧ (b = true
       ↔ ids = [] ∨ ∃ id s, id ∈ ids ∧ s ∈ visits_of (Some m) uid ∧ visit_id (visit s) = id)
    ∧ (ids = [] → vm' = {| cffi.ptr := Some m |} ∧ w' = w).
Proof.
  intros Hterm. unfold cffi.DeleteVisits.
  destruct ids as [|id ids].
  { eexists _, _, _. split; [done|]. split; [|done]. split; [by left | done]. }
  destruct (delete_outcome (Some m) uid (Some (id :: ids)) w)
    as (b & om & w' & Hrun & Hcase); [by intros ? [= <-]|].
  unfold bind. cbn [cffi.ptr]. rewrite Hrun. simpl.
  eexists _, _, _. split; [done|]. split; [|done].
  unfold visits_of.
  destruct (find_user m uid) as [[i user]|] eqn:Hfind.
  - destruct Hcase as (-> & _). rewrite delete_ids_found. split; [by right|].
    by intros [?|?].
  - destruct Hcase as (-> & _). split; [done|].
    intros [?|(id' & s & _ & Hs & _)]; [done|]. by apply elem_of_nil in Hs.
Qed.

Lemma X18_wrapper_delete_result_witness :
  ∃ b vm' w',
    cffi.DeleteVisits {| cffi.ptr := Some demo_manager |} 1 [999] demo_world
    = Done (b, vm') w'
    ∧ (b = true
       ↔ [999] = [] ∨ ∃ id s, id ∈ [999] ∧ s ∈ visits_of (Some demo_manager) 1
                              ∧ visit_id (visit s) = id).
Proof.
  destruct (X18_wrapper_delete_result demo_manager 1 [999] demo_world)
    as (b & vm' & w' & Hrun & Hiff & _).
  - by_computation.
  - by exists b, vm', w'.
Defined.

(** ** Creating through the wrapper *)

(** X19. NewVisitManager on a path without a usable file (none, or one
    shorter than its header), with memory for six allocations, returns a
    manager and no error. The C code is handed the file name up to its
    first zero character and the capacity converted to size_t: a negative
    capacity is not refused, it becomes a bound of 2^64 minus its
    magnitude. *)
Theorem X19_new_manager_without_file (file : string) (maxVisitsPerUser : Z) (w : World) :
  (disk w (until_nul file) = None
   ∨ ∃ f, disk w (until_nul file) = Some f ∧ (length f < 16)%nat) →
  heap_ok 6 w →
  ∃ arr w',
    arr ≠ 0
    ∧ cffi.NewVisitManager file maxVisitsPerUser w
      = Done (cffi.Returns
                (Some {| cffi.ptr :=
                           Some {| users_at := arr; users := []; user_capacity := 10;
                                   max_visits := maxVisitsPerUser mod 2 ^ 64;
                                   path := until_nul file |} |},
                 None)) w'.
Proof.
  intros Hfile Hheap. unfold cffi.NewVisitManager.
  malloc_step 5%nat Hheap.
  destruct (create_falls_back (until_nul file) (wrap64 maxVisitsPerUser)
              (set_heap w (drop 1 (heap w))) Hfile Hheap0) as (arr & w' & Harr & Hrun).
  exists arr, w'. split; [done|]. unfold bind. by rewrite Hrun.
Qed.

Lemma X19_new_manager_without_file_witness :
  ∃ arr w',
    arr ≠ 0
    ∧ cffi.NewVisitManager "rv.dat" (-1) demo_world
      = Done (cffi.Returns
                (Some {| cffi.ptr :=
                           Some {| users_at := arr; users := []; user_capacity := 10;
                                   max_visits := 18446744073709551615;
                                   path := "rv.dat" |} |},
                 None)) w'.
Proof.
  apply (X19_new_manager_without_file "rv.dat" (-1) demo_world).
  - left. reflexivity.
  - by_computation.
Defined.

(** * Invariants of the managers a client can hold *)

(** X20. The capacity bound, in the executions that are defined. Every
    manager that VisitManagerCreate returns, whether fresh or loaded from
    a file of any content, and every manager that a returning call leaves
    behind, has the capacity bound it was created with, holds at most that
    many visits for every user, and has for every user an allocated array
    that holds the user's visits. *)
Theorem X20_capacity_bound_of_reachable_managers (max : Z) (m : VisitManager) :
  0 ≤ max → reachable max m →
  max_visits m = max
  ∧ Forall (fun u => visit_count u ≤ max ∧ visits_at u ≠ 0 ∧ visit_count u ≤ capacity u)
      (users m).
Proof.
  intros Hmax Hreach.
  destruct (capacity_bound_when_defined max m Hmax Hreach) as [Hm Hall].
  split; [done|]. eapply Forall_impl; [exact Hall|].
  intros u Hu. pose proof (record_ok_fits _ _ Hu). by destruct Hu as (? & _ & ? & _).
Qed.

Lemma X20_capacity_bound_of_reachable_managers_witness :
  ∃ m,
    reachable 1 m
    ∧ ids_of (visits_of (Some m) 1) = [102]
    ∧ max_visits m = 1
    ∧ Forall (fun u => visit_count u ≤ 1 ∧ visits_at u ≠ 0 ∧ visit_count u ≤ capacity u)
        (users m).
Proof.
  assert (∃ m0 w0 m1 w1 m2 w2,
            VisitManagerCreate "rv.dat" 1 demo_world = Done (Some m0) w0
            ∧ run_call (CallAddVisit 1 101 (Some (c_string "https://example.com/1"))
                          (Some (c_string "Example 1"))) m0 w0 = Done (Some m1) w1
            ∧ run_call (CallAddVisit 1 102 (Some (c_string "https://example.com/2"))
                          (Some (c_string "Example 2"))) m1 w1 = Done (Some m2) w2
            ∧ ids_of (visits_of (Some m2) 1) = [102])
    as (m0 & w0 & m1 & w1 & m2 & w2 & H0 & H1 & H2 & Hids).
  { eexists _, _, _, _, _, _. split_and!; [vm_compute; reflexivity ..| reflexivity]. }
  assert (reachable 1 m2) as Hreach.
  { eapply reach_call; [|exact H2]. eapply reach_call; [|exact H1].
    eapply reach_create. exact H0. }
  exists m2. split; [exact Hreach|]. split; [exact Hids|].
  apply X20_capacity_bound_of_reachable_managers; [lia | exact Hreach].
Defined.

(** X21. Visit ids stay unique. If in every record the visit ids are
    pairwise distinct, they are so after any call: an add refuses an id
    that the record of its user holds, and the other calls only remove or
    rearrange visits. A fresh manager has no visits, so that without a
    file of foreign origin no record ever holds two visits with one id. *)
Theorem X21_visit_ids_stay_unique (c : call) (m m' : VisitManager) (w w' : World) :
  ids_unique m → run_call c m w = Done (Some m') w' → ids_unique m'.
Proof. intros Hm Hrun. by eapply run_call_keeps_ids_unique. Qed.

Lemma X21_visit_ids_stay_unique_witness :
  ∃ m' w',
    run_call (CallAddVisit 1 104 (Some (c_string "https://example.com/4"))
                (Some (c_string "Example 4"))) demo_manager demo_world = Done (Some m') w'
    ∧ ids_unique m'.
Proof.
  assert (∃ m' w',
            run_call (CallAddVisit 1 104 (Some (c_string "https://example.com/4"))
                        (Some (c_string "Example 4"))) demo_manager demo_world
            = Done (Some m') w') as (m' & w' & Hrun)
    by (eexists _, _; vm_compute; reflexivity).
  exists m', w'. split; [exact Hrun|].
  eapply (X21_visit_ids_stay_unique _ demo_manager m' demo_world w'); [by_computation | exact Hrun].
Defined.

(** * Enough memory, and a restart *)

Lemma add_duplicate (m : VisitManager) (uid vid : Z) (u t : list byte) (w : World) :
  has_visit vid (visits_of (Some m) uid) = true →
  add_visit m uid vid u t w = Done (true, m) w.
Proof.
  unfold visits_of, add_visit, find_or_create_user.
  destruct (find_user m uid) as [[i user]|] eqn:Hfind; [|done].
  intros Hdup. destruct (find_user_lookup _ _ _ _ Hfind) as [Hlook _].
  unfold bind, ret. simpl. rewrite Hlook. unfold add_to_user. by rewrite Hdup.
Qed.

(** X22. With memory, an add succeeds. In a sane state with fewer than
    2^59 users, for C strings as arguments and with memory for seven
    allocations, VisitManagerAddVisit returns true, whether the visit id
    is new or not and whether a visit has to be evicted or not, and the
    state it leaves is sane. A false return therefore means that one of
    the next seven allocations failed. *)
Theorem X22_add_succeeds_given_memory (m : VisitManager) (uid vid : Z) (u t : list byte)
    (w : World) :
  manager_sane m → user_count m < 2 ^ 59 →
  terminated u → terminated t →
  heap_ok 7 w →
  ∃ m' w',
    VisitManagerAddVisit (Some m) uid vid (Some u) (Some t) w = Done (true, Some m') w'
    ∧ manager_sane m'.
Proof.
  intros Hm Hcount [nu Hu] [nt Ht] Hheap.
  unfold VisitManagerAddVisit, bind, ret.
  destruct (has_visit vid (visits_of (Some m) uid)) eqn:Hdup.
  - rewrite (add_duplicate m uid vid u t w Hdup). by exists m, w.
  - destruct (add_visit_succeeds m uid vid u t nu nt w Hm Hcount Hdup Hu Ht Hheap)
      as (m' & w' & i & user' & p & kept & w3 & k & Hrun & _ & _ & _ & _ & Hm' & _).
    rewrite Hrun. by exists m', w'.
Qed.

Lemma X22_add_succeeds_given_memory_witness :
  ∃ m' w',
    VisitManagerAddVisit (Some demo_manager) 1 104 (Some (c_string "https://example.com/4"))
      (Some (c_string "Example 4")) demo_world = Done (true, Some m') w'
    ∧ manager_sane m'.
Proof.
  apply (X22_add_succeeds_given_memory demo_manager 1 104 (c_string "https://example.com/4")
           (c_string "Example 4") demo_world).
  - by_computation.
  - vm_compute. reflexivity.
  - by_computation.
  - by_computation.
  - by_computation.
Defined.

(** ** What a load leaves *)

Lemma read_users_shape (n : nat) (total : Z) (m m' : VisitManager) (f : list byte)
    (w w' : World) :
  read_users n total m f w = Done (Some m') w' →
  user_capacity m' = user_capacity m
  ∧ length (users m') = (length (users m) + n)%nat.
Proof.
  revert m f w. induction n as [|n IH]; intros m f w.
  - simpl. intros H. apply ret_Done in H as [[= <-] _]. split; [done | lia].
  - cbn [read_users].
    destruct (fread 4 f) as [[b_uid f1]|]; [|by intros H%cleanup_None].
    destruct (fread 8 f1) as [[b_count f2]|]; [|by intros H%cleanup_None].
    cbv zeta. rewrite bind_Done. intros ([user|] & w1 & Hcreate & H);
      [|by apply cleanup_None in H].
    destruct (user_count m <? _); [|by unfold undefined in H].
    apply bind_Done in H as ([[user' f3]|] & w2 & Hvisits & H);
      [|by apply cleanup_None in H].
    apply IH in H as [Hcap Hlen]. simpl in Hcap, Hlen.
    rewrite length_app in Hlen. simpl in Hlen. split; [done | lia].
Qed.

(** After a load the users array is exactly as long as the number of
    users, or has ten entries if there are none. *)
Lemma deserialize_manager_shape (p : string) (max : Z) (m : VisitManager) (w w' : World) :
  deserialize_manager p max w = Done (Some m) w' →
  user_capacity m = (if 0 <? user_count m then user_count m else 10).
Proof.
  unfold deserialize_manager. rewrite bind_Done.
  intros ([f|] & w1 & _ & H); [|done].
  apply bind_Done in H as (p1 & w2 & _ & H). destruct (p1 =? 0); [done|].
  apply bind_Done in H as (p2 & w3 & _ & H). destruct (p2 =? 0); [done|].
  destruct (fread 8 f) as [[b1 f1]|]; [|done].
  destruct (fread 8 f1) as [[b2 f2]|]; [|done].
  cbv zeta in H. apply bind_Done in H as (p3 & w4 & _ & H). destruct (p3 =? 0); [done|].
  apply read_users_shape in H as [Hcap Hlen]. simpl in Hcap, Hlen.
  pose proof (le_value_nonneg b2).
  unfold user_count. rewrite Hcap, Hlen. by rewrite Z2Nat.id.
Qed.

Lemma written_terminated_buf (buf buf' : list byte) :
  written buf = Some buf' → terminated buf'.
Proof.
  unfold written. destruct (strlen buf) as [n|] eqn:Hn; [|done]. simpl.
  intros [= <-]. exists n. by apply strlen_take.
Qed.

Lemma written_visit_terminated (v v' : Visit) :
  written_visit v = Some v' → terminated (url v') ∧ terminated (text v').
Proof.
  unfold written_visit.
  destruct (written (url v)) as [u|] eqn:Hu; [|done].
  destruct (written (text v)) as [t|] eqn:Ht; [|done]. simpl. intros [= <-]. simpl.
  split; by eapply written_terminated_buf.
Qed.

(** The record loaded from what serialize_manager wrote of a sane record
    is sane, and its strings are terminated. *)
Lemma loaded_written_sane (max : Z) (u' u : UserVisits) (r : Z * list Visit) :
  1 ≤ max →
  loaded_as max u' r → written_user u = Some r → record_sane max u →
  record_sane max u' ∧ Forall visit_terminated (visits u').
Proof.
  intros Hmax (Hid & Hvs & _ & Hcap) Hw (Hcapu & Hfit & Hbound).
  destruct (written_user_spec _ _ Hw) as [_ Hall].
  pose proof (Forall2_length _ _ _ Hall) as Hlen.
  assert (length (visits u') = length (take (Z.to_nat max) r.2)) as Hlen'.
  { by rewrite <- Hvs, length_fmap. }
  rewrite length_take in Hlen'. unfold visit_count in *.
  split.
  - unfold record_sane, visit_count. rewrite Hcap.
    destruct (0 <? Z.of_nat (length r.2)) eqn:Hpos; split_and!; lia.
  - assert (Forall (fun v => terminated (url v) ∧ terminated (text v)) r.2) as Hr.
    { eapply Forall2_Forall_r; [exact Hall|]. apply Forall_forall.
      intros s _ v Hv. by eapply written_visit_terminated. }
    assert (Forall (fun v => terminated (url v) ∧ terminated (text v)) (visit <$> visits u'))
      as Hv.
    { rewrite Hvs. by apply Forall_take. }
    by apply Forall_fmap in Hv.
Qed.

(** X23. Sanity survives a restart. A sane manager whose values fit the
    fields of the file format, serialized to a file that can be written
    and loaded again by VisitManagerCreate with the same capacity bound
    (given memory for the load), comes back sane, with the same users
    and the same (user_id, visit_id, url, text, timestamp) tuples: every
    call on the reloaded manager is defined again. *)
Theorem X23_sanity_survives_restart (m : VisitManager) (w : World) :
  manager_sane m → manager_fits m →
  locked w (path m) = false →
  heap_ok (3 + sum_list ((fun u => 2 + 3 * length (visits u))%nat <$> users m)) w →
  ∃ w1 m' w2,
    serialize_manager m w = Done tt w1
    ∧ VisitManagerCreate (path m) (max_visits m) w1 = Done (Some m') w2
    ∧ manager_sane m'
    ∧ user_id <$> users m' = user_id <$> users m
    ∧ tuples m' = tuples m.
Proof.
  intros Hm Hfits Hl Hheap.
  pose proof Hm as (Hmax & _ & _ & _ & Hall & Hterm).
  destruct (manager_bytes_defined m Hterm) as [bs Hbs].
  unfold manager_bytes in Hbs.
  destruct (mapM written_user (users m)) as [ws|] eqn:Hws; [|done].
  destruct (serialize_manager_writes m w ws Hl Hws) as (w1 & Hser & Hdisk & Hheap1).
  assert (within_bound m) as Hbound.
  { eapply Forall_impl; [exact Hall|]. by intros u (_ & _ & ?). }
  destruct (reload_written m ws w1 Hws Hdisk Hfits Hbound)
    as (m' & w2 & Hload & Hmax' & Hids & Htuples).
  { unfold heap_ok. by rewrite Hheap1. }
  exists w1, m', w2. split_and!; try done.
  { apply create_loads; [by eexists | done]. }
  pose proof (deserialize_manager_shape _ _ _ _ _ Hload) as Hcap.
  assert (Forall2 (loaded_as (max_visits m)) (users m') ws) as Hloaded.
  { destruct Hfits as [Hcount Hfit].
    pose proof Hws as Hw2. apply mapM_Some in Hw2.
    destruct (deserialize_image (path m) (max_visits m) (max_visits m) ws w1 Hdisk)
      as (m2 & Hrun & _ & _ & _ & Hl2).
    - by rewrite <- (Forall2_length _ _ _ Hw2).
    - eapply Forall2_Forall_r; [exact Hw2|].
      eapply Forall_impl; [exact Hfit|]. intros u (H1 & H2 & H3) r Hur.
      by eapply written_user_fits.
    - unfold heap_ok. rewrite Hheap1.
      replace (allocations ws)
        with (sum_list ((fun u => 2 + 3 * length (visits u))%nat <$> users m)); [done|].
      unfold allocations. f_equal. eapply Forall2_fmap_eq; [|exact Hw2].
      intros u r Hur. destruct (written_user_spec _ _ Hur) as [_ H2].
      simpl. by rewrite (Forall2_length _ _ _ H2).
    - rewrite Hrun in Hload. by injection Hload as ->. }
  assert (Forall2 (fun u' u => record_sane (max_visits m) u'
                               ∧ Forall visit_terminated (visits u')) (users m') (users m))
    as Hsame.
  { apply mapM_Some in Hws. apply Forall2_flip in Hws.
    assert (Forall2 (fun r u => written_user u = Some r ∧ record_sane (max_visits m) u)
              ws (users m)) as Hws'.
    { clear -Hws Hall. induction Hws as [|r u rs us Hru _ IH]; [constructor|].
      apply Forall_cons in Hall as [Hu Hall]. constructor; [done | by apply IH]. }
    eapply Forall2_trans; [|exact Hloaded|exact Hws'].
    intros u' r u Hl' [Hw Hs]. eapply loaded_written_sane; [lia | done..]. }
  unfold manager_sane. rewrite Hmax', Hcap.
  assert (0 ≤ user_count m') as Hnn by (unfold user_count; lia).
  split_and!; try done; try (destruct (0 <? user_count m') eqn:Hpos; lia).
  - apply Forall_forall. intros u' Hu'.
    apply list_elem_of_lookup in Hu' as [k Hk].
    destruct (Forall2_lookup_l _ _ _ _ _ Hsame Hk) as (u & _ & Hu & _). done.
  - apply Forall_forall. intros u' Hu'.
    apply list_elem_of_lookup in Hu' as [k Hk].
    destruct (Forall2_lookup_l _ _ _ _ _ Hsame Hk) as (u & _ & _ & Hu). done.
Qed.

Lemma X23_sanity_survives_restart_witness :
  ∃ w1 m' w2,
    serialize_manager demo_manager demo_world = Done tt w1
    ∧ VisitManagerCreate (path demo_manager) (max_visits demo_manager) w1
      = Done (Some m') w2
    ∧ manager_sane m'
    ∧ user_id <$> users m' = user_id <$> users demo_manager
    ∧ tuples m' = tuples demo_manager.
Proof.
  apply (X23_sanity_survives_restart demo_manager demo_world).
  - by_computation.
  - by_computation.
  - reflexivity.
  - by_computation.
Defined.
